(** * Calculatorv01: the expression evaluation engine

    A shallow embedding of [src/js/modules/CalculatorEngine.js] (class
    [CalculatorEngine]) and of the standalone copy [safeCalculate] /
    [calculateResult] of [script.js], with the properties of the
    evaluation pipeline: whitespace stripping, character validation,
    tokenisation, Shunting Yard conversion, postfix evaluation and result
    formatting.

    Conventions of the embedding.
    - A JavaScript string is the list of its UTF-16 code units ([N]).
    - A JavaScript number is an IEEE-754 binary64 value, modelled by
      [spec_float] with the operations of [SpecFloat] at precision 53 and
      [emax] 1024 (round to nearest, ties to even).
    - A thrown [Error] is the [Err] case of [result]; the error kinds are
      the messages the source throws.
    - An array used as a stack ([operators], [stack]) is a list whose head
      is the top: [a.push(x)] is [x :: a], [a.pop()] removes the head and
      [a[a.length - 1]] is the head.  The [output] array, which is only
      appended to and then read from the front, is a list in array order:
      [output.push(x)] is [output ++ [x]]. *)

From Stdlib Require Import String Ascii.
From Stdlib Require Import List ZArith NArith PArith Bool Lia.
From Stdlib Require Import Floats.SpecFloat.
Import ListNotations.

Set Implicit Arguments.

(* ================================================================== *)
(** ** Strings and characters *)

Module Str.

Definition char := N.
Definition jsstring := list char.

Definition ch (a : ascii) : char := N_of_ascii a.

(** The code units of an ASCII literal. *)
Definition lit (s : string) : jsstring := map ch (list_ascii_of_string s).

Definition eqb (s t : jsstring) : bool :=
  if list_eq_dec N.eq_dec s t then true else false.

(** [\d] : the ten ASCII digits. *)
Definition is_digit (c : char) : bool := ((48 <=? c) && (c <=? 57))%N.

(** [\s] : ECMAScript WhiteSpace and LineTerminator code points. *)
Definition is_space (c : char) : bool :=
  ((9 <=? c) && (c <=? 13) || (c =? 32) || (c =? 160) || (c =? 5760)
   || (8192 <=? c) && (c <=? 8202) || (c =? 8232) || (c =? 8233)
   || (c =? 8239) || (c =? 8287) || (c =? 12288) || (c =? 65279))%N.

Definition is_dot (c : char) : bool := (c =? ch ".")%N.

(** [[+\-*/()]] *)
Definition is_op_or_paren (c : char) : bool :=
  ((c =? ch "+") || (c =? ch "-") || (c =? ch "*") || (c =? ch "/")
   || (c =? ch "(") || (c =? ch ")"))%N.

(** [[+\-*/]] : the four keys of the operator table. *)
Definition is_operator (c : char) : bool :=
  ((c =? ch "+") || (c =? ch "-") || (c =? ch "*") || (c =? ch "/"))%N.

(** [[0-9+\-*/.()]] *)
Definition is_allowed (c : char) : bool :=
  is_digit c || is_op_or_paren c || is_dot c.

Fixpoint take_while (p : char -> bool) (s : jsstring) : jsstring :=
  match s with
  | c :: s' => if p c then c :: take_while p s' else []
  | [] => []
  end.

Fixpoint drop_while (p : char -> bool) (s : jsstring) : jsstring :=
  match s with
  | c :: s' => if p c then drop_while p s' else s
  | [] => []
  end.

End Str.

Import Str.

(* ================================================================== *)
(** ** Regular expressions

    The fragment of ECMAScript patterns the program uses, with the
    backtracking semantics of the language: alternatives are tried left
    to right, quantifiers are greedy and give characters back one at a
    time.  The source only iterates character classes, so [Star] takes a
    class. *)

Module Regex.

Inductive regex :=
| Cls (p : char -> bool)
| Cat (r1 r2 : regex)
| Alt (r1 r2 : regex)
| Opt (r : regex)
| Star (p : char -> bool).

Definition Plus (p : char -> bool) : regex := Cat (Cls p) (Star p).

Section Matcher.
Variable A : Type.

(** [p*] against [s], then the continuation [k] on what is left;
    the longest run first, shorter ones on failure of [k]. *)
Fixpoint star_run (p : char -> bool) (s : jsstring)
         (k : jsstring -> option A) : option A :=
  match s with
  | c :: s' =>
      if p c then
        match star_run p s' k with
        | Some x => Some x
        | None => k s
        end
      else k s
  | [] => k []
  end.

Fixpoint run (r : regex) (s : jsstring) (k : jsstring -> option A)
  : option A :=
  match r with
  | Cls p =>
      match s with
      | c :: s' => if p c then k s' else None
      | [] => None
      end
  | Cat r1 r2 => run r1 s (fun s' => run r2 s' k)
  | Alt r1 r2 =>
      match run r1 s k with
      | Some x => Some x
      | None => run r2 s k
      end
  | Opt r1 =>
      match run r1 s k with
      | Some x => Some x
      | None => k s
      end
  | Star p => star_run p s k
  end.
End Matcher.

(** A match of [r] starting at the head of [s]: the matched text and the
    rest of the input. *)
Definition match_here (r : regex) (s : jsstring)
  : option (jsstring * jsstring) :=
  match run r s (fun rest => Some rest) with
  | Some rest => Some (firstn (length s - length rest) s, rest)
  | None => None
  end.

(** [/^r$/.test(s)] *)
Definition test_whole (r : regex) (s : jsstring) : bool :=
  match run r s (fun rest => match rest with [] => Some tt | _ => None end) with
  | Some _ => true
  | None => false
  end.

(** [s.match(/r/g) || []] for a pattern that never matches the empty
    string: the matches from left to right, each search resuming where
    the previous match ended, an unmatched character being stepped over.
    [skip] counts the characters of the current match still to pass. *)
Fixpoint match_all_from (r : regex) (s : jsstring) (skip : nat)
  : list jsstring :=
  match s with
  | [] => []
  | _ :: s' =>
      match skip with
      | S n => match_all_from r s' n
      | O =>
          match match_here r s with
          | Some (tok, _) => tok :: match_all_from r s' (length tok - 1)
          | None => match_all_from r s' 0
          end
      end
  end.

Definition match_all (r : regex) (s : jsstring) : list jsstring :=
  match_all_from r s 0.

(** [s.replace(/r/g, by)] for a pattern that never matches the empty
    string. *)
Fixpoint replace_all_from (r : regex) (by_ : jsstring) (s : jsstring)
         (skip : nat) : jsstring :=
  match s with
  | [] => []
  | c :: s' =>
      match skip with
      | S n => replace_all_from r by_ s' n
      | O =>
          match match_here r s with
          | Some (tok, _) => by_ ++ replace_all_from r by_ s' (length tok - 1)
          | None => c :: replace_all_from r by_ s' 0
          end
      end
  end.

Definition replace_all (r : regex) (by_ : jsstring) (s : jsstring)
  : jsstring :=
  replace_all_from r by_ s 0.

End Regex.

Import Regex.

(** The four patterns of the source. *)

(** [/\s+/g] *)
Definition re_spaces : regex := Plus is_space.
(** [/^[0-9+\-*/.()]+$/] *)
Definition re_allowed : regex := Plus is_allowed.
(** [\d*\.?\d+] *)
Definition re_number : regex :=
  Cat (Star is_digit) (Cat (Opt (Cls is_dot)) (Plus is_digit)).
(** [/(\d*\.?\d+|[+\-*/()])/g] *)
Definition re_token : regex := Alt re_number (Cls is_op_or_paren).

(* ================================================================== *)
(** ** Numbers: IEEE-754 binary64 *)

Module Num.

Definition float := spec_float.

Definition prec : Z := 53.
Definition emax : Z := 1024.

Definition add : float -> float -> float := SFadd prec emax.
Definition sub : float -> float -> float := SFsub prec emax.
Definition mul : float -> float -> float := SFmul prec emax.
Definition div : float -> float -> float := SFdiv prec emax.

Definition zero : float := S754_zero false.
Definition nan : float := S754_nan.

(** [x === y] on numbers. *)
Definition strict_eq (x y : float) : bool := SFeqb x y.

(** The binary64 value nearest to [(-1)^neg * m / 10^k]: the division of
    [SpecFloat] rounds the exact quotient of two integers once. *)
Definition of_decimal (neg : bool) (m : N) (k : nat) : float :=
  match m with
  | N0 => S754_zero neg
  | Npos p =>
      div (S754_finite neg p 0)
          (S754_finite false (Z.to_pos (10 ^ Z.of_nat k)) 0)
  end.

(** [Number.isInteger(x)]: [x] is finite and has no fractional part. *)
Definition isInteger (x : float) : bool :=
  match x with
  | S754_zero _ => true
  | S754_finite _ m e =>
      match e with
      | Zneg p => (Npos m mod 2 ^ Npos p =? 0)%N
      | _ => true
      end
  | _ => false
  end.

(** *** Decimal digit strings *)

Definition digit_char (d : N) : char := (48 + d)%N.

Fixpoint digits_from (fuel : nat) (n : N) (acc : jsstring) : jsstring :=
  match fuel with
  | O => acc
  | S k =>
      let acc' := digit_char (n mod 10) :: acc in
      if (n / 10 =? 0)%N then acc' else digits_from k (n / 10) acc'
  end.

(** The decimal representation of [n], without leading zeros ("0" for 0). *)
Definition decimal_digits (n : N) : jsstring :=
  digits_from (S (N.to_nat (N.size n))) n [].

(** The number a string of digits denotes. *)
Definition digits_value (s : jsstring) : N :=
  fold_left (fun acc c => (10 * acc + (c - 48))%N) s 0%N.

(** *** [Number.prototype.toFixed]

    [nearest_scaled f m e] is the integer [n] for which [n / 10^f] is
    nearest to [m * 2^e], the larger one of two. *)
Definition nearest_scaled (f : nat) (m : positive) (e : Z) : N :=
  let a := (Npos m * 10 ^ N.of_nat f)%N in
  match e with
  | Z0 => a
  | Zpos p => (a * 2 ^ Npos p)%N
  | Zneg p => ((2 * a + 2 ^ Npos p) / 2 ^ (Npos p + 1))%N
  end.

(** The digits of [n], padded with zeros on the left to [f + 1] digits,
    with the decimal point before the last [f]. *)
Definition fixed_point (f : nat) (n : N) : jsstring :=
  let m := decimal_digits n in
  let m := repeat (ch "0") (f + 1 - length m) ++ m in
  match f with
  | O => m
  | _ => firstn (length m - f) m ++ ch "." :: skipn (length m - f) m
  end.

(** [x.toFixed(f)].  For [|x| >= 10^21] the language returns [String(x)]
    instead of the expansion below; every such binary64 value is an
    integer, so [formatResult] never passes one to [toFixed]. *)
Definition toFixed (f : nat) (x : float) : jsstring :=
  match x with
  | S754_nan => lit "NaN"
  | S754_infinity s => (if s then lit "-" else []) ++ lit "Infinity"
  | S754_zero _ => fixed_point f 0
  | S754_finite s m e =>
      (if s then lit "-" else []) ++ fixed_point f (nearest_scaled f m e)
  end.

(** *** [parseFloat]

    On a string with no leading white space and no exponent part (the
    tokens and the results of [toFixed] have neither): an optional sign,
    then [Infinity], or digits with an optional point and digits; the
    longest such prefix is read and a string with none gives [NaN]. *)
Fixpoint is_prefix (p s : jsstring) : bool :=
  match p, s with
  | [], _ => true
  | a :: p', b :: s' => (a =? b)%N && is_prefix p' s'
  | _ :: _, [] => false
  end.

Definition parse_unsigned (neg : bool) (s : jsstring) : float :=
  if is_prefix (lit "Infinity") s then S754_infinity neg
  else
    let ip := take_while is_digit s in
    let fp :=
      match drop_while is_digit s with
      | c :: r => if is_dot c then take_while is_digit r else []
      | [] => []
      end in
    match ip ++ fp with
    | [] => nan
    | ds => of_decimal neg (digits_value ds) (length fp)
    end.

Definition parseFloat (s : jsstring) : float :=
  match s with
  | c :: r =>
      if (c =? ch "-")%N then parse_unsigned true r
      else if (c =? ch "+")%N then parse_unsigned false r
      else parse_unsigned false s
  | [] => nan
  end.

(** [Number.isInteger(result) ? result : parseFloat(result.toFixed(8))] *)
Definition formatResult (result : float) : float :=
  if isInteger result then result else parseFloat (toFixed 8 result).

End Num.

Import Num.

(* ================================================================== *)
(** ** Errors *)

Inductive error :=
| InvalidCharacter        (* 'Invalid characters in expression' *)
| MismatchedParentheses   (* 'Mismatched parentheses' *)
| DivisionByZero          (* 'Division by zero' *)
| InvalidExpression       (* 'Invalid expression' *)
| InvalidOperator         (* 'Invalid operator' *)
| TypeError.              (* a property read on [undefined] *)

Definition message (e : error) : string :=
  match e with
  | InvalidCharacter => "Invalid characters in expression"
  | MismatchedParentheses => "Mismatched parentheses"
  | DivisionByZero => "Division by zero"
  | InvalidExpression => "Invalid expression"
  | InvalidOperator => "Invalid operator"
  | TypeError => "Cannot read properties of undefined"
  end.

Inductive result (A : Type) :=
| Ok (a : A)
| Err (e : error).

Arguments Ok {A} a.
Arguments Err {A} e.

Definition bind {A B} (r : result A) (f : A -> result B) : result B :=
  match r with
  | Ok a => f a
  | Err e => Err e
  end.

Notation "x <- r ;; k" := (bind r (fun x => k))
  (at level 61, r at next level, right associativity).
Notation "' p <- r ;; k" := (bind r (fun x => let p := x in k))
  (at level 61, p pattern, r at next level, right associativity).

(* ================================================================== *)
(** ** [CalculatorEngine] (src/js/modules/CalculatorEngine.js) *)

(** An element of the [output] array: a number or an operator symbol. *)
Inductive item :=
| INum (x : float)
| ISym (s : jsstring).

(** The pair of arrays [output], [operators] of the conversion loop. *)
Definition state := (list item * list jsstring)%type.

Module Engine.

Record opdesc := {
  precedence : Z;
  operation : float -> float -> result float
}.

(** [this.operators[key]]: the table built by the constructor; [None] is
    [undefined].  The keys the program looks up are tokens and entries of
    the operator stack, which are number literals or single characters
    (never the name of an inherited property). *)
Definition operators (key : jsstring) : option opdesc :=
  if eqb key (lit "+") then
    Some {| precedence := 1; operation := fun a b => Ok (add a b) |}
  else if eqb key (lit "-") then
    Some {| precedence := 1; operation := fun a b => Ok (sub a b) |}
  else if eqb key (lit "*") then
    Some {| precedence := 2; operation := fun a b => Ok (mul a b) |}
  else if eqb key (lit "/") then
    Some {| precedence := 2;
            operation := fun a b =>
              if strict_eq b zero then Err DivisionByZero else Ok (div a b) |}
  else None.

(** Lines 82-84: pop operators into the output while the stack is not
    empty and its top is not ['(']. *)
Fixpoint pop_to_paren (out : list item) (ops : list jsstring) : state :=
  match ops with
  | top :: ops' =>
      if eqb top (lit "(") then (out, ops)
      else pop_to_paren (out ++ [ISym top]) ops'
  | [] => (out, [])
  end.

(** Lines 81-87: the [')'] branch. *)
Definition close_paren (out : list item) (ops : list jsstring)
  : result state :=
  let '(out', ops') := pop_to_paren out ops in
  match ops' with
  | top :: rest =>
      if eqb top (lit "(") then Ok (out', rest) else Err MismatchedParentheses
  | [] => Err MismatchedParentheses
  end.

(** Lines 91-97: pop operators into the output while the stack is not
    empty, its top is not ['('] and the top's precedence is at least the
    current operator's.  The last test reads [currentOperator.precedence],
    a [TypeError] when [currentOperator] is [undefined]. *)
Fixpoint pop_while_geq (currentOperator : option opdesc) (out : list item)
         (ops : list jsstring) : result state :=
  match ops with
  | top :: ops' =>
      if eqb top (lit "(") then Ok (out, ops)
      else
        match currentOperator with
        | None => Err TypeError
        | Some cur =>
            if match operators top with
               | Some d => (precedence cur <=? precedence d)%Z
               | None => false
               end
            then pop_while_geq currentOperator (out ++ [ISym top]) ops'
            else Ok (out, ops)
        end
  | [] => Ok (out, [])
  end.

(** Lines 74-99: the body of the loop over the tokens. *)
Definition step (st : state) (token : jsstring) : result state :=
  let '(out, ops) := st in
  if test_whole re_number token then
    Ok (out ++ [INum (parseFloat token)], ops)
  else if eqb token (lit "(") then
    Ok (out, token :: ops)
  else if eqb token (lit ")") then
    close_paren out ops
  else
    let currentOperator := operators token in
    ' (out', ops') <- pop_while_geq currentOperator out ops ;;
    Ok (out', token :: ops').

(** Line 73: [for (const token of tokens)]. *)
Fixpoint steps (st : state) (tokens : list jsstring) : result state :=
  match tokens with
  | [] => Ok st
  | token :: rest => st' <- step st token ;; steps st' rest
  end.

(** Lines 103-109: pop the remaining operators. *)
Fixpoint drain (out : list item) (ops : list jsstring) : result (list item) :=
  match ops with
  | [] => Ok out
  | operator :: ops' =>
      if eqb operator (lit "(") then Err MismatchedParentheses
      else drain (out ++ [ISym operator]) ops'
  end.

(** Line 71: [expression.match(/(\d*\.?\d+|[+\-*/()])/g) || []]. *)
Definition tokenize (expression : jsstring) : list jsstring :=
  match_all re_token expression.

Definition toRPN (expression : jsstring) : result (list item) :=
  let tokens := tokenize expression in
  ' (out, ops) <- steps ([], []) tokens ;;
  drain out ops.

(** Lines 125-141: the body of the loop over the postfix sequence. *)
Definition eval_step (stack : list float) (token : item)
  : result (list float) :=
  match token with
  | INum x => Ok (x :: stack)
  | ISym s =>
      match stack with
      | b :: a :: rest =>
          match operators s with
          | None => Err InvalidOperator
          | Some operator =>
              v <- operation operator a b ;; Ok (v :: rest)
          end
      | _ => Err InvalidExpression
      end
  end.

(** Line 124: [for (const token of rpn)]. *)
Fixpoint eval_loop (stack : list float) (rpn : list item)
  : result (list float) :=
  match rpn with
  | [] => Ok stack
  | token :: rest => stack' <- eval_step stack token ;; eval_loop stack' rest
  end.

(** Lines 121-149: the value left on the stack, before formatting. *)
Definition stack_result (rpn : list item) : result float :=
  stack <- eval_loop [] rpn ;;
  match stack with
  | [x] => Ok x
  | _ => Err InvalidExpression
  end.

Definition evaluateRPN (rpn : list item) : result float :=
  x <- stack_result rpn ;; Ok (formatResult x).

(** Line 44: [expression.replace(/\s+/g, '')]. *)
Definition strip (expression : jsstring) : jsstring :=
  replace_all re_spaces [] expression.

(** Lines 42-56. *)
Definition calculate (expression : jsstring) : result float :=
  let expression := strip expression in
  if negb (test_whole re_allowed expression) then Err InvalidCharacter
  else rpn <- toRPN expression ;; evaluateRPN rpn.

End Engine.

(* ================================================================== *)
(** ** [safeCalculate] and [calculateResult] (script.js) *)

Module Script.

(** The local table [precedence]. *)
Definition precedence (key : jsstring) : option Z :=
  if eqb key (lit "+") then Some 1%Z
  else if eqb key (lit "-") then Some 1%Z
  else if eqb key (lit "*") then Some 2%Z
  else if eqb key (lit "/") then Some 2%Z
  else None.

(** [x >= y] where either side may be [undefined]. *)
Definition geq (x y : option Z) : bool :=
  match x, y with
  | Some a, Some b => (b <=? a)%Z
  | _, _ => false
  end.

Fixpoint pop_to_paren (out : list item) (ops : list jsstring) : state :=
  match ops with
  | top :: ops' =>
      if eqb top (lit "(") then (out, ops)
      else pop_to_paren (out ++ [ISym top]) ops'
  | [] => (out, [])
  end.

Definition close_paren (out : list item) (ops : list jsstring)
  : result state :=
  let '(out', ops') := pop_to_paren out ops in
  match ops' with
  | top :: rest =>
      if eqb top (lit "(") then Ok (out', rest) else Err MismatchedParentheses
  | [] => Err MismatchedParentheses
  end.

Fixpoint pop_while_geq (token : jsstring) (out : list item)
         (ops : list jsstring) : state :=
  match ops with
  | top :: ops' =>
      if negb (eqb top (lit "(")) && geq (precedence top) (precedence token)
      then pop_while_geq token (out ++ [ISym top]) ops'
      else (out, ops)
  | [] => (out, [])
  end.

(** Lines 31-49. *)
Definition step (st : state) (token : jsstring) : result state :=
  let '(out, ops) := st in
  if test_whole re_number token then
    Ok (out ++ [INum (parseFloat token)], ops)
  else if eqb token (lit "(") then
    Ok (out, token :: ops)
  else if eqb token (lit ")") then
    close_paren out ops
  else
    let '(out', ops') := pop_while_geq token out ops in
    Ok (out', token :: ops').

Fixpoint steps (st : state) (tokens : list jsstring) : result state :=
  match tokens with
  | [] => Ok st
  | token :: rest => st' <- step st token ;; steps st' rest
  end.

(** Lines 52-58. *)
Fixpoint drain (out : list item) (ops : list jsstring) : result (list item) :=
  match ops with
  | [] => Ok out
  | operator :: ops' =>
      if eqb operator (lit "(") then Err MismatchedParentheses
      else drain (out ++ [ISym operator]) ops'
  end.

(** Lines 63-80; the [switch] has no default case. *)
Definition eval_step (stack : list float) (token : item)
  : result (list float) :=
  match token with
  | INum x => Ok (x :: stack)
  | ISym s =>
      match stack with
      | b :: a :: rest =>
          if eqb s (lit "+") then Ok (add a b :: rest)
          else if eqb s (lit "-") then Ok (sub a b :: rest)
          else if eqb s (lit "*") then Ok (mul a b :: rest)
          else if eqb s (lit "/") then
            if strict_eq b zero then Err DivisionByZero
            else Ok (div a b :: rest)
          else Ok rest
      | _ => Err InvalidExpression
      end
  end.

Fixpoint eval_loop (stack : list float) (output : list item)
  : result (list float) :=
  match output with
  | [] => Ok stack
  | token :: rest => stack' <- eval_step stack token ;; eval_loop stack' rest
  end.

Definition safeCalculate (expression : jsstring) : result float :=
  let expression := replace_all re_spaces [] expression in
  if negb (test_whole re_allowed expression) then Err InvalidCharacter
  else
    let tokens := match_all re_token expression in
    ' (out, ops) <- steps ([], []) tokens ;;
    output <- drain out ops ;;
    stack <- eval_loop [] output ;;
    match stack with
    | [x] => Ok x
    | _ => Err InvalidExpression
    end.

(** Lines 135-137 of [calculateResult]: [safeCalculate] followed by the
    formatting of its result. *)
Definition formattedResult (currentInput : jsstring) : result float :=
  result <- safeCalculate currentInput ;;
  Ok (formatResult result).

(** [calculateResult]: nothing happens on an empty input ([None]);
    otherwise the display shows the formatted result, or the message of
    the error that was thrown. *)
Definition calculateResult (currentInput : jsstring) : option (result float) :=
  match currentInput with
  | [] => None
  | _ => Some (formattedResult currentInput)
  end.

End Script.

(* ================================================================== *)
(** ** The page controller of script.js

    The globals [currentInput] and [lastResult] and the two properties of
    the display element the script writes: its [value] and whether it has
    the class ['error'].  (The global [memory] is read and written by the
    memory functions only, which are not part of this model.) *)

Module Page.

Record page := {
  currentInput : jsstring;
  lastResult : option float;
  display_value : jsstring;
  display_error : bool
}.

(** [list.includes(v)] on an array of strings. *)
Definition included (v : jsstring) (l : list jsstring) : bool :=
  existsb (eqb v) l.

Definition operators_and_parentheses : list jsstring :=
  [lit "+"; lit "-"; lit "*"; lit "/"; lit "("; lit ")"].

Definition operator_symbols : list jsstring :=
  [lit "+"; lit "-"; lit "*"; lit "/"].

(** [s.slice(-1)]: the last character, or the empty string. *)
Definition slice_last (s : jsstring) : jsstring :=
  match s with
  | [] => []
  | _ => [last s 0%N]
  end.

(** [s.slice(0, -1)]: all but the last character. *)
Definition slice_init (s : jsstring) : jsstring := removelast s.

(** Lines 91-116. *)
Definition appendValue (value : jsstring) (p : page) : page :=
  let p1 :=
    match lastResult p with
    | Some _ =>
        if negb (included value operators_and_parentheses) then
          {| currentInput := [];
             lastResult := None;
             display_value := display_value p;
             display_error := display_error p |}
        else p
    | None => p
    end in
  if eqb value (lit ".") && existsb is_dot (currentInput p1) then p1
  else
    let input :=
      if included value operator_symbols
         && included (slice_last (currentInput p1)) operator_symbols
      then slice_init (currentInput p1)
      else currentInput p1 in
    let input := input ++ value in
    {| currentInput := input;
       lastResult := lastResult p1;
       display_value := input;
       display_error := false |}.

(** Lines 118-122. *)
Definition clearDisplay (p : page) : page :=
  {| currentInput := [];
     lastResult := lastResult p;
     display_value := [];
     display_error := false |}.

(** Lines 124-128. *)
Definition backspace (p : page) : page :=
  let input := slice_init (currentInput p) in
  {| currentInput := input;
     lastResult := lastResult p;
     display_value := input;
     display_error := false |}.

(** [/r/.test(s)] for a pattern without anchors: a match may start at
    any position. *)
Fixpoint test_search (r : regex) (s : jsstring) : bool :=
  match match_here r s with
  | Some _ => true
  | None =>
      match s with
      | [] => false
      | _ :: s' => test_search r s'
      end
  end.

(** [[\d+\-*/.=]] and [[\d+\-*/.]] *)
Definition is_key_char (c : char) : bool :=
  is_digit c || is_operator c || is_dot c || (c =? ch "=")%N.

Definition is_input_char (c : char) : bool :=
  is_digit c || is_operator c || is_dot c.

Section WithNumberToString.

(** [Number.prototype.toString], which the model leaves open. *)
Variable numberToString : float -> jsstring.

(** Lines 130-147, on the outcome [Script.calculateResult] gives. *)
Definition calculateResult (p : page) : page :=
  match Script.calculateResult (currentInput p) with
  | None => p
  | Some (Ok formattedResult) =>
      {| currentInput := numberToString formattedResult;
         lastResult := Some formattedResult;
         display_value := numberToString formattedResult;
         display_error := false |}
  | Some (Err e) =>
      {| currentInput := [];
         lastResult := lastResult p;
         display_value := lit (message e);
         display_error := true |}
  end.

(** Lines 205-232: the [keydown] listener; the boolean tells whether
    [event.preventDefault()] was called. *)
Definition keydown (key : jsstring) (p : page) : bool * page :=
  let prevented :=
    test_search (Cls is_key_char) key
    || eqb key (lit "Enter") || eqb key (lit "Backspace")
    || eqb key (lit "Escape") in
  let p' :=
    if eqb key (lit "Enter") || eqb key (lit "=") then calculateResult p
    else if eqb key (lit "Escape") then clearDisplay p
    else if eqb key (lit "Backspace") then backspace p
    else if eqb key (lit "Delete") then clearDisplay p
    else if test_search (Cls is_input_char) key then appendValue key p
    else p in
  (prevented, p').

End WithNumberToString.

End Page.

(* ================================================================== *)
(** ** [Calculator] (src/js/modules/Calculator.js)

    The fields [currentInput] and [lastResult] and the display element
    behind [this.display], which [Display.initialize] guarantees to
    exist; the state is the record of the page controller. *)

Module Controller.

Import Page.

(** The calculator object with its display, and the number of callbacks
    that [Display.showError] has handed to [setTimeout] and that have not
    run yet. *)
Record calculator := {
  page_of : page;
  error_timeouts : nat
}.

Definition on_page (f : page -> page) (c : calculator) : calculator :=
  {| page_of := f (page_of c); error_timeouts := error_timeouts c |}.

(** [Display.update] (Display.js, lines 47-52) on a string. *)
Definition display_update (value : jsstring) (p : page) : page :=
  {| currentInput := currentInput p;
     lastResult := lastResult p;
     display_value := value;
     display_error := false |}.

(** [Display.clear] (Display.js, lines 59-64). *)
Definition display_clear (p : page) : page :=
  {| currentInput := currentInput p;
     lastResult := lastResult p;
     display_value := [];
     display_error := false |}.

(** [Display.showError] (Display.js, lines 83-92): the message is shown,
    the class is added, and one more callback waits for its two
    seconds. *)
Definition display_showError (msg : jsstring) (c : calculator) : calculator :=
  {| page_of :=
       {| currentInput := currentInput (page_of c);
          lastResult := lastResult (page_of c);
          display_value := msg;
          display_error := true |};
     error_timeouts := S (error_timeouts c) |}.

(** The callback of [showError] (Display.js, lines 88-90) when its time
    has come: it removes the class, whatever the display shows by then.
    Callbacks run between the calls, never inside one. *)
Definition timeout (c : calculator) : calculator :=
  match error_timeouts c with
  | O => c
  | S k =>
      {| page_of :=
           {| currentInput := currentInput (page_of c);
              lastResult := lastResult (page_of c);
              display_value := display_value (page_of c);
              display_error := false |};
         error_timeouts := k |}
  end.

Definition set_input (input : jsstring) (p : page) : page :=
  {| currentInput := input;
     lastResult := lastResult p;
     display_value := display_value p;
     display_error := display_error p |}.

Definition set_result (r : option float) (p : page) : page :=
  {| currentInput := currentInput p;
     lastResult := r;
     display_value := display_value p;
     display_error := display_error p |}.

(** Lines 112-131. *)
Definition appendValue (value : jsstring) : calculator -> calculator :=
  on_page (fun p =>
    let p1 :=
      match lastResult p with
      | Some _ =>
          if negb (included value operators_and_parentheses)
          then set_result None (set_input [] p)
          else p
      | None => p
      end in
    if eqb value (lit ".") && existsb is_dot (currentInput p1) then p1
    else
      let p2 :=
        if included value operator_symbols
           && included (slice_last (currentInput p1)) operator_symbols
        then set_input (slice_init (currentInput p1)) p1
        else p1 in
      let p3 := set_input (currentInput p2 ++ value) p2 in
      display_update (currentInput p3) p3).

(** Lines 138-142. *)
Definition clear : calculator -> calculator :=
  on_page (fun p => display_clear (set_result None (set_input [] p))).

(** Lines 149-152. *)
Definition backspace : calculator -> calculator :=
  on_page (fun p =>
    let p1 := set_input (slice_init (currentInput p)) p in
    display_update (currentInput p1) p1).

Section WithNumberToString.

Variable numberToString : float -> jsstring.

(** Lines 161-173. *)
Definition calculate (c : calculator) : calculator :=
  match currentInput (page_of c) with
  | [] => c
  | _ =>
      match Engine.calculate (currentInput (page_of c)) with
      | Ok result =>
          on_page (fun p =>
            let p1 := set_result (Some result) p in
            let p2 := set_input (numberToString result) p1 in
            display_update (numberToString result) p2) c
      | Err e =>
          on_page (set_input []) (display_showError (lit (message e)) c)
      end
  end.

End WithNumberToString.

End Controller.

(* ================================================================== *)
(** ** [formatInteger] (the earlier display module) *)

Module Format.

(** [s.slice(a, b)] for [0 <= a <= b]. *)
Definition slice (a b : nat) (s : jsstring) : jsstring :=
  firstn (b - a) (skipn a s).

(** [parts.join(',')] *)
Fixpoint join (parts : list jsstring) : jsstring :=
  match parts with
  | [] => []
  | [p] => p
  | p :: rest => p ++ ch "," :: join rest
  end.

(** The loop [for (let i = digits.length; i > 0; i -= 3)], [parts] being
    built from the right; [fuel] bounds the number of rounds. *)
Fixpoint group_loop (fuel : nat) (digits : jsstring) (i : Z)
         (parts : list jsstring) : list jsstring :=
  match fuel with
  | O => parts
  | S k =>
      if (0 <? i)%Z then
        group_loop k digits (i - 3)
                   (slice (Z.to_nat (Z.max 0 (i - 3))) (Z.to_nat i) digits
                    :: parts)
      else parts
  end.

(** The rounds never exceed the number of characters. *)
Definition formatInteger (integer : jsstring) : jsstring :=
  let isNegative :=
    match integer with
    | c :: _ => (c =? ch "-")%N
    | [] => false
    end in
  let digits := if isNegative then skipn 1 integer else integer in
  let parts :=
    group_loop (length digits) digits (Z.of_nat (length digits)) [] in
  (if isNegative then lit "-" else []) ++ join parts.

End Format.

(* ================================================================== *)
(** ** Specification-side definitions *)

Unset Implicit Arguments.

(** The language of a pattern, independently of the matching strategy. *)
Inductive matches : regex -> jsstring -> Prop :=
| M_cls p c : p c = true -> matches (Cls p) [c]
| M_cat r1 r2 s1 s2 :
    matches r1 s1 -> matches r2 s2 -> matches (Cat r1 r2) (s1 ++ s2)
| M_alt_l r1 r2 s : matches r1 s -> matches (Alt r1 r2) s
| M_alt_r r1 r2 s : matches r2 s -> matches (Alt r1 r2) s
| M_opt_none r : matches (Opt r) []
| M_opt_some r s : matches r s -> matches (Opt r) s
| M_star p s : forallb p s = true -> matches (Star p) s.

(** [in_order s toks]: the tokens are disjoint pieces of [s], from left to
    right, the characters between them being passed over. *)
Inductive in_order : jsstring -> list jsstring -> Prop :=
| IO_nil : in_order [] []
| IO_skip c s toks : in_order s toks -> in_order (c :: s) toks
| IO_token t s toks :
    t <> [] -> in_order s toks -> in_order (t ++ s) (t :: toks).

(** [longest t s]: of the pieces at the head of [t ++ s] that the token
    pattern matches, [t] is the longest. *)
Definition longest (t s : jsstring) : Prop :=
  forall t' s',
    t' ++ s' = t ++ s -> matches re_token t' -> length t' <= length t.

(** [starts_no_token s]: the token pattern matches no piece at the head
    of [s]. *)
Definition starts_no_token (s : jsstring) : Prop :=
  forall t s', t ++ s' = s -> ~ matches re_token t.

(** [split_by_pattern s toks]: [toks] is [s] cut from left to right, each
    token being the longest piece at the head of what is left that the
    token pattern matches, and a character being passed over only where
    the pattern matches no piece. *)
Inductive split_by_pattern : jsstring -> list jsstring -> Prop :=
| Split_end : split_by_pattern [] []
| Split_token t s toks :
    matches re_token t -> longest t s -> split_by_pattern s toks ->
    split_by_pattern (t ++ s) (t :: toks)
| Split_skip c s toks :
    starts_no_token (c :: s) -> split_by_pattern s toks ->
    split_by_pattern (c :: s) toks.

(** The pattern for numbers in the words of the specification: one or
    more digits, optionally followed by a decimal point and more digits. *)
Definition re_number_spec : regex :=
  Cat (Plus is_digit) (Opt (Cat (Cls is_dot) (Plus is_digit))).

(** A number literal as the program reads one: digits alone, or possibly
    no digits, a decimal point and at least one digit. *)
Definition is_literal (l : jsstring) : bool :=
  match drop_while is_digit l with
  | [] => match l with [] => false | _ => true end
  | c :: fs =>
      is_dot c && match fs with [] => false | _ => forallb is_digit fs end
  end.

(** The decimal value of a literal, rounded once to binary64. *)
Definition literal_value (l : jsstring) : float :=
  let ip := take_while is_digit l in
  let fp := match drop_while is_digit l with
            | _ :: fs => fs
            | [] => []
            end in
  of_decimal false (digits_value (ip ++ fp)) (length fp).

(** *** Infix expressions

    The grammar of arithmetic expressions with the usual precedence and
    left associativity:
    [expr ::= term | expr (+|-) term],
    [term ::= factor | term ( * | / ) factor],
    [factor ::= literal | ( expr )]. *)
Inductive addop := OAdd | OSub.
Inductive mulop := OMul | ODiv.

Inductive expr :=
| ETerm (t : term)
| EBin (e : expr) (o : addop) (t : term)
with term :=
| TFactor (f : factor)
| TBin (t : term) (o : mulop) (f : factor)
with factor :=
| FLit (l : jsstring)
| FParen (e : expr).

Scheme expr_mut := Induction for expr Sort Prop
  with term_mut := Induction for term Sort Prop
  with factor_mut := Induction for factor Sort Prop.
Combined Scheme syntax_mutind from expr_mut, term_mut, factor_mut.

Definition addop_symbol (o : addop) : jsstring :=
  match o with OAdd => lit "+" | OSub => lit "-" end.

Definition mulop_symbol (o : mulop) : jsstring :=
  match o with OMul => lit "*" | ODiv => lit "/" end.

(** Every literal of the expression is a number literal. *)
Fixpoint valid_expr (e : expr) : bool :=
  match e with
  | ETerm t => valid_term t
  | EBin e _ t => valid_expr e && valid_term t
  end
with valid_term (t : term) : bool :=
  match t with
  | TFactor f => valid_factor f
  | TBin t _ f => valid_term t && valid_factor f
  end
with valid_factor (f : factor) : bool :=
  match f with
  | FLit l => is_literal l
  | FParen e => valid_expr e
  end.

(** The text of an expression. *)
Fixpoint show_expr (e : expr) : jsstring :=
  match e with
  | ETerm t => show_term t
  | EBin e o t => show_expr e ++ addop_symbol o ++ show_term t
  end
with show_term (t : term) : jsstring :=
  match t with
  | TFactor f => show_factor f
  | TBin t o f => show_term t ++ mulop_symbol o ++ show_factor f
  end
with show_factor (f : factor) : jsstring :=
  match f with
  | FLit l => l
  | FParen e => lit "(" ++ show_expr e ++ lit ")"
  end.

(** Its tokens. *)
Fixpoint tokens_expr (e : expr) : list jsstring :=
  match e with
  | ETerm t => tokens_term t
  | EBin e o t => tokens_expr e ++ addop_symbol o :: tokens_term t
  end
with tokens_term (t : term) : list jsstring :=
  match t with
  | TFactor f => tokens_factor f
  | TBin t o f => tokens_term t ++ mulop_symbol o :: tokens_factor f
  end
with tokens_factor (f : factor) : list jsstring :=
  match f with
  | FLit l => [l]
  | FParen e => lit "(" :: tokens_expr e ++ [lit ")"]
  end.

(** Its postfix form. *)
Fixpoint postfix_expr (e : expr) : list item :=
  match e with
  | ETerm t => postfix_term t
  | EBin e o t => postfix_expr e ++ postfix_term t ++ [ISym (addop_symbol o)]
  end
with postfix_term (t : term) : list item :=
  match t with
  | TFactor f => postfix_factor f
  | TBin t o f => postfix_term t ++ postfix_factor f ++ [ISym (mulop_symbol o)]
  end
with postfix_factor (f : factor) : list item :=
  match f with
  | FLit l => [INum (literal_value l)]
  | FParen e => postfix_expr e
  end.

(** Its value in binary64 arithmetic: operands before operators, left
    operand first; [None] when a divisor is zero. *)
Definition apply_addop (o : addop) (a b : float) : float :=
  match o with OAdd => add a b | OSub => sub a b end.

Definition apply_mulop (o : mulop) (a b : float) : option float :=
  match o with
  | OMul => Some (mul a b)
  | ODiv => match b with S754_zero _ => None | _ => Some (div a b) end
  end.

Fixpoint value_expr (e : expr) : option float :=
  match e with
  | ETerm t => value_term t
  | EBin e o t =>
      match value_expr e, value_term t with
      | Some a, Some b => Some (apply_addop o a b)
      | _, _ => None
      end
  end
with value_term (t : term) : option float :=
  match t with
  | TFactor f => value_factor f
  | TBin t o f =>
      match value_term t, value_factor f with
      | Some a, Some b => apply_mulop o a b
      | _, _ => None
      end
  end
with value_factor (f : factor) : option float :=
  match f with
  | FLit l => Some (literal_value l)
  | FParen e => value_expr e
  end.

(** The part of [re_number] after [\d*]. *)
Definition re_fraction : regex := Cat (Opt (Cls is_dot)) (Plus is_digit).

Definition starts_with_digit (s : jsstring) : bool :=
  match s with
  | c :: _ => is_digit c
  | [] => false
  end.

(** [s] does not continue a number: it is empty or starts with neither a
    digit nor a point. *)
Definition ends_number (s : jsstring) : bool :=
  match s with
  | c :: _ => negb (is_digit c) && negb (is_dot c)
  | [] => true
  end.

(** The loop of lines 91-97 for a current operator that is in the table:
    the operators popped go to the output, the rest of the stack stays. *)
Fixpoint pop_geq (cur : Engine.opdesc) (out : list item) (ops : list jsstring)
  : state :=
  match ops with
  | top :: ops' =>
      if negb (eqb top (lit "("))
         && match Engine.operators top with
            | Some d => (Engine.precedence cur <=? Engine.precedence d)%Z
            | None => false
            end
      then pop_geq cur (out ++ [ISym top]) ops'
      else (out, ops)
  | [] => (out, [])
  end.

(** Shapes of the operator stack during the conversion of an expression:
    below the operators pushed for an expression there is nothing or a
    ['(']; below those pushed for a term there may also be an additive
    operator. *)
Definition is_addop_token (t : jsstring) : bool :=
  eqb t (lit "+") || eqb t (lit "-").

Definition is_mulop_token (t : jsstring) : bool :=
  eqb t (lit "*") || eqb t (lit "/").

Definition at_paren (ops : list jsstring) : bool :=
  match ops with
  | [] => true
  | top :: _ => eqb top (lit "(")
  end.

Definition at_paren_or_addop (ops : list jsstring) : bool :=
  match ops with
  | [] => true
  | top :: _ => eqb top (lit "(") || is_addop_token top
  end.

(** Counting the tokens and the items of each kind. *)
Definition is_number_token (t : jsstring) : bool := test_whole re_number t.

Definition is_operator_token (t : jsstring) : bool :=
  match t with
  | [c] => is_operator c
  | _ => false
  end.

Definition count_numbers (rpn : list item) : nat :=
  length (filter (fun i => match i with INum _ => true | ISym _ => false end) rpn).

Definition count_symbols (rpn : list item) : nat :=
  length (filter (fun i => match i with INum _ => false | ISym _ => true end) rpn).

(** What the conversion keeps in its two arrays: operator symbols in the
    output, operator symbols and ['('] on the stack. *)
Definition operator_item (i : item) : Prop :=
  match i with
  | INum _ => True
  | ISym s => is_operator_token s = true
  end.

Definition stack_entry (t : jsstring) : Prop :=
  t = lit "(" \/ is_operator_token t = true.

(** The normalisation of a result as the specification words it: an
    integer is returned as it is; another finite value [m * 2^e] is
    replaced by the binary64 value nearest to [n / 10^8], [n] being the
    integer nearest to [m * 2^e * 10^8]; infinities and NaN are left. *)
Definition normalise (x : float) : float :=
  if isInteger x then x
  else
    match x with
    | S754_finite s m e => of_decimal s (nearest_scaled 8 m e) 8
    | _ => x
    end.

(** The operator symbols waiting on the operator stack. *)
Definition count_pending (ops : list jsstring) : nat :=
  length (filter (fun t => negb (eqb t (lit "("))) ops).

Definition count_number_tokens (toks : list jsstring) : nat :=
  length (filter is_number_token toks).

Definition count_operator_tokens (toks : list jsstring) : nat :=
  length (filter is_operator_token toks).

(** The nesting depth of the parentheses of a text after [s], starting
    at depth [d]; [None] when a [')'] closes nothing. *)
Fixpoint char_depth (s : jsstring) (d : nat) : option nat :=
  match s with
  | [] => Some d
  | c :: r =>
      if (c =? ch "(")%N then char_depth r (S d)
      else if (c =? ch ")")%N then
        match d with
        | O => None
        | S d' => char_depth r d'
        end
      else char_depth r d
  end.

(** Every [')'] closes an earlier ['('] and every ['('] is closed. *)
Definition balanced (s : jsstring) : bool :=
  match char_depth s 0 with
  | Some O => true
  | _ => false
  end.

(** The same depth, read on a list of tokens. *)
Fixpoint paren_depth (toks : list jsstring) (d : nat) : option nat :=
  match toks with
  | [] => Some d
  | t :: r =>
      if eqb t (lit "(") then paren_depth r (S d)
      else if eqb t (lit ")") then
        match d with
        | O => None
        | S d' => paren_depth r d'
        end
      else paren_depth r d
  end.

(** The ['('] entries of the operator stack. *)
Definition count_open (ops : list jsstring) : nat :=
  length (filter (fun t => eqb t (lit "(")) ops).

(** [drops_points s toks]: the tokens are the pieces of [s] from left to
    right, and what lies between them is decimal points only, each
    followed by no digit. *)
Inductive drops_points : jsstring -> list jsstring -> Prop :=
| DP_nil : drops_points [] []
| DP_point c s toks :
    is_dot c = true -> starts_with_digit s = false ->
    drops_points s toks -> drops_points (c :: s) toks
| DP_token t s toks :
    t <> [] -> drops_points s toks -> drops_points (t ++ s) (t :: toks).

(** The text without the decimal points that no digit follows. *)
Fixpoint without_loose_points (s : jsstring) : jsstring :=
  match s with
  | [] => []
  | c :: r =>
      if is_dot c && negb (starts_with_digit r)
      then without_loose_points r
      else c :: without_loose_points r
  end.

(** The input with its white space removed, and whether it passes the
    validation of [calculate]: it is not empty and has allowed
    characters only. *)
Definition without_spaces (s : jsstring) : jsstring :=
  filter (fun c => negb (is_space c)) s.

Definition acceptable (s : jsstring) : bool :=
  match without_spaces s with
  | [] => false
  | clean => forallb is_allowed clean
  end.

(** *** Editing the input

    The keys that edit the input: a character button, the backspace
    button and the clear button. *)
Inductive edit :=
| Type_char (c : char)
| Backspace_key
| Clear_key.

Definition apply_edit (e : edit) (p : Page.page) : Page.page :=
  match e with
  | Type_char c => Page.appendValue [c] p
  | Backspace_key => Page.backspace p
  | Clear_key => Page.clearDisplay p
  end.

Definition apply_edits (es : list edit) (p : Page.page) : Page.page :=
  fold_left (fun q e => apply_edit e q) es p.

(** The input [appendValue] starts from: empty when a result is shown
    and the value is not an operator or a parenthesis. *)
Definition pending_input (value : jsstring) (p : Page.page) : jsstring :=
  match Page.lastResult p with
  | Some _ =>
      if Page.included value Page.operators_and_parentheses
      then Page.currentInput p else []
  | None => Page.currentInput p
  end.

Definition count_points (s : jsstring) : nat := length (filter is_dot s).

(** The text ends with an operator. *)
Definition ends_with_operator (s : jsstring) : bool :=
  match s with
  | [] => false
  | _ => is_operator (last s 0%N)
  end.

(** No two operators stand side by side. *)
Fixpoint no_operator_pair (s : jsstring) : bool :=
  match s with
  | [] => true
  | a :: r =>
      match r with
      | b :: _ => negb (is_operator a && is_operator b)
      | [] => true
      end && no_operator_pair r
  end.

(** *** The two controllers side by side

    What can happen to the page: a value is appended, the last character
    is removed, the result is asked for, or a callback of [showError]
    runs (script.js starts none for these calls). *)
Inductive action :=
| Append_value (value : jsstring)
| Remove_last
| Ask_result
| Timeout_runs.

Definition calculator_step (numberToString : float -> jsstring)
    (a : action) (c : Controller.calculator) : Controller.calculator :=
  match a with
  | Append_value v => Controller.appendValue v c
  | Remove_last => Controller.backspace c
  | Ask_result => Controller.calculate numberToString c
  | Timeout_runs => Controller.timeout c
  end.

Definition script_step (numberToString : float -> jsstring)
    (a : action) (p : Page.page) : Page.page :=
  match a with
  | Append_value v => Page.appendValue v p
  | Remove_last => Page.backspace p
  | Ask_result => Page.calculateResult numberToString p
  | Timeout_runs => p
  end.

Definition calculator_run (numberToString : float -> jsstring)
    (acts : list action) (c : Controller.calculator)
  : Controller.calculator :=
  fold_left (fun x a => calculator_step numberToString a x) acts c.

Definition script_run (numberToString : float -> jsstring)
    (acts : list action) (p : Page.page) : Page.page :=
  fold_left (fun x a => script_step numberToString a x) acts p.

(** The same input, last result and text on the display; the display of
    the first is marked as an error only if that of the second is. *)
Definition same_but_error_mark (q p : Page.page) : Prop :=
  Page.currentInput q = Page.currentInput p
  /\ Page.lastResult q = Page.lastResult p
  /\ Page.display_value q = Page.display_value p
  /\ (Page.display_error q = true -> Page.display_error p = true).

(** The callbacks a call of [calculate] adds: one when the evaluation of
    a non-empty input fails. *)
Definition timeouts_added (input : jsstring) : nat :=
  match input with
  | [] => 0
  | _ => match Engine.calculate input with Ok _ => 0 | Err _ => 1 end
  end.

(** The numbers of a postfix sequence, in its order. *)
Definition operands (rpn : list item) : list float :=
  flat_map (fun i => match i with INum x => [x] | ISym _ => [] end) rpn.

(** The keys the [keydown] listener has a case for. *)
Definition named_key (key : jsstring) : bool :=
  eqb key (lit "Enter") || eqb key (lit "=") || eqb key (lit "Escape")
  || eqb key (lit "Backspace") || eqb key (lit "Delete").

(** *** Thousands separators *)

Definition remove_commas (s : jsstring) : jsstring :=
  filter (fun c => negb (c =? ch ",")%N) s.

Definition minus_sign (s : jsstring) : jsstring :=
  match s with
  | c :: _ => if (c =? ch "-")%N then [c] else []
  | [] => []
  end.

(** A first group of one to three characters, then groups of three. *)
Definition grouped (parts : list jsstring) : Prop :=
  match parts with
  | [] => True
  | p :: rest =>
      1 <= length p <= 3 /\ Forall (fun q => length q = 3) rest
  end.

(* ================================================================== *)
(** ** Strings: basic facts *)

Section StrFacts.

Lemma eqb_eq s t : eqb s t = true <-> s = t.
Proof. unfold eqb. destruct (list_eq_dec N.eq_dec s t); split; congruence. Qed.

Lemma eqb_refl s : eqb s s = true.
Proof. now apply eqb_eq. Qed.

Lemma eqb_neq s t : eqb s t = false <-> s <> t.
Proof. unfold eqb. destruct (list_eq_dec N.eq_dec s t); split; congruence. Qed.

Lemma take_drop_while p s : take_while p s ++ drop_while p s = s.
Proof.
  induction s as [|c s IH]; simpl; [reflexivity|].
  destruct (p c); simpl; [now rewrite IH | reflexivity].
Qed.

Lemma take_while_all p s : forallb p (take_while p s) = true.
Proof.
  induction s as [|c s IH]; simpl; [reflexivity|].
  destruct (p c) eqn:E; simpl; [now rewrite E | reflexivity].
Qed.

Lemma drop_while_length p s : length (drop_while p s) <= length s.
Proof.
  induction s as [|c s IH]; simpl; [lia|].
  destruct (p c); simpl; lia.
Qed.

Lemma drop_while_head p s c r : drop_while p s = c :: r -> p c = false.
Proof.
  induction s as [|d s IH]; simpl; [discriminate|].
  destruct (p d) eqn:E; [exact IH|]. intros [= <- <-]. exact E.
Qed.

Lemma drop_while_stop p c s : p c = false -> drop_while p (c :: s) = c :: s.
Proof. intros H. simpl. now rewrite H. Qed.

Lemma drop_while_app p s r :
  forallb p s = true -> drop_while p (s ++ r) = drop_while p r.
Proof.
  induction s as [|c s IH]; simpl; [reflexivity|].
  intros H. apply andb_prop in H as [-> H]. auto.
Qed.

Lemma take_while_app p s r :
  forallb p s = true -> take_while p (s ++ r) = s ++ take_while p r.
Proof.
  induction s as [|c s IH]; simpl; [reflexivity|].
  intros H. apply andb_prop in H as [-> H]. now rewrite IH.
Qed.

End StrFacts.

(* ================================================================== *)
(** ** The matcher against the language of a pattern *)

Section RegexFacts.

Lemma star_run_sound A p s (k : jsstring -> option A) x :
  star_run p s k = Some x ->
  exists s1 s2, s = s1 ++ s2 /\ forallb p s1 = true /\ k s2 = Some x.
Proof.
  induction s as [|c s IH]; simpl; intros H.
  - now exists [], [].
  - destruct (p c) eqn:E.
    + destruct (star_run p s k) as [y|] eqn:R.
      * injection H as <-. destruct (IH eq_refl) as (s1 & s2 & -> & H1 & H2).
        exists (c :: s1), s2. simpl. now rewrite E, H1.
      * now exists [], (c :: s).
    + now exists [], (c :: s).
Qed.

Lemma run_sound A r : forall s (k : jsstring -> option A) x,
  run r s k = Some x ->
  exists s1 s2, s = s1 ++ s2 /\ matches r s1 /\ k s2 = Some x.
Proof.
  induction r as [p|r1 IH1 r2 IH2|r1 IH1 r2 IH2|r IH|p]; simpl; intros s k x H.
  - destruct s as [|c s]; [discriminate|].
    destruct (p c) eqn:E; [|discriminate].
    exists [c], s. repeat split; [now constructor | exact H].
  - apply IH1 in H as (s1 & s' & -> & M1 & H).
    apply IH2 in H as (s2 & s3 & -> & M2 & H).
    exists (s1 ++ s2), s3. rewrite <- app_assoc.
    repeat split; [now constructor | exact H].
  - destruct (run r1 s k) as [y|] eqn:R.
    + injection H as <-. apply IH1 in R as (s1 & s2 & -> & M & H).
      exists s1, s2. repeat split; [now apply M_alt_l | exact H].
    + apply IH2 in H as (s1 & s2 & -> & M & H).
      exists s1, s2. repeat split; [now apply M_alt_r | exact H].
  - destruct (run r s k) as [y|] eqn:R.
    + injection H as <-. apply IH in R as (s1 & s2 & -> & M & H).
      exists s1, s2. repeat split; [now apply M_opt_some | exact H].
    + exists [], s. repeat split; [apply M_opt_none | exact H].
  - apply star_run_sound in H as (s1 & s2 & -> & H1 & H2).
    exists s1, s2. repeat split; [now constructor | exact H2].
Qed.

Lemma star_run_complete A p s1 s2 (k : jsstring -> option A) x :
  forallb p s1 = true -> k s2 = Some x ->
  exists y, star_run p (s1 ++ s2) k = Some y.
Proof.
  induction s1 as [|c s1 IH]; simpl; intros H1 H2.
  - destruct s2 as [|c s2]; simpl; [eauto|].
    destruct (p c); [|eauto].
    destruct (star_run p s2 k); eauto.
  - apply andb_prop in H1 as [-> H1].
    destruct (IH H1 H2) as [y ->]. eauto.
Qed.

Lemma run_complete A r s1 : matches r s1 ->
  forall s2 (k : jsstring -> option A) x, k s2 = Some x ->
  exists y, run r (s1 ++ s2) k = Some y.
Proof.
  induction 1 as [p c Hc|r1 r2 s1 s2 _ IH1 _ IH2|r1 r2 s _ IH|r1 r2 s _ IH
                 |r|r s _ IH|p s Hs]; simpl; intros t k x Hk.
  - rewrite Hc. eauto.
  - rewrite <- app_assoc.
    destruct (IH2 t k x Hk) as [y Hy].
    exact (IH1 (s2 ++ t) _ y Hy).
  - destruct (IH t k x Hk) as [y ->]. eauto.
  - destruct (run r1 (s ++ t) k); eauto.
  - destruct (run r t k); eauto.
  - destruct (IH t k x Hk) as [y ->]. eauto.
  - eapply star_run_complete; eauto.
Qed.

(** [test] decides membership in the language. *)
Lemma test_whole_matches r s : test_whole r s = true <-> matches r s.
Proof.
  unfold test_whole. split.
  - destruct (run r s _) as [u|] eqn:R; [intros _|discriminate].
    apply run_sound in R as (s1 & s2 & -> & M & H).
    destruct s2; [|discriminate]. now rewrite app_nil_r.
  - intros M.
    destruct (run_complete unit r s M [] (fun rest => match rest with [] => Some tt | _ => None end) tt eq_refl)
      as [y Hy].
    rewrite app_nil_r in Hy. now rewrite Hy.
Qed.

Lemma match_here_sound r s tok rest :
  match_here r s = Some (tok, rest) -> s = tok ++ rest /\ matches r tok.
Proof.
  unfold match_here.
  destruct (run r s _) as [x|] eqn:R; [|discriminate].
  apply run_sound in R as (s1 & s2 & -> & M & [= <-]).
  intros [= <- <-].
  replace (length (s1 ++ s2) - length s2) with (length s1 + 0)
    by (rewrite length_app; lia).
  rewrite firstn_app_2. simpl. rewrite app_nil_r. now split.
Qed.

Lemma match_here_complete r s1 s2 :
  matches r s1 -> exists tok rest, match_here r (s1 ++ s2) = Some (tok, rest).
Proof.
  intros M. unfold match_here.
  destruct (run_complete _ r s1 M s2 (fun rest => Some rest) s2 eq_refl)
    as [y ->]. eauto.
Qed.

(** The characters of a match are passed once the match is emitted. *)
Lemma match_all_from_skip r tok rest :
  match_all_from r (tok ++ rest) (length tok) = match_all_from r rest 0.
Proof.
  induction tok as [|c tok IH]; simpl; [|exact IH].
  destruct rest; reflexivity.
Qed.

Lemma replace_all_from_skip r by_ tok rest :
  replace_all_from r by_ (tok ++ rest) (length tok)
  = replace_all_from r by_ rest 0.
Proof.
  induction tok as [|c tok IH]; simpl; [|exact IH].
  destruct rest; reflexivity.
Qed.

Lemma match_all_nil r : match_all r [] = [].
Proof. reflexivity. Qed.

Lemma match_all_hit r s tok rest :
  match_here r s = Some (tok, rest) -> tok <> [] ->
  match_all r s = tok :: match_all r rest.
Proof.
  intros H Hne. pose proof (match_here_sound _ _ _ _ H) as [-> _].
  destruct tok as [|c tok]; [contradiction|].
  unfold match_all. simpl app. cbn [match_all_from].
  change (c :: tok ++ rest) with ((c :: tok) ++ rest). rewrite H.
  replace (length (c :: tok) - 1) with (length tok) by (simpl; lia).
  now rewrite match_all_from_skip.
Qed.

Lemma match_all_miss r c s :
  match_here r (c :: s) = None -> match_all r (c :: s) = match_all r s.
Proof. intros H. unfold match_all. cbn [match_all_from]. now rewrite H. Qed.

Lemma replace_all_hit r by_ s tok rest :
  match_here r s = Some (tok, rest) -> tok <> [] ->
  replace_all r by_ s = by_ ++ replace_all r by_ rest.
Proof.
  intros H Hne. pose proof (match_here_sound _ _ _ _ H) as [-> _].
  destruct tok as [|c tok]; [contradiction|].
  unfold replace_all. simpl app. cbn [replace_all_from].
  change (c :: tok ++ rest) with ((c :: tok) ++ rest). rewrite H.
  replace (length (c :: tok) - 1) with (length tok) by (simpl; lia).
  now rewrite replace_all_from_skip.
Qed.

Lemma replace_all_miss r by_ c s :
  match_here r (c :: s) = None ->
  replace_all r by_ (c :: s) = c :: replace_all r by_ s.
Proof. intros H. unfold replace_all. cbn [replace_all_from]. now rewrite H. Qed.

End RegexFacts.

(* ================================================================== *)
(** ** Whitespace removal and character validation *)

Section Sanitize.

Lemma star_run_greedy p s :
  star_run p s (fun rest => Some rest) = Some (drop_while p s).
Proof.
  induction s as [|c s IH]; simpl; [reflexivity|].
  destruct (p c); [now rewrite IH | reflexivity].
Qed.

Lemma firstn_prefix (s a b : jsstring) :
  s = a ++ b -> firstn (length s - length b) s = a.
Proof.
  intros ->. replace (length (a ++ b) - length b) with (length a + 0)
    by (rewrite length_app; lia).
  rewrite firstn_app_2. simpl. apply app_nil_r.
Qed.

Lemma match_here_plus p c s :
  match_here (Plus p) (c :: s)
  = if p c then Some (c :: take_while p s, drop_while p s) else None.
Proof.
  unfold match_here. simpl run. destruct (p c); [|reflexivity].
  rewrite star_run_greedy. f_equal. f_equal.
  apply firstn_prefix. simpl. now rewrite take_drop_while.
Qed.

Lemma filter_take_while_neg p s :
  filter (fun c => negb (p c)) (take_while p s) = [].
Proof.
  induction s as [|c s IH]; simpl; [reflexivity|].
  destruct (p c) eqn:E; simpl; [now rewrite E | reflexivity].
Qed.

(** Replacing every run of white space by the empty string removes
    exactly the white space characters. *)
Lemma strip_filter s :
  Engine.strip s = filter (fun c => negb (is_space c)) s.
Proof.
  unfold Engine.strip, re_spaces.
  remember (length s) as n eqn:Hn.
  revert s Hn. induction n as [n IH] using lt_wf_ind. intros s Hn.
  destruct s as [|c s]; [reflexivity|].
  pose proof (match_here_plus is_space c s) as H.
  destruct (is_space c) eqn:E.
  - rewrite (replace_all_hit _ [] _ _ _ H) by discriminate.
    simpl. rewrite E. simpl.
    rewrite (IH (length (drop_while is_space s))); [|simpl in Hn|reflexivity].
    + rewrite <- (take_drop_while is_space s) at 2.
      now rewrite filter_app, filter_take_while_neg.
    + pose proof (drop_while_length is_space s). lia.
  - rewrite (replace_all_miss _ [] _ _ H). simpl. rewrite E. simpl. f_equal.
    apply (IH (length s)); [simpl in Hn; lia | reflexivity].
Qed.

Lemma matches_plus p s :
  matches (Plus p) s <-> s <> [] /\ forallb p s = true.
Proof.
  unfold Plus. split.
  - intros M. inversion M as [|r1 r2 s1 s2 M1 M2| | | | |]; subst.
    inversion M1; subst. inversion M2; subst. simpl.
    split; [discriminate|]. now apply andb_true_intro.
  - intros [Hne H]. destruct s as [|c s]; [contradiction|].
    simpl in H. apply andb_prop in H as [Hc Hs].
    change (c :: s) with ([c] ++ s). constructor; now constructor.
Qed.

(** [/^[0-9+\-*/.()]+$/.test(s)] *)
Lemma test_allowed s :
  test_whole re_allowed s = true <-> s <> [] /\ forallb is_allowed s = true.
Proof. unfold re_allowed. rewrite test_whole_matches. apply matches_plus. Qed.

Lemma calculate_invalid s :
  test_whole re_allowed (Engine.strip s) = false ->
  Engine.calculate s = Err InvalidCharacter.
Proof. intros H. unfold Engine.calculate. now rewrite H. Qed.

Lemma calculate_valid s :
  test_whole re_allowed (Engine.strip s) = true ->
  Engine.calculate s
  = (rpn <- Engine.toRPN (Engine.strip s) ;; Engine.evaluateRPN rpn).
Proof. intros H. unfold Engine.calculate. now rewrite H. Qed.

End Sanitize.

(* ================================================================== *)
(** ** Character validation (claims C6, C9) *)

(** C6. Whenever some character of the input is neither white space nor
    one of the allowed characters [0-9 . + - * / ( )], [calculate] fails
    with [InvalidCharacter], whatever the rest of the input is; in
    particular ["2&3"] does. *)
Theorem invalid_character_rejected :
  (forall s c,
      In c s -> is_space c = false -> is_allowed c = false ->
      Engine.calculate s = Err InvalidCharacter)
  /\ Engine.calculate (lit "2&3") = Err InvalidCharacter.
Proof.
  split; [|reflexivity].
  intros s c Hin Hsp Hal. apply calculate_invalid.
  destruct (test_whole re_allowed (Engine.strip s)) eqn:T; [|reflexivity].
  apply test_allowed in T as [_ T].
  rewrite forallb_forall in T.
  rewrite <- Hal. symmetry. apply T. rewrite strip_filter. apply filter_In.
  now rewrite Hsp.
Qed.

Lemma invalid_character_rejected_witness :
  Engine.calculate (lit "2 & 3") = Err InvalidCharacter.
Proof.
  apply (proj1 invalid_character_rejected (lit "2 & 3") (ch "&"));
    vm_compute; auto.
Defined.

(** C9. The empty input and every input made of white space only fail
    with [InvalidCharacter], whose message is 'Invalid characters in
    expression', and not with [InvalidExpression]: the validation pattern
    asks for at least one allowed character. *)
Theorem blank_input_invalid_character :
  (forall s, forallb is_space s = true ->
             Engine.calculate s = Err InvalidCharacter
             /\ Engine.calculate s <> Err InvalidExpression)
  /\ Engine.calculate [] = Err InvalidCharacter
  /\ message InvalidCharacter = "Invalid characters in expression"%string.
Proof.
  split; [|split; reflexivity].
  intros s Hs.
  assert (E : Engine.calculate s = Err InvalidCharacter).
  { apply calculate_invalid. rewrite strip_filter.
    assert (F : filter (fun c => negb (is_space c)) s = []).
    { induction s as [|c s IH]; simpl; [reflexivity|].
      simpl in Hs. apply andb_prop in Hs as [-> Hs]. simpl. auto. }
    now rewrite F. }
  rewrite E. split; [reflexivity | discriminate].
Qed.

Lemma blank_input_invalid_character_witness :
  Engine.calculate (lit "   ") = Err InvalidCharacter
  /\ Engine.calculate (lit "   ") <> Err InvalidExpression.
Proof.
  apply (proj1 blank_input_invalid_character (lit "   ")). reflexivity.
Defined.

(* ================================================================== *)
(** ** Postfix evaluation (claims C3, C4) *)

Section Evaluation.

Lemma strict_eq_zero b :
  strict_eq b zero = true <-> exists s, b = S754_zero s.
Proof.
  unfold strict_eq, zero, SFeqb. split.
  - destruct b as [s|s| |s m e]; simpl; try discriminate; eauto.
    + destruct s; discriminate.
    + destruct s; discriminate.
  - intros [s ->]. reflexivity.
Qed.

Lemma strict_eq_zero_false b :
  strict_eq b zero = false <-> forall s, b <> S754_zero s.
Proof.
  split.
  - intros H s ->. discriminate.
  - intros H. destruct (strict_eq b zero) eqn:E; [|reflexivity].
    apply strict_eq_zero in E as [s ->]. now destruct (H s).
Qed.

Lemma eval_loop_app st p q :
  Engine.eval_loop st (p ++ q)
  = (st' <- Engine.eval_loop st p ;; Engine.eval_loop st' q).
Proof.
  revert st. induction p as [|t p IH]; intros st; simpl; [reflexivity|].
  destruct (Engine.eval_step st t); simpl; [apply IH | reflexivity].
Qed.

Lemma eval_step_div a b st :
  Engine.eval_step (b :: a :: st) (ISym (lit "/"))
  = match b with
    | S754_zero _ => Err DivisionByZero
    | _ => Ok (div a b :: st)
    end.
Proof.
  cbn. destruct b as [s|s| |s m e]; try reflexivity; destruct s; reflexivity.
Qed.

End Evaluation.

(** C3. When the postfix evaluation reaches a ['/'] with a divisor (the
    value pushed last) that is zero, of either sign, the evaluation fails
    with [DivisionByZero] whatever the dividend and the rest of the
    sequence are; the test is for zero exactly: every other divisor is
    divided by.  In particular ["5/0"] fails with [DivisionByZero]. *)
Theorem division_by_zero :
  (forall pre rest sign a st,
      Engine.eval_loop [] pre = Ok (S754_zero sign :: a :: st) ->
      Engine.evaluateRPN (pre ++ ISym (lit "/") :: rest) = Err DivisionByZero)
  /\ (forall a b st,
         Engine.eval_step (b :: a :: st) (ISym (lit "/"))
         = match b with
           | S754_zero _ => Err DivisionByZero
           | _ => Ok (div a b :: st)
           end)
  /\ (forall b, strict_eq b zero = true <-> exists sign, b = S754_zero sign)
  /\ Engine.calculate (lit "5/0") = Err DivisionByZero
  /\ Engine.calculate (lit "0/0") = Err DivisionByZero
  /\ Engine.calculate (lit "5/(0*(0-1))") = Err DivisionByZero
  /\ Engine.calculate (lit "1/0.00000000000000000001")
     = Ok (parseFloat (lit "100000000000000000000")).
Proof.
  split; [|split; [|split; [|repeat split; vm_compute; reflexivity]]].
  - intros pre rest sign a st H.
    unfold Engine.evaluateRPN, Engine.stack_result.
    rewrite eval_loop_app, H. cbn [bind Engine.eval_loop].
    now rewrite eval_step_div.
  - apply eval_step_div.
  - apply strict_eq_zero.
Qed.

Lemma division_by_zero_witness :
  Engine.evaluateRPN
    ([INum (parseFloat (lit "7")); INum (S754_zero true)]
       ++ ISym (lit "/") :: [INum (parseFloat (lit "1")); ISym (lit "+")])
  = Err DivisionByZero.
Proof.
  apply (proj1 division_by_zero _ _ true (parseFloat (lit "7")) []).
  reflexivity.
Defined.

(** C4. An operator token takes the top of the stack as its right operand
    [b] and the value below as its left operand [a], and pushes
    [operation a b]; with fewer than two values on the stack it fails with
    [InvalidExpression].  When the sequence is consumed, the evaluation
    succeeds only if exactly one value is left, and fails with
    [InvalidExpression] otherwise.  In particular ["2++2"], a bare
    operator and two numbers without an operator are rejected. *)
Theorem postfix_stack_discipline :
  (forall s st, length st < 2 ->
                Engine.eval_step st (ISym s) = Err InvalidExpression)
  /\ (forall a b st,
         Engine.eval_step (b :: a :: st) (ISym (lit "+")) = Ok (add a b :: st)
         /\ Engine.eval_step (b :: a :: st) (ISym (lit "-")) = Ok (sub a b :: st)
         /\ Engine.eval_step (b :: a :: st) (ISym (lit "*")) = Ok (mul a b :: st)
         /\ Engine.eval_step (b :: a :: st) (ISym (lit "/"))
            = (if strict_eq b zero then Err DivisionByZero
               else Ok (div a b :: st)))
  /\ (forall rpn st, Engine.eval_loop [] rpn = Ok st -> length st <> 1 ->
                     Engine.evaluateRPN rpn = Err InvalidExpression)
  /\ (forall rpn v, Engine.evaluateRPN rpn = Ok v ->
                    exists x, Engine.eval_loop [] rpn = Ok [x]
                              /\ v = formatResult x)
  /\ Engine.calculate (lit "2++2") = Err InvalidExpression
  /\ Engine.calculate (lit "+") = Err InvalidExpression
  /\ Engine.calculate (lit "(2)(3)") = Err InvalidExpression
  /\ Engine.calculate (lit "8-2") = Ok (parseFloat (lit "6")).
Proof.
  split; [|split; [|split; [|split; [|repeat split; vm_compute; reflexivity]]]].
  - intros s st H. destruct st as [|b [|a st]]; simpl in *; try reflexivity; lia.
  - intros a b st. repeat split; try reflexivity.
    rewrite eval_step_div. destruct b as [[]|[]| |[] m e]; reflexivity.
  - intros rpn st H Hlen. unfold Engine.evaluateRPN, Engine.stack_result.
    rewrite H. simpl. destruct st as [|x [|y st]]; simpl in *;
      try reflexivity. lia.
  - intros rpn v. unfold Engine.evaluateRPN, Engine.stack_result.
    destruct (Engine.eval_loop [] rpn) as [st|e]; simpl; [|discriminate].
    destruct st as [|x [|y st]]; simpl; try discriminate.
    intros [= <-]. eauto.
Qed.

Lemma postfix_stack_discipline_witness :
  Engine.eval_step [parseFloat (lit "1")] (ISym (lit "-"))
  = Err InvalidExpression
  /\ Engine.evaluateRPN [INum (parseFloat (lit "2")); INum (parseFloat (lit "3"))]
     = Err InvalidExpression
  /\ exists x,
      Engine.eval_loop []
        [INum (parseFloat (lit "8")); INum (parseFloat (lit "2")); ISym (lit "-")]
      = Ok [x] /\ parseFloat (lit "6") = formatResult x.
Proof.
  destruct postfix_stack_discipline as (H1 & _ & H3 & H4 & _).
  split; [|split].
  - apply H1. simpl. lia.
  - apply (H3 _ [parseFloat (lit "3"); parseFloat (lit "2")]).
    + reflexivity.
    + simpl. lia.
  - apply H4. vm_compute. reflexivity.
Defined.

(* ================================================================== *)
(** ** Tokenisation *)

Section Tokens.

Lemma op_or_paren_cases c :
  is_op_or_paren c = true ->
  c = ch "+" \/ c = ch "-" \/ c = ch "*" \/ c = ch "/"
  \/ c = ch "(" \/ c = ch ")".
Proof.
  unfold is_op_or_paren. rewrite !orb_true_iff, !N.eqb_eq. tauto.
Qed.

Lemma operator_cases c :
  is_operator c = true ->
  c = ch "+" \/ c = ch "-" \/ c = ch "*" \/ c = ch "/".
Proof.
  unfold is_operator. rewrite !orb_true_iff, !N.eqb_eq. tauto.
Qed.

Lemma op_not_digit c : is_op_or_paren c = true -> is_digit c = false.
Proof.
  intros H. apply op_or_paren_cases in H.
  repeat destruct H as [H|H]; subst; reflexivity.
Qed.

Lemma op_not_dot c : is_op_or_paren c = true -> is_dot c = false.
Proof.
  intros H. apply op_or_paren_cases in H.
  repeat destruct H as [H|H]; subst; reflexivity.
Qed.

Lemma digit_not_dot c : is_digit c = true -> is_dot c = false.
Proof.
  unfold is_digit, is_dot. intros H. apply N.eqb_neq. intros ->.
  vm_compute in H. discriminate.
Qed.

Lemma digit_not_op c : is_digit c = true -> is_op_or_paren c = false.
Proof.
  intros H. destruct (is_op_or_paren c) eqn:E; [|reflexivity].
  apply op_not_digit in E. congruence.
Qed.

Lemma run_fraction_digit c s :
  is_digit c = true ->
  run re_fraction (c :: s) (fun rest => Some rest)
  = Some (drop_while is_digit s).
Proof.
  intros H. unfold re_fraction. simpl.
  rewrite (digit_not_dot _ H), H. apply star_run_greedy.
Qed.

Lemma run_fraction_other s :
  starts_with_digit s = false ->
  run re_fraction s (fun rest => Some rest)
  = match s with
    | c :: d :: r =>
        if is_dot c && is_digit d then Some (drop_while is_digit r) else None
    | _ => None
    end.
Proof.
  unfold re_fraction. destruct s as [|c s]; simpl; [reflexivity|].
  intros H. rewrite H. destruct (is_dot c); simpl.
  - destruct s as [|d r]; [reflexivity|].
    destruct (is_digit d); [now rewrite star_run_greedy | reflexivity].
  - now destruct s as [|d r].
Qed.

(** A greedy run gives characters back one at a time; here the
    continuation accepts as soon as one is given back. *)
Lemma star_run_backtrack p (k : jsstring -> option jsstring) s :
  (forall c s', p c = true -> k (c :: s') = Some (drop_while p s')) ->
  star_run p s k
  = match k (drop_while p s) with
    | Some x => Some x
    | None =>
        match s with
        | c :: _ => if p c then Some (drop_while p s) else None
        | [] => None
        end
    end.
Proof.
  intros Hk. induction s as [|c s IH]; simpl.
  - now destruct (k []).
  - destruct (p c) eqn:E.
    + rewrite IH. destruct (k (drop_while p s)) as [x|]; [reflexivity|].
      destruct s as [|d s]; [now apply Hk|].
      destruct (p d) eqn:E'; [reflexivity|]. now apply Hk.
    + now destruct (k (c :: s)).
Qed.

Lemma run_number s :
  run re_number s (fun rest => Some rest)
  = match run re_fraction (drop_while is_digit s) (fun rest => Some rest) with
    | Some x => Some x
    | None =>
        if starts_with_digit s then Some (drop_while is_digit s) else None
    end.
Proof.
  change (run re_number s (fun rest => Some rest))
    with (star_run is_digit s
            (fun s' => run re_fraction s' (fun rest : jsstring => Some rest))).
  rewrite star_run_backtrack.
  - destruct (run re_fraction (drop_while is_digit s) (fun rest => Some rest));
      [reflexivity|]. now destruct s.
  - intros c s' H. now apply run_fraction_digit.
Qed.

Lemma drop_while_not_digit s :
  starts_with_digit (drop_while is_digit s) = false.
Proof.
  destruct (drop_while is_digit s) as [|c r] eqn:E; [reflexivity|].
  simpl. eapply drop_while_head; eauto.
Qed.

Lemma ends_number_drop s : ends_number s = true -> drop_while is_digit s = s.
Proof.
  destruct s as [|c s]; simpl; [reflexivity|].
  intros H. apply andb_prop in H as [H _].
  now destruct (is_digit c).
Qed.

Lemma ends_number_fraction s :
  ends_number s = true ->
  run re_fraction s (fun rest => Some rest) = None.
Proof.
  intros H. rewrite run_fraction_other.
  - destruct s as [|c [|d r]]; try reflexivity.
    simpl in H. apply andb_prop in H as [_ H].
    now destruct (is_dot c).
  - destruct s as [|c s]; [reflexivity|]. simpl in *.
    apply andb_prop in H as [H _]. now destruct (is_digit c).
Qed.

(** The two shapes of a literal. *)
Lemma is_literal_cases l :
  is_literal l = true ->
  (l <> [] /\ forallb is_digit l = true)
  \/ exists ds c d fs,
      l = ds ++ c :: d :: fs /\ forallb is_digit ds = true
      /\ is_dot c = true /\ forallb is_digit (d :: fs) = true.
Proof.
  unfold is_literal. intros H.
  pose proof (take_drop_while is_digit l) as E.
  pose proof (take_while_all is_digit l) as A.
  destruct (drop_while is_digit l) as [|c fs].
  - left. rewrite app_nil_r in E. rewrite <- E at 2.
    split; [|exact A]. now destruct l.
  - right. apply andb_prop in H as [Hc Hf].
    destruct fs as [|d fs]; [discriminate|].
    exists (take_while is_digit l), c, d, fs. now rewrite E.
Qed.

Lemma is_literal_digits l :
  l <> [] -> forallb is_digit l = true -> is_literal l = true.
Proof.
  intros Hne H. unfold is_literal.
  rewrite <- (app_nil_r l) at 1. rewrite drop_while_app by exact H.
  simpl. now destruct l.
Qed.

Lemma is_literal_point ds c d fs :
  forallb is_digit ds = true -> is_dot c = true ->
  forallb is_digit (d :: fs) = true ->
  is_literal (ds ++ c :: d :: fs) = true.
Proof.
  intros Hd Hc Hf. unfold is_literal.
  rewrite drop_while_app by exact Hd.
  assert (Hn : is_digit c = false).
  { destruct (is_digit c) eqn:E; [|reflexivity].
    apply digit_not_dot in E. congruence. }
  rewrite drop_while_stop by exact Hn. now rewrite Hc.
Qed.

Lemma matches_star p s : matches (Star p) s <-> forallb p s = true.
Proof. split; [now inversion 1 | now constructor]. Qed.

(** [is_literal] decides the language of [\d*\.?\d+]. *)
Lemma literal_matches l : is_literal l = true <-> matches re_number l.
Proof.
  split.
  - intros H. apply is_literal_cases in H
      as [[Hne H]|(ds & c & d & fs & -> & Hd & Hc & Hf)].
    + change l with ([] ++ ([] ++ l)). unfold re_number.
      constructor; [now constructor|]. constructor; [constructor|].
      now apply matches_plus.
    + unfold re_number. constructor; [now constructor|].
      change (c :: d :: fs) with ([c] ++ d :: fs).
      constructor; [constructor; now constructor|].
      apply matches_plus. split; [discriminate | exact Hf].
  - unfold re_number. intros M.
    inversion M as [|r1 r2 s1 s2 M1 M2| | | | |]; subst.
    inversion M2 as [|r1 r2 s3 s4 M3 M4| | | | |]; subst.
    apply matches_star in M1. apply matches_plus in M4 as [Hne H4].
    destruct s4 as [|d fs]; [contradiction|].
    inversion M3 as [| | | | |r s M5|]; subst.
    + simpl. apply is_literal_digits.
      * destruct s1; discriminate.
      * now rewrite forallb_app, M1, H4.
    + inversion M5; subst. simpl. now apply is_literal_point.
Qed.

Lemma test_number l : test_whole re_number l = is_literal l.
Proof.
  destruct (is_literal l) eqn:E.
  - now apply test_whole_matches, literal_matches.
  - destruct (test_whole re_number l) eqn:T; [|reflexivity].
    apply test_whole_matches, literal_matches in T. congruence.
Qed.

Lemma literal_not_nil l : is_literal l = true -> l <> [].
Proof. intros H ->. discriminate. Qed.

Lemma literal_chars l c :
  is_literal l = true -> In c l -> is_digit c = true \/ is_dot c = true.
Proof.
  intros H Hin. apply is_literal_cases in H
    as [[_ H]|(ds & p & d & fs & -> & Hd & Hc & Hf)].
  - left. rewrite forallb_forall in H. auto.
  - rewrite forallb_forall in Hd, Hf.
    apply in_app_or in Hin as [Hin|[<-|Hin]]; auto.
Qed.

Lemma op_not_literal c : is_op_or_paren c = true -> is_literal [c] = false.
Proof.
  intros H. destruct (is_literal [c]) eqn:E; [|reflexivity].
  destruct (literal_chars [c] c E (or_introl eq_refl)) as [D|D].
  - apply digit_not_op in D. congruence.
  - apply op_not_dot in H. congruence.
Qed.

(** What the token pattern matches at the head of the input. *)
Lemma run_token s :
  run re_token s (fun rest => Some rest)
  = match run re_number s (fun rest => Some rest) with
    | Some x => Some x
    | None =>
        match s with
        | c :: s' => if is_op_or_paren c then Some s' else None
        | [] => None
        end
    end.
Proof. reflexivity. Qed.

Lemma run_number_other c s :
  is_digit c = false -> is_dot c = false ->
  run re_number (c :: s) (fun rest => Some rest) = None.
Proof.
  intros Hd Hp. rewrite run_number.
  rewrite drop_while_stop by exact Hd.
  rewrite run_fraction_other by exact Hd.
  rewrite Hp. simpl. rewrite Hd. now destruct s.
Qed.

Lemma match_token_symbol c s :
  is_op_or_paren c = true -> match_here re_token (c :: s) = Some ([c], s).
Proof.
  intros H. unfold match_here. rewrite run_token.
  rewrite run_number_other by (now apply op_not_digit || now apply op_not_dot).
  rewrite H. f_equal. f_equal. now apply firstn_prefix.
Qed.

Lemma match_token_literal l rest :
  is_literal l = true -> ends_number rest = true ->
  match_here re_token (l ++ rest) = Some (l, rest).
Proof.
  intros Hl Hr. unfold match_here. rewrite run_token, run_number.
  apply is_literal_cases in Hl
    as [[Hne H]|(ds & c & d & fs & -> & Hd & Hc & Hf)].
  - rewrite drop_while_app by exact H.
    rewrite ends_number_drop by exact Hr.
    rewrite ends_number_fraction by exact Hr.
    assert (S : starts_with_digit (l ++ rest) = true).
    { destruct l as [|a l]; [contradiction|]. simpl in *.
      now apply andb_prop in H as [-> _]. }
    rewrite S. f_equal. f_equal. now apply firstn_prefix.
  - rewrite <- app_assoc. rewrite drop_while_app by exact Hd.
    assert (Hn : is_digit c = false).
    { destruct (is_digit c) eqn:E; [|reflexivity].
      apply digit_not_dot in E. congruence. }
    simpl app. rewrite drop_while_stop by exact Hn.
    rewrite run_fraction_other by (simpl; exact Hn).
    simpl in Hf. apply andb_prop in Hf as [Hd' Hf].
    rewrite Hc, Hd'. simpl andb. cbv iota.
    rewrite drop_while_app by exact Hf.
    rewrite ends_number_drop by exact Hr.
    f_equal. f_equal. apply firstn_prefix. now rewrite <- app_assoc.
Qed.

Lemma tokenize_symbol c s :
  is_op_or_paren c = true ->
  Engine.tokenize (c :: s) = [c] :: Engine.tokenize s.
Proof.
  intros H. unfold Engine.tokenize.
  apply match_all_hit; [now apply match_token_symbol | discriminate].
Qed.

Lemma tokenize_literal l rest :
  is_literal l = true -> ends_number rest = true ->
  Engine.tokenize (l ++ rest) = l :: Engine.tokenize rest.
Proof.
  intros Hl Hr. unfold Engine.tokenize.
  apply match_all_hit; [now apply match_token_literal|].
  now apply literal_not_nil.
Qed.

(** Every match of the token pattern is a literal or one symbol. *)
Lemma matches_token t :
  matches re_token t ->
  is_literal t = true \/ exists c, t = [c] /\ is_op_or_paren c = true.
Proof.
  unfold re_token. inversion 1 as [| |r1 r2 s M|r1 r2 s M| | |]; subst.
  - left. now apply literal_matches.
  - right. inversion M; subst. eauto.
Qed.

Lemma matches_token_not_nil t : matches re_token t -> t <> [].
Proof.
  intros M. apply matches_token in M as [H|(c & -> & _)];
    [now apply literal_not_nil | discriminate].
Qed.

(** Induction over the matches of a scan. *)
Lemma match_all_cases r s :
  (forall t, matches r t -> t <> []) ->
  match s with
  | [] => match_all r s = []
  | c :: s' =>
      (exists tok rest, s = tok ++ rest /\ tok <> [] /\ matches r tok
                        /\ match_all r s = tok :: match_all r rest)
      \/ match_all r s = match_all r s'
  end.
Proof.
  intros Hne. destruct s as [|c s']; [reflexivity|].
  destruct (match_here r (c :: s')) as [[tok rest]|] eqn:E.
  - left. pose proof (match_here_sound _ _ _ _ E) as [Hs M].
    exists tok, rest. repeat split; auto.
    apply match_all_hit; auto.
  - right. now apply match_all_miss.
Qed.

Lemma match_all_forall r (P : jsstring -> Prop) :
  (forall t, matches r t -> t <> []) ->
  (forall t, matches r t -> P t) ->
  forall s, Forall P (match_all r s).
Proof.
  intros Hne HP s.
  remember (length s) as n eqn:Hn. revert s Hn.
  induction n as [n IH] using lt_wf_ind. intros s Hn.
  pose proof (match_all_cases r s Hne) as C.
  destruct s as [|c s']; [rewrite C; constructor|].
  destruct C as [(tok & rest & Hs & Ht & M & ->)| ->].
  - constructor; [now apply HP|].
    apply (IH (length rest)); [|reflexivity].
    rewrite Hn, Hs, length_app. destruct tok; [contradiction|simpl; lia].
  - apply (IH (length s')); [simpl in Hn; lia | reflexivity].
Qed.

Lemma match_all_in_order r :
  (forall t, matches r t -> t <> []) ->
  forall s, in_order s (match_all r s).
Proof.
  intros Hne s.
  remember (length s) as n eqn:Hn. revert s Hn.
  induction n as [n IH] using lt_wf_ind. intros s Hn.
  pose proof (match_all_cases r s Hne) as C.
  destruct s as [|c s']; [rewrite C; constructor|].
  destruct C as [(tok & rest & Hs & Ht & M & ->)| ->].
  - rewrite Hs. constructor; [exact Ht|].
    apply (IH (length rest)); [|reflexivity].
    rewrite Hn, Hs, length_app. destruct tok; [contradiction|simpl; lia].
  - constructor. apply (IH (length s')); [simpl in Hn; lia | reflexivity].
Qed.

(** What the number pattern leaves of a text that starts with a
    literal: no more than what follows the literal. *)
Lemma run_number_literal l s :
  is_literal l = true ->
  exists x, run re_number (l ++ s) (fun rest => Some rest) = Some x
            /\ length x <= length s.
Proof.
  intros Hl. rewrite run_number.
  pose proof (drop_while_length is_digit s) as Ls.
  apply is_literal_cases in Hl
    as [[Hne H]|(ds & c & d & fs & -> & Hd & Hc & Hf)].
  - rewrite drop_while_app by exact H.
    assert (S : starts_with_digit (l ++ s) = true).
    { destruct l as [|a l]; [contradiction|]. simpl in *.
      now apply andb_prop in H as [-> _]. }
    rewrite S.
    rewrite run_fraction_other by apply drop_while_not_digit.
    destruct (drop_while is_digit s) as [|c [|d r]] eqn:E;
      [eexists; split; [reflexivity | exact Ls]..|].
    destruct (is_dot c && is_digit d);
      [|eexists; split; [reflexivity | exact Ls]].
    eexists. split; [reflexivity|].
    pose proof (drop_while_length is_digit r). simpl in Ls. lia.
  - rewrite <- app_assoc. rewrite drop_while_app by exact Hd.
    assert (Hn : is_digit c = false).
    { destruct (is_digit c) eqn:E; [|reflexivity].
      apply digit_not_dot in E. congruence. }
    simpl app. rewrite drop_while_stop by exact Hn.
    rewrite run_fraction_other by (simpl; exact Hn).
    simpl in Hf. apply andb_prop in Hf as [Hd' Hf].
    rewrite Hc, Hd'. simpl andb. cbv iota.
    rewrite drop_while_app by exact Hf.
    eexists. split; [reflexivity | exact Ls].
Qed.

(** The match found at the head of a text is the longest one. *)
Lemma match_here_longest u t r :
  match_here re_token u = Some (t, r) -> longest t r.
Proof.
  intros H t' s' E M.
  pose proof (match_here_sound _ _ _ _ H) as [Hu Mt].
  pose proof (matches_token_not_nil _ Mt) as Hne.
  apply matches_token in M as [Hl|(c & -> & _)].
  - destruct (run_number_literal t' s' Hl) as (x & R & L).
    assert (Len : length (t' ++ s') = length (t ++ r)) by now rewrite E.
    rewrite Hu, <- E in H. revert H. unfold match_here.
    rewrite run_token, R. intros [= _ <-].
    rewrite !length_app in Len. lia.
  - destruct t; [contradiction | simpl; lia].
Qed.

Lemma match_here_none s :
  match_here re_token s = None <-> starts_no_token s.
Proof.
  split.
  - intros H t s' <- M.
    destruct (match_here_complete re_token t s' M) as (tok & rest & E).
    congruence.
  - intros H. destruct (match_here re_token s) as [[t r]|] eqn:E;
      [|reflexivity].
    apply match_here_sound in E as [E M]. now destruct (H t r).
Qed.

Lemma app_same_length {A} (a b c d : list A) :
  a ++ b = c ++ d -> length a = length c -> a = c /\ b = d.
Proof.
  revert c. induction a as [|x a IH]; intros [|y c] E L;
    try discriminate L.
  - now split.
  - injection E as -> E. injection L as L.
    destruct (IH c E L) as [-> ->]. now split.
Qed.

(** The longest piece the pattern matches is the match found. *)
Lemma match_here_token t s :
  matches re_token t -> longest t s ->
  match_here re_token (t ++ s) = Some (t, s).
Proof.
  intros M L.
  destruct (match_here_complete re_token t s M) as (t' & s' & E).
  pose proof (match_here_sound _ _ _ _ E) as [Hu M'].
  pose proof (match_here_longest _ _ _ E) as L'.
  assert (Len : length t = length t').
  { apply Nat.le_antisymm.
    - apply (L' t s); [now symmetry | exact M].
    - apply (L t' s'); [now symmetry | exact M']. }
  destruct (app_same_length _ _ _ _ Hu Len) as [-> ->]. exact E.
Qed.

Lemma tokenize_split s : split_by_pattern s (Engine.tokenize s).
Proof.
  remember (length s) as n eqn:Hn. revert s Hn.
  induction n as [n IH] using lt_wf_ind. intros s Hn.
  destruct s as [|c s']; [constructor|].
  unfold Engine.tokenize.
  destruct (match_here re_token (c :: s')) as [[tok rest]|] eqn:E.
  - pose proof (match_here_sound _ _ _ _ E) as [Hs M].
    pose proof (matches_token_not_nil _ M) as Hne.
    rewrite (match_all_hit _ _ _ _ E Hne). rewrite Hs.
    constructor; [exact M | now apply (match_here_longest (c :: s')) |].
    apply (IH (length rest)); [|reflexivity].
    rewrite Hn, Hs, length_app. destruct tok; [contradiction|simpl; lia].
  - rewrite (match_all_miss _ _ _ E).
    apply Split_skip; [now apply match_here_none|].
    apply (IH (length s')); [simpl in Hn; lia | reflexivity].
Qed.

Lemma split_tokenize s toks :
  split_by_pattern s toks -> toks = Engine.tokenize s.
Proof.
  induction 1 as [|t s toks M L _ IH|c s toks N _ IH].
  - reflexivity.
  - unfold Engine.tokenize.
    rewrite (match_all_hit re_token (t ++ s) t s);
      [now rewrite IH | now apply match_here_token
      | now apply matches_token_not_nil].
  - unfold Engine.tokenize. rewrite match_all_miss; [exact IH|].
    now apply match_here_none.
Qed.

Lemma match_token_none c s :
  match_here re_token (c :: s) = None -> is_op_or_paren c = false.
Proof.
  intros H. destruct (is_op_or_paren c) eqn:E; [|reflexivity].
  rewrite match_token_symbol in H by exact E. discriminate.
Qed.

Lemma match_token_digit c s :
  is_digit c = true -> match_here re_token (c :: s) <> None.
Proof.
  intros H. unfold match_here. rewrite run_token, run_number.
  cbn [starts_with_digit]. rewrite H.
  destruct (run re_fraction (drop_while is_digit (c :: s))
              (fun rest => Some rest)); discriminate.
Qed.

(** A point with a digit after it starts a number token. *)
Lemma match_token_point c d s :
  is_dot c = true -> is_digit d = true ->
  match_here re_token (c :: d :: s) <> None.
Proof.
  intros Hc Hd E. apply match_here_none in E.
  apply (E [c; d] s eq_refl). apply M_alt_l. apply literal_matches.
  unfold is_literal. cbn [drop_while].
  assert (N : is_digit c = false).
  { destruct (is_digit c) eqn:X; [|reflexivity].
    apply digit_not_dot in X. congruence. }
  rewrite N, Hc. cbn [forallb]. now rewrite Hd.
Qed.

(** Where the scan passes over an allowed character, the character is a
    point and no digit follows it. *)
Lemma skipped_is_loose_point c s :
  is_allowed c = true -> match_here re_token (c :: s) = None ->
  is_dot c = true /\ starts_with_digit s = false.
Proof.
  intros Hc E.
  assert (P : is_dot c = true).
  { unfold is_allowed in Hc. rewrite !orb_true_iff in Hc.
    destruct Hc as [[Hd|Ho]|Hp]; [| |exact Hp].
    - now destruct (match_token_digit c s Hd).
    - apply match_token_none in E. congruence. }
  split; [exact P|].
  destruct s as [|d r]; [reflexivity|]. cbn [starts_with_digit].
  destruct (is_digit d) eqn:D; [|reflexivity].
  now destruct (match_token_point c d r P D).
Qed.

Lemma loose_points_digits ds s :
  forallb is_digit ds = true ->
  without_loose_points (ds ++ s) = ds ++ without_loose_points s.
Proof.
  induction ds as [|d ds IH]; [reflexivity|]. cbn [forallb].
  intros H. apply andb_prop in H as [Hd H].
  cbn [app without_loose_points].
  rewrite (digit_not_dot _ Hd). cbn [andb]. now rewrite IH.
Qed.

(** No point of a literal is loose, whatever follows the literal. *)
Lemma loose_points_literal l s :
  is_literal l = true ->
  without_loose_points (l ++ s) = l ++ without_loose_points s.
Proof.
  intros Hl. apply is_literal_cases in Hl
    as [[_ H]|(ds & c & d & fs & -> & Hd & Hc & Hf)].
  - now apply loose_points_digits.
  - rewrite <- !app_assoc. rewrite loose_points_digits by exact Hd.
    f_equal. cbn [app].
    pose proof Hf as Hf'. cbn [forallb] in Hf'.
    apply andb_prop in Hf' as [Hd' _].
    change (without_loose_points (c :: d :: fs ++ s))
      with (if is_dot c && negb (is_digit d)
            then without_loose_points ((d :: fs) ++ s)
            else c :: without_loose_points ((d :: fs) ++ s)).
    rewrite Hd', andb_false_r.
    rewrite loose_points_digits by exact Hf. reflexivity.
Qed.

Lemma tokenize_concat s :
  forallb is_allowed s = true ->
  concat (Engine.tokenize s) = without_loose_points s.
Proof.
  remember (length s) as n eqn:Hn. revert s Hn.
  induction n as [n IH] using lt_wf_ind. intros s Hn Ha.
  destruct s as [|c s']; [reflexivity|].
  unfold Engine.tokenize.
  destruct (match_here re_token (c :: s')) as [[tok rest]|] eqn:E.
  - pose proof (match_here_sound _ _ _ _ E) as [Hs M].
    pose proof (matches_token_not_nil _ M) as Hne.
    rewrite (match_all_hit _ _ _ _ E Hne). rewrite Hs.
    cbn [concat].
    change (match_all re_token rest) with (Engine.tokenize rest).
    rewrite (IH (length rest)); [|
      rewrite Hn, Hs, length_app; destruct tok; [contradiction|simpl; lia]
      | reflexivity
      | rewrite Hs, forallb_app in Ha; now apply andb_prop in Ha as [_ Ha]].
    apply matches_token in M as [Hl|(x & -> & Hx)].
    + now rewrite loose_points_literal.
    + cbn [app without_loose_points].
      now rewrite (op_not_dot _ Hx).
  - rewrite (match_all_miss _ _ _ E).
    simpl in Ha. apply andb_prop in Ha as [Hc Ha].
    destruct (skipped_is_loose_point c s' Hc E) as [P D].
    cbn [without_loose_points]. rewrite P, D. cbn [negb andb].
    apply (IH (length s')); [simpl in Hn; lia | reflexivity | exact Ha].
Qed.

End Tokens.

(* ================================================================== *)
(** ** The tokens of an input (claim C7) *)

(** C7 (as the code has it). The tokeniser cuts the text from left to
    right by the token pattern: each token is the longest piece at the
    head of what is left that the pattern matches, a character is passed
    over only where the pattern matches no piece, and no other list of
    tokens is cut this way.  On a text of allowed characters the
    characters passed over are the decimal points that no digit follows.
    Each token is either a number token,
    matching "zero or more digits, an optional decimal point, one or more
    digits" (so a number token may begin with the point), which the
    conversion loop reads as a number, or one of the six characters
    [+ - * / ( )] alone, which it does not read as a number. *)
Theorem tokens_in_order_and_shaped :
  forall s,
    split_by_pattern s (Engine.tokenize s)
    /\ (forall toks, split_by_pattern s toks -> toks = Engine.tokenize s)
    /\ (forallb is_allowed s = true ->
        concat (Engine.tokenize s) = without_loose_points s)
    /\ in_order s (Engine.tokenize s)
    /\ Forall (fun t =>
                 (matches re_number t /\ is_number_token t = true)
                 \/ (exists c, t = [c] /\ is_op_or_paren c = true
                               /\ is_number_token t = false))
              (Engine.tokenize s).
Proof.
  intros s. split; [|split; [|split; [|split]]].
  - apply tokenize_split.
  - apply split_tokenize.
  - apply tokenize_concat.
  - apply match_all_in_order. exact matches_token_not_nil.
  - apply match_all_forall; [exact matches_token_not_nil|].
    intros t M. apply matches_token in M as [H|(c & -> & H)].
    + left. split; [now apply literal_matches|].
      unfold is_number_token. now rewrite test_number.
    + right. exists c. repeat split; auto.
      unfold is_number_token. rewrite test_number. now apply op_not_literal.
Qed.

Lemma tokens_in_order_and_shaped_witness :
  forallb is_allowed (lit "12.5+.5.") = true
  /\ split_by_pattern (lit "12.5+.5.") [lit "12.5"; lit "+"; lit ".5"]
  /\ concat (Engine.tokenize (lit "12.5+.5.")) = lit "12.5+.5".
Proof.
  split; [reflexivity|]. split.
  - exact (proj1 (tokens_in_order_and_shaped (lit "12.5+.5."))).
  - apply (proj1 (proj2 (proj2 (tokens_in_order_and_shaped
                                  (lit "12.5+.5."))))).
    reflexivity.
Defined.

(** C7 as stated fails: the number token of [".5"] has no digit before
    its decimal point, so it is not in the language of "one or more
    digits optionally followed by a decimal point and more digits". *)
Lemma number_token_may_start_with_point :
  ~ (forall s t,
        test_whole re_allowed s = true ->
        In t (Engine.tokenize s) -> is_number_token t = true ->
        matches re_number_spec t).
Proof.
  intros H.
  specialize (H (lit ".5") (lit ".5") eq_refl (or_introl eq_refl) eq_refl).
  apply test_whole_matches in H. vm_compute in H. discriminate.
Qed.

(* ================================================================== *)
(** ** The conversion loop *)

Section Conversion.

Lemma pop_while_geq_some d ops : forall out,
  Engine.pop_while_geq (Some d) out ops = Ok (pop_geq d out ops).
Proof.
  induction ops as [|top ops IH]; intros out; simpl; [reflexivity|].
  destruct (eqb top (lit "(")); [reflexivity|]. simpl.
  destruct (match Engine.operators top with
            | Some d0 => (Engine.precedence d <=? Engine.precedence d0)%Z
            | None => false
            end); [apply IH | reflexivity].
Qed.

Lemma step_operator out ops token d :
  test_whole re_number token = false ->
  eqb token (lit "(") = false -> eqb token (lit ")") = false ->
  Engine.operators token = Some d ->
  Engine.step (out, ops) token
  = (let '(out', ops') := pop_geq d out ops in Ok (out', token :: ops')).
Proof.
  intros H1 H2 H3 Hd. unfold Engine.step.
  rewrite H1, H2, H3, Hd, pop_while_geq_some. cbn [bind].
  now destruct (pop_geq d out ops).
Qed.

Lemma steps_app st a b :
  Engine.steps st (a ++ b)
  = (st' <- Engine.steps st a ;; Engine.steps st' b).
Proof.
  revert st. induction a as [|t a IH]; intros st; simpl; [reflexivity|].
  destruct (Engine.step st t); simpl; [apply IH | reflexivity].
Qed.

Lemma step_number out ops l :
  is_literal l = true ->
  Engine.step (out, ops) l = Ok (out ++ [INum (parseFloat l)], ops).
Proof. intros H. unfold Engine.step. now rewrite test_number, H. Qed.

Lemma step_open out ops :
  Engine.step (out, ops) (lit "(") = Ok (out, lit "(" :: ops).
Proof. reflexivity. Qed.

Lemma step_close out ops :
  Engine.step (out, ops) (lit ")") = Engine.close_paren out ops.
Proof. reflexivity. Qed.

Lemma pop_to_paren_found out p rest :
  ~ In (lit "(") p ->
  Engine.pop_to_paren out (p ++ lit "(" :: rest)
  = (out ++ map ISym p, lit "(" :: rest).
Proof.
  revert out. induction p as [|t p IH]; intros out Hp.
  - simpl. now rewrite app_nil_r.
  - cbn [app Engine.pop_to_paren map].
    destruct (eqb t (lit "(")) eqn:E.
    + apply eqb_eq in E. subst. destruct Hp. now left.
    + rewrite IH by (intros Hin; apply Hp; now right).
      now rewrite <- app_assoc.
Qed.

Lemma pop_to_paren_missing out ops :
  ~ In (lit "(") ops ->
  Engine.pop_to_paren out ops = (out ++ map ISym ops, []).
Proof.
  revert out. induction ops as [|t p IH]; intros out Hp.
  - simpl. now rewrite app_nil_r.
  - cbn [Engine.pop_to_paren map].
    destruct (eqb t (lit "(")) eqn:E.
    + apply eqb_eq in E. subst. destruct Hp. now left.
    + rewrite IH by (intros Hin; apply Hp; now right).
      now rewrite <- app_assoc.
Qed.

Lemma close_paren_found out p rest :
  ~ In (lit "(") p ->
  Engine.close_paren out (p ++ lit "(" :: rest) = Ok (out ++ map ISym p, rest).
Proof.
  intros Hp. unfold Engine.close_paren.
  now rewrite pop_to_paren_found.
Qed.

Lemma close_paren_missing out ops :
  ~ In (lit "(") ops ->
  Engine.close_paren out ops = Err MismatchedParentheses.
Proof.
  intros Hp. unfold Engine.close_paren.
  now rewrite pop_to_paren_missing.
Qed.

(** A stack holds ['('] or it does not; when it does, the operators above
    the topmost one are set apart. *)
Lemma split_at_paren (ops : list jsstring) :
  ~ In (lit "(") ops
  \/ exists p rest, ops = p ++ lit "(" :: rest /\ ~ In (lit "(") p.
Proof.
  induction ops as [|t ops IH]; [now left|].
  destruct (eqb t (lit "(")) eqn:E.
  - apply eqb_eq in E. subst. right. exists [], ops. now split.
  - apply eqb_neq in E. destruct IH as [IH|(p & rest & -> & Hp)].
    + left. intros [H|H]; auto.
    + right. exists (t :: p), rest. split; [reflexivity|].
      intros [H|H]; auto.
Qed.

Lemma close_paren_error out ops e :
  Engine.close_paren out ops = Err e ->
  e = MismatchedParentheses /\ ~ In (lit "(") ops.
Proof.
  destruct (split_at_paren ops) as [H|(p & rest & -> & Hp)].
  - rewrite close_paren_missing by exact H. now intros [= <-].
  - rewrite close_paren_found by exact Hp. discriminate.
Qed.

Lemma drain_spec out ops :
  Engine.drain out ops
  = if existsb (eqb (lit "(")) ops then Err MismatchedParentheses
    else Ok (out ++ map ISym ops).
Proof.
  revert out. induction ops as [|t ops IH]; intros out; simpl.
  - now rewrite app_nil_r.
  - destruct (eqb t (lit "(")) eqn:E.
    + apply eqb_eq in E. subst. reflexivity.
    + assert (E' : eqb (lit "(") t = false).
      { apply eqb_neq. apply eqb_neq in E. congruence. }
      rewrite E'. simpl. rewrite IH.
      destruct (existsb _ ops); [reflexivity|]. now rewrite <- app_assoc.
Qed.

Lemma existsb_paren ops :
  existsb (eqb (lit "(")) ops = true <-> In (lit "(") ops.
Proof.
  rewrite existsb_exists. split.
  - intros (t & Hin & E). apply eqb_eq in E. now subst.
  - intros H. exists (lit "("). split; [exact H | apply eqb_refl].
Qed.

(** The operator branch on one of the four operator symbols. *)
Lemma operators_symbol c :
  is_operator c = true -> exists d, Engine.operators [c] = Some d.
Proof.
  intros H. apply operator_cases in H.
  repeat destruct H as [H|H]; subst; cbn; eauto.
Qed.

Lemma symbol_cases c :
  is_op_or_paren c = true ->
  [c] = lit "(" \/ [c] = lit ")" \/ is_operator c = true.
Proof.
  intros H. apply op_or_paren_cases in H.
  repeat destruct H as [H|H]; subst; auto.
Qed.

Lemma operator_token_tests c :
  is_operator c = true ->
  test_whole re_number [c] = false
  /\ eqb [c] (lit "(") = false /\ eqb [c] (lit ")") = false.
Proof.
  intros H. apply operator_cases in H.
  repeat destruct H as [H|H]; subst; repeat split; reflexivity.
Qed.

Lemma step_operator_char out ops c d :
  is_operator c = true -> Engine.operators [c] = Some d ->
  Engine.step (out, ops) [c]
  = (let '(out', ops') := pop_geq d out ops in Ok (out', [c] :: ops')).
Proof.
  intros H Hd. destruct (operator_token_tests c H) as (H1 & H2 & H3).
  now apply step_operator.
Qed.

(** On a token of the tokeniser a step fails only at an unmatched [')']. *)
Lemma step_error out ops t e :
  is_literal t = true \/ (exists c, t = [c] /\ is_op_or_paren c = true) ->
  Engine.step (out, ops) t = Err e ->
  t = lit ")" /\ e = MismatchedParentheses /\ ~ In (lit "(") ops.
Proof.
  intros [H|(c & -> & H)].
  - rewrite step_number by exact H. discriminate.
  - apply symbol_cases in H as [->|[->|H]].
    + rewrite step_open. discriminate.
    + rewrite step_close. intros E. apply close_paren_error in E. tauto.
    + pose proof H as Hop. apply operators_symbol in H as [d Hd].
      rewrite (step_operator_char out ops c d Hop Hd).
      destruct (pop_geq d out ops). discriminate.
Qed.

Lemma tokenize_well_formed s :
  Forall (fun t => is_literal t = true
                   \/ exists c, t = [c] /\ is_op_or_paren c = true)
         (Engine.tokenize s).
Proof.
  apply match_all_forall; [exact matches_token_not_nil|].
  exact matches_token.
Qed.

Lemma steps_error toks : forall st e,
  Forall (fun t => is_literal t = true
                   \/ exists c, t = [c] /\ is_op_or_paren c = true) toks ->
  Engine.steps st toks = Err e ->
  e = MismatchedParentheses
  /\ exists pre post out ops,
      toks = pre ++ lit ")" :: post
      /\ Engine.steps st pre = Ok (out, ops) /\ ~ In (lit "(") ops.
Proof.
  induction toks as [|t toks IH]; intros st e Hwf; simpl; [discriminate|].
  inversion Hwf as [|t' toks' Ht Htoks]; subst.
  destruct (Engine.step st t) as [st'|e'] eqn:E; simpl.
  - intros H. apply IH in H as [-> (pre & post & out & ops & -> & H1 & H2)];
      [|exact Htoks].
    split; [reflexivity|]. exists (t :: pre), post, out, ops.
    repeat split; auto. simpl. now rewrite E.
  - intros [= <-]. destruct st as [out ops].
    apply step_error in E as (-> & -> & Hn); [|exact Ht].
    split; [reflexivity|]. exists [], toks, out, ops. now repeat split.
Qed.

End Conversion.

(** C5. A [')'] pops the operators above the topmost ['('] into the
    output, in the order they are popped, and discards that ['(']; the
    conversion fails, and then with [MismatchedParentheses], exactly when
    some [')'] finds no ['('] on the operator stack or a ['('] is still on
    the stack after the last token.  In particular ["(1+2"] fails with
    [MismatchedParentheses]. *)
Theorem parentheses_matching :
  (forall out p rest,
      ~ In (lit "(") p ->
      Engine.step (out, p ++ lit "(" :: rest) (lit ")")
      = Ok (out ++ map ISym p, rest))
  /\ (forall out ops,
         ~ In (lit "(") ops ->
         Engine.step (out, ops) (lit ")") = Err MismatchedParentheses)
  /\ (forall out ops,
         Engine.drain out ops
         = if existsb (eqb (lit "(")) ops then Err MismatchedParentheses
           else Ok (out ++ map ISym ops))
  /\ (forall s e,
         Engine.toRPN s = Err e <->
         e = MismatchedParentheses
         /\ ((exists pre post out ops,
                 Engine.tokenize s = pre ++ lit ")" :: post
                 /\ Engine.steps ([], []) pre = Ok (out, ops)
                 /\ ~ In (lit "(") ops)
             \/ (exists out ops,
                    Engine.steps ([], []) (Engine.tokenize s) = Ok (out, ops)
                    /\ In (lit "(") ops)))
  /\ Engine.calculate (lit "(1+2") = Err MismatchedParentheses
  /\ Engine.calculate (lit "1+2)") = Err MismatchedParentheses.
Proof.
  split; [|split; [|split; [|split; [|split; reflexivity]]]].
  - intros out p rest Hp. rewrite step_close. now apply close_paren_found.
  - intros out ops Hp. rewrite step_close. now apply close_paren_missing.
  - apply drain_spec.
  - intros s e. unfold Engine.toRPN. split.
    + destruct (Engine.steps ([], []) (Engine.tokenize s))
        as [[out ops]|e'] eqn:E; simpl.
      * rewrite drain_spec.
        destruct (existsb (eqb (lit "(")) ops) eqn:X; [|discriminate].
        intros [= <-]. split; [reflexivity|]. right.
        exists out, ops. split; [reflexivity|]. now apply existsb_paren.
      * intros [= <-].
        apply steps_error in E as [-> H]; [|apply tokenize_well_formed].
        split; [reflexivity|]. now left.
    + intros [-> [(pre & post & out & ops & -> & H1 & H2)
                 |(out & ops & -> & H2)]].
      * rewrite steps_app, H1. cbn [bind Engine.steps].
        rewrite step_close, close_paren_missing by exact H2. reflexivity.
      * simpl. rewrite drain_spec.
        apply existsb_paren in H2. now rewrite H2.
Qed.

Lemma parentheses_matching_witness :
  Engine.step ([INum zero], [lit "+"; lit "("; lit "*"]) (lit ")")
  = Ok ([INum zero] ++ map ISym [lit "+"], [lit "*"])
  /\ Engine.step ([INum zero], [lit "+"]) (lit ")")
     = Err MismatchedParentheses.
Proof.
  destruct parentheses_matching as (H1 & H2 & _).
  split.
  - apply (H1 [INum zero] [lit "+"] [lit "*"]).
    intros [H|[]]. discriminate H.
  - apply (H2 [INum zero] [lit "+"]).
    intros [H|[]]. discriminate H.
Defined.

(* ================================================================== *)
(** ** Valid infix expressions *)

Section ValidExpressions.

(** *** Literals *)

Lemma literal_head l :
  is_literal l = true ->
  exists c r, l = c :: r /\ (is_digit c = true \/ is_dot c = true).
Proof.
  intros H. destruct l as [|c r]; [discriminate|].
  exists c, r. split; [reflexivity|].
  apply (literal_chars _ c H). now left.
Qed.

Lemma take_while_forall p s : forallb p s = true -> take_while p s = s.
Proof.
  induction s as [|c s IH]; simpl; [reflexivity|].
  intros H. apply andb_prop in H as [-> H]. now rewrite IH.
Qed.

Lemma parseFloat_literal l :
  is_literal l = true -> parseFloat l = literal_value l.
Proof.
  intros H. destruct (literal_head l H) as (c & r & -> & Hc).
  assert (Hm : (c =? ch "-")%N = false /\ (c =? ch "+")%N = false
               /\ (ch "I" =? c)%N = false).
  { repeat split; apply N.eqb_neq; intros E; subst c;
      destruct Hc as [Hc|Hc]; vm_compute in Hc; discriminate. }
  destruct Hm as (Hm & Hp & Hi).
  unfold parseFloat. rewrite Hm, Hp. unfold parse_unsigned.
  change (is_prefix (lit "Infinity") (c :: r))
    with ((ch "I" =? c)%N && is_prefix (lit "nfinity") r).
  rewrite Hi. cbn [andb].
  unfold literal_value.
  apply is_literal_cases in H
    as [[Hne H]|(ds & p & d & fs & E & Hd & Hp' & Hf)].
  - rewrite <- (app_nil_r (c :: r)).
    rewrite take_while_app, drop_while_app by exact H.
    simpl take_while. simpl drop_while. rewrite !app_nil_r. reflexivity.
  - rewrite E. rewrite take_while_app, drop_while_app by exact Hd.
    assert (Hn : is_digit p = false).
    { destruct (is_digit p) eqn:X; [|reflexivity].
      apply digit_not_dot in X. congruence. }
    rewrite drop_while_stop by exact Hn.
    rewrite Hp', (take_while_forall is_digit (d :: fs) Hf).
    replace (take_while is_digit (p :: d :: fs)) with (@nil char)
      by (simpl; now rewrite Hn).
    rewrite app_nil_r.
    destruct (ds ++ d :: fs) eqn:X; [|reflexivity].
    destruct ds; discriminate.
Qed.

(** *** The text of a valid expression passes the validation *)

Lemma literal_allowed l :
  is_literal l = true -> forallb is_allowed l = true.
Proof.
  intros H. apply forallb_forall. intros c Hin.
  unfold is_allowed.
  destruct (literal_chars l c H Hin) as [-> | ->];
    [reflexivity | now rewrite !orb_true_r].
Qed.

Lemma show_allowed :
  (forall e, valid_expr e = true -> forallb is_allowed (show_expr e) = true)
  /\ (forall t, valid_term t = true -> forallb is_allowed (show_term t) = true)
  /\ (forall f, valid_factor f = true ->
                forallb is_allowed (show_factor f) = true).
Proof.
  apply syntax_mutind; simpl.
  - auto.
  - intros e IHe o t IHt H. apply andb_prop in H as [He Ht].
    rewrite !forallb_app, IHe, IHt by assumption. now destruct o.
  - auto.
  - intros t IHt o f IHf H. apply andb_prop in H as [Ht Hf].
    rewrite !forallb_app, IHt, IHf by assumption. now destruct o.
  - exact literal_allowed.
  - intros e IHe H. rewrite forallb_app. rewrite (IHe H). reflexivity.
Qed.

Lemma show_not_nil :
  (forall e, valid_expr e = true -> show_expr e <> [])
  /\ (forall t, valid_term t = true -> show_term t <> [])
  /\ (forall f, valid_factor f = true -> show_factor f <> []).
Proof.
  apply syntax_mutind; simpl.
  - auto.
  - intros e IHe o t IHt H. apply andb_prop in H as [He Ht].
    intros E. apply app_eq_nil in E as [E _]. now apply IHe.
  - auto.
  - intros t IHt o f IHf H. apply andb_prop in H as [Ht Hf].
    intros E. apply app_eq_nil in E as [E _]. now apply IHt.
  - exact literal_not_nil.
  - discriminate.
Qed.

Lemma show_passes_validation e :
  valid_expr e = true -> test_whole re_allowed (show_expr e) = true.
Proof.
  intros H. apply test_allowed. split.
  - now apply show_not_nil.
  - now apply show_allowed.
Qed.

(** *** Its tokens *)

Lemma addop_symbol_char o :
  exists c, addop_symbol o = [c] /\ is_operator c = true
            /\ is_op_or_paren c = true.
Proof. destruct o; eexists; repeat split; reflexivity. Qed.

Lemma mulop_symbol_char o :
  exists c, mulop_symbol o = [c] /\ is_operator c = true
            /\ is_op_or_paren c = true.
Proof. destruct o; eexists; repeat split; reflexivity. Qed.

Lemma symbol_ends_number c s :
  is_op_or_paren c = true -> ends_number (c :: s) = true.
Proof.
  intros H. simpl. now rewrite (op_not_digit _ H), (op_not_dot _ H).
Qed.

Lemma tokenize_show_gen :
  (forall e, valid_expr e = true -> forall rest, ends_number rest = true ->
      Engine.tokenize (show_expr e ++ rest)
      = tokens_expr e ++ Engine.tokenize rest)
  /\ (forall t, valid_term t = true -> forall rest, ends_number rest = true ->
         Engine.tokenize (show_term t ++ rest)
         = tokens_term t ++ Engine.tokenize rest)
  /\ (forall f, valid_factor f = true -> forall rest, ends_number rest = true ->
         Engine.tokenize (show_factor f ++ rest)
         = tokens_factor f ++ Engine.tokenize rest).
Proof.
  apply syntax_mutind; simpl.
  - auto.
  - intros e IHe o t IHt H rest Hr. apply andb_prop in H as [He Ht].
    destruct (addop_symbol_char o) as (c & -> & _ & Hc).
    rewrite <- !app_assoc. simpl app.
    rewrite IHe by (auto using symbol_ends_number).
    rewrite tokenize_symbol by exact Hc.
    rewrite IHt by assumption. reflexivity.
  - auto.
  - intros t IHt o f IHf H rest Hr. apply andb_prop in H as [Ht Hf].
    destruct (mulop_symbol_char o) as (c & -> & _ & Hc).
    rewrite <- !app_assoc. simpl app.
    rewrite IHt by (auto using symbol_ends_number).
    rewrite tokenize_symbol by exact Hc.
    rewrite IHf by assumption. reflexivity.
  - intros l H rest Hr. now apply tokenize_literal.
  - intros e IHe H rest Hr.
    rewrite (tokenize_symbol (ch "(")) by reflexivity.
    rewrite <- !app_assoc. change (lit ")" ++ rest) with (ch ")" :: rest).
    rewrite IHe by (auto using symbol_ends_number).
    rewrite (tokenize_symbol (ch ")")) by reflexivity.
    reflexivity.
Qed.

Lemma tokenize_show e :
  valid_expr e = true -> Engine.tokenize (show_expr e) = tokens_expr e.
Proof.
  intros H. rewrite <- (app_nil_r (show_expr e)).
  rewrite (proj1 tokenize_show_gen e H []) by reflexivity.
  unfold Engine.tokenize. rewrite match_all_nil. apply app_nil_r.
Qed.

End ValidExpressions.

(* ================================================================== *)
(** ** [calculate] and [strip] *)

Section CalculateFacts.

(** [calculate] reads its argument only through [strip]. *)
Lemma calculate_strip s s' :
  Engine.strip s = Engine.strip s' -> Engine.calculate s = Engine.calculate s'.
Proof. intros H. unfold Engine.calculate. now rewrite H. Qed.

Lemma allowed_not_space c : is_allowed c = true -> is_space c = false.
Proof.
  intros A. destruct (is_space c) eqn:E; [|reflexivity].
  revert A. unfold is_space in E.
  unfold is_allowed, is_digit, is_op_or_paren, is_dot.
  rewrite !orb_true_iff, !andb_true_iff, !N.eqb_eq, !N.leb_le in *.
  change (ch "+") with 43%N. change (ch "-") with 45%N.
  change (ch "*") with 42%N. change (ch "/") with 47%N.
  change (ch "(") with 40%N. change (ch ")") with 41%N.
  change (ch ".") with 46%N. lia.
Qed.

Lemma strip_allowed s : forallb is_allowed s = true -> Engine.strip s = s.
Proof.
  intros H. rewrite strip_filter. apply forallb_filter_id.
  apply forallb_forall. intros c Hin. rewrite forallb_forall in H.
  now rewrite allowed_not_space by auto.
Qed.

Lemma strip_idempotent s : Engine.strip (Engine.strip s) = Engine.strip s.
Proof.
  rewrite !strip_filter. induction s as [|c s IH]; simpl; [reflexivity|].
  destruct (is_space c) eqn:E; simpl; [exact IH|].
  rewrite E. simpl. now rewrite IH.
Qed.

End CalculateFacts.

(* ================================================================== *)
(** ** Shunting Yard on a valid expression *)

Section ShuntingYard.

Lemma pop_geq_all cur p ops out :
  Forall (fun t => eqb t (lit "(") = false
                   /\ exists d, Engine.operators t = Some d
                                /\ (Engine.precedence cur <= Engine.precedence d)%Z) p ->
  match ops with
  | [] => True
  | top :: _ =>
      eqb top (lit "(") = true
      \/ exists d, Engine.operators top = Some d
                   /\ (Engine.precedence d < Engine.precedence cur)%Z
  end ->
  pop_geq cur out (p ++ ops) = (out ++ map ISym p, ops).
Proof.
  intros Hp Hops. revert out. induction Hp as [|t p [Ht (d & Hd & Hle)] _ IH];
    intros out.
  - simpl. rewrite app_nil_r. destruct ops as [|top ops]; [reflexivity|].
    simpl. destruct Hops as [-> | (d & -> & Hlt)]; [reflexivity|].
    apply Z.leb_gt in Hlt. rewrite Hlt. now rewrite andb_false_r.
  - cbn [app pop_geq map]. rewrite Ht, Hd.
    apply Z.leb_le in Hle. rewrite Hle. cbn [negb andb].
    rewrite IH. now rewrite <- app_assoc.
Qed.

Lemma mulop_token_desc t :
  is_mulop_token t = true ->
  eqb t (lit "(") = false
  /\ exists d, Engine.operators t = Some d /\ Engine.precedence d = 2%Z.
Proof.
  unfold is_mulop_token. intros H. apply orb_prop in H as [H|H];
    apply eqb_eq in H; subst; split; try reflexivity; eexists; split;
    reflexivity.
Qed.

Lemma addop_token_desc t :
  is_addop_token t = true ->
  eqb t (lit "(") = false
  /\ exists d, Engine.operators t = Some d /\ Engine.precedence d = 1%Z.
Proof.
  unfold is_addop_token. intros H. apply orb_prop in H as [H|H];
    apply eqb_eq in H; subst; split; try reflexivity; eexists; split;
    reflexivity.
Qed.

Lemma operator_token_desc t :
  is_operator_token t = true ->
  eqb t (lit "(") = false
  /\ exists d, Engine.operators t = Some d /\ (1 <= Engine.precedence d)%Z.
Proof.
  unfold is_operator_token. destruct t as [|c [|c' t]]; try discriminate.
  intros H. apply operator_cases in H.
  repeat destruct H as [H|H]; subst; split; try reflexivity; eexists; split;
    try reflexivity; simpl; lia.
Qed.

Lemma mulop_is_operator t :
  is_mulop_token t = true -> is_operator_token t = true.
Proof.
  unfold is_mulop_token. intros H. apply orb_prop in H as [H|H];
    apply eqb_eq in H; subst; reflexivity.
Qed.

Lemma operator_tokens_no_paren p :
  forallb is_operator_token p = true -> ~ In (lit "(") p.
Proof.
  intros H Hin. rewrite forallb_forall in H. apply H in Hin. discriminate.
Qed.

(** Before a multiplicative operator is pushed, the multiplicative
    operators on top of the stack are popped. *)
Lemma step_mulop o out p ops :
  forallb is_mulop_token p = true -> at_paren_or_addop ops = true ->
  Engine.step (out, p ++ ops) (mulop_symbol o)
  = Ok (out ++ map ISym p, mulop_symbol o :: ops).
Proof.
  intros Hp Hops.
  assert (E : exists d, Engine.operators (mulop_symbol o) = Some d
                        /\ Engine.precedence d = 2%Z).
  { destruct o; eexists; split; reflexivity. }
  destruct E as (d & Ed & Hd).
  assert (S : Engine.step (out, p ++ ops) (mulop_symbol o)
              = (let '(out', ops') := pop_geq d out (p ++ ops) in
                 Ok (out', mulop_symbol o :: ops'))).
  { apply step_operator; now destruct o. }
  rewrite S.
  rewrite pop_geq_all; [reflexivity| |].
  - apply Forall_forall. intros t Hin. rewrite forallb_forall in Hp.
    destruct (mulop_token_desc t (Hp t Hin)) as (H1 & d' & H2 & H3).
    split; [exact H1|]. exists d'. split; [exact H2 | lia].
  - destruct ops as [|top ops]; [exact I|]. simpl in Hops.
    apply orb_prop in Hops as [H|H]; [now left|right].
    destruct (addop_token_desc top H) as (_ & d' & H2 & H3).
    exists d'. split; [exact H2 | lia].
Qed.

(** Before an additive operator is pushed, every operator down to the
    parenthesis, or to the bottom, is popped. *)
Lemma step_addop o out p ops :
  forallb is_operator_token p = true -> at_paren ops = true ->
  Engine.step (out, p ++ ops) (addop_symbol o)
  = Ok (out ++ map ISym p, addop_symbol o :: ops).
Proof.
  intros Hp Hops.
  assert (E : exists d, Engine.operators (addop_symbol o) = Some d
                        /\ Engine.precedence d = 1%Z).
  { destruct o; eexists; split; reflexivity. }
  destruct E as (d & Ed & Hd).
  assert (S : Engine.step (out, p ++ ops) (addop_symbol o)
              = (let '(out', ops') := pop_geq d out (p ++ ops) in
                 Ok (out', addop_symbol o :: ops'))).
  { apply step_operator; now destruct o. }
  rewrite S.
  rewrite pop_geq_all; [reflexivity| |].
  - apply Forall_forall. intros t Hin. rewrite forallb_forall in Hp.
    destruct (operator_token_desc t (Hp t Hin)) as (H1 & d' & H2 & H3).
    split; [exact H1|]. exists d'. split; [exact H2 | lia].
  - destruct ops as [|top ops]; [exact I|]. now left.
Qed.

Lemma steps_valid :
  (forall e, valid_expr e = true ->
     forall out ops, at_paren ops = true ->
     exists out' p,
       Engine.steps (out, ops) (tokens_expr e) = Ok (out', p ++ ops)
       /\ out' ++ map ISym p = out ++ postfix_expr e
       /\ forallb is_operator_token p = true)
  /\ (forall t, valid_term t = true ->
        forall out ops, at_paren_or_addop ops = true ->
        exists out' p,
          Engine.steps (out, ops) (tokens_term t) = Ok (out', p ++ ops)
          /\ out' ++ map ISym p = out ++ postfix_term t
          /\ forallb is_mulop_token p = true)
  /\ (forall f, valid_factor f = true ->
        forall out ops,
          Engine.steps (out, ops) (tokens_factor f)
          = Ok (out ++ postfix_factor f, ops)).
Proof.
  apply syntax_mutind.
  - (* a term alone *)
    intros t IHt H out ops Hops. simpl in *.
    destruct (IHt H out ops) as (out' & p & H1 & H2 & H3).
    { destruct ops; [reflexivity|]. simpl in *. now rewrite Hops. }
    exists out', p. repeat split; auto.
    apply forallb_forall. intros x Hin. rewrite forallb_forall in H3.
    apply mulop_is_operator. auto.
  - (* e o t *)
    intros e IHe o t IHt H out ops Hops. simpl in H.
    apply andb_prop in H as [He Ht].
    destruct (IHe He out ops Hops) as (out1 & p1 & H1 & H2 & H3).
    destruct (IHt Ht (out1 ++ map ISym p1) (addop_symbol o :: ops))
      as (out2 & p2 & H4 & H5 & H6).
    { now destruct o. }
    exists out2, (p2 ++ [addop_symbol o]). split; [|split].
    + cbn [tokens_expr]. rewrite steps_app, H1. cbn [bind Engine.steps].
      rewrite step_addop by assumption. cbn [bind].
      rewrite H4. now rewrite <- app_assoc.
    + rewrite map_app, app_assoc, H5, H2. cbn [postfix_expr map].
      now rewrite <- !app_assoc.
    + rewrite forallb_app. rewrite forallb_forall in H6.
      replace (forallb is_operator_token p2) with true.
      * now destruct o.
      * symmetry. apply forallb_forall. intros x Hin.
        apply mulop_is_operator. auto.
  - (* a factor alone *)
    intros f IHf H out ops Hops. simpl in *.
    exists (out ++ postfix_factor f), []. rewrite app_nil_r.
    repeat split. now apply IHf.
  - (* t o f *)
    intros t IHt o f IHf H out ops Hops. simpl in H.
    apply andb_prop in H as [Ht Hf].
    destruct (IHt Ht out ops Hops) as (out1 & p1 & H1 & H2 & H3).
    exists ((out1 ++ map ISym p1) ++ postfix_factor f), [mulop_symbol o].
    split; [|split].
    + cbn [tokens_term]. rewrite steps_app, H1. cbn [bind Engine.steps].
      rewrite step_mulop by assumption. cbn [bind].
      now rewrite IHf.
    + rewrite H2. cbn [postfix_term map]. now rewrite <- !app_assoc.
    + now destruct o.
  - (* a literal *)
    intros l H out ops. simpl in H.
    cbn [tokens_factor postfix_factor Engine.steps].
    rewrite step_number by exact H. now rewrite parseFloat_literal.
  - (* ( e ) *)
    intros e IHe H out ops. simpl in H. cbn [tokens_factor Engine.steps].
    rewrite step_open. cbn [bind].
    destruct (IHe H out (lit "(" :: ops) eq_refl) as (out' & p & H1 & H2 & H3).
    rewrite steps_app, H1. cbn [bind Engine.steps].
    rewrite step_close, close_paren_found
      by now apply operator_tokens_no_paren.
    cbn [bind]. now rewrite H2.
Qed.

Lemma toRPN_show e :
  valid_expr e = true -> Engine.toRPN (show_expr e) = Ok (postfix_expr e).
Proof.
  intros H. unfold Engine.toRPN. rewrite tokenize_show by exact H.
  destruct (proj1 steps_valid e H [] [] eq_refl) as (out & p & H1 & H2 & H3).
  rewrite H1. cbn [bind]. rewrite app_nil_r, drain_spec.
  replace (existsb (eqb (lit "(")) p) with false; [now rewrite H2|].
  symmetry. destruct (existsb (eqb (lit "(")) p) eqn:X; [|reflexivity].
  apply existsb_paren in X. now apply operator_tokens_no_paren in X.
Qed.

(** The postfix form evaluates to the value of the expression. *)
Lemma eval_postfix :
  (forall e st,
      Engine.eval_loop st (postfix_expr e)
      = match value_expr e with
        | Some v => Ok (v :: st)
        | None => Err DivisionByZero
        end)
  /\ (forall t st,
         Engine.eval_loop st (postfix_term t)
         = match value_term t with
           | Some v => Ok (v :: st)
           | None => Err DivisionByZero
           end)
  /\ (forall f st,
         Engine.eval_loop st (postfix_factor f)
         = match value_factor f with
           | Some v => Ok (v :: st)
           | None => Err DivisionByZero
           end).
Proof.
  apply syntax_mutind; cbn [postfix_expr postfix_term postfix_factor
                            value_expr value_term value_factor].
  - auto.
  - intros e IHe o t IHt st. rewrite eval_loop_app, IHe.
    destruct (value_expr e) as [a|]; [|reflexivity]. cbn [bind].
    rewrite eval_loop_app, IHt.
    destruct (value_term t) as [b|]; [|reflexivity]. cbn [bind].
    now destruct o.
  - auto.
  - intros t IHt o f IHf st. rewrite eval_loop_app, IHt.
    destruct (value_term t) as [a|]; [|reflexivity]. cbn [bind].
    rewrite eval_loop_app, IHf.
    destruct (value_factor f) as [b|]; [|reflexivity]. cbn [bind].
    destruct o.
    + reflexivity.
    + cbn [Engine.eval_loop]. rewrite eval_step_div.
      destruct b; reflexivity.
  - reflexivity.
  - auto.
Qed.

Lemma calculate_show e :
  valid_expr e = true ->
  Engine.calculate (show_expr e)
  = match value_expr e with
    | Some v => Ok (formatResult v)
    | None => Err DivisionByZero
    end.
Proof.
  intros H.
  assert (S : Engine.strip (show_expr e) = show_expr e)
    by (apply strip_allowed; now apply show_allowed).
  unfold Engine.calculate. rewrite S, show_passes_validation by exact H.
  cbn [negb]. rewrite toRPN_show by exact H. cbn [bind].
  unfold Engine.evaluateRPN, Engine.stack_result.
  rewrite (proj1 eval_postfix).
  destruct (value_expr e); reflexivity.
Qed.

End ShuntingYard.

(* ================================================================== *)
(** ** Valid expressions evaluate to their value (claim C1) *)


(** C1 (as the code has it). Let the input, white space apart, be the
    text of an expression of the grammar
    [expr ::= term | expr (+|-) term], [term ::= factor | term ( * | / ) factor],
    [factor ::= literal | ( expr )].  Then [calculate] returns the value
    of the expression, computed in binary64 arithmetic with [*] and [/]
    binding tighter than [+] and [-] and equal-precedence operators taken
    from left to right, after the normalisation of results; it fails with
    [DivisionByZero] when some divisor is zero, and in no other way.  In
    particular ["2+2*3"] gives 8 and ["8-3-2"] gives 3, not 7. *)
Theorem valid_expression_value :
  (forall e s,
      valid_expr e = true -> Engine.strip s = show_expr e ->
      Engine.calculate s
      = match value_expr e with
        | Some v => Ok (formatResult v)
        | None => Err DivisionByZero
        end)
  /\ Engine.calculate (lit "2+2*3") = Ok (parseFloat (lit "8"))
  /\ Engine.calculate (lit "8-3-2") = Ok (parseFloat (lit "3"))
  /\ Engine.calculate (lit "8-3-2") <> Engine.calculate (lit "8-(3-2)").
Proof.
  split; [|split; [|split]]; try (vm_compute; reflexivity).
  - intros e s Hv Hs. rewrite <- (calculate_show e Hv).
    apply calculate_strip. rewrite Hs. symmetry.
    apply strip_allowed. now apply show_allowed.
  - vm_compute. discriminate.
Qed.

Lemma valid_expression_value_witness :
  Engine.calculate (lit " 2 + 2*3 ")
  = match
      value_expr
        (EBin (ETerm (TFactor (FLit (lit "2")))) OAdd
              (TBin (TFactor (FLit (lit "2"))) OMul (FLit (lit "3"))))
    with
    | Some v => Ok (formatResult v)
    | None => Err DivisionByZero
    end.
Proof.
  apply (proj1 valid_expression_value); reflexivity.
Defined.

(** C1 as stated fails: ["5/0"] is a valid infix expression and the
    result is an error, and the value returned for ["1/3"] is not the
    quotient but its rounding to 8 decimals. *)
Lemma valid_expression_not_always_its_value :
  ~ (forall e, valid_expr e = true ->
               exists v, Engine.calculate (show_expr e) = Ok v)
  /\ ~ (forall e v, valid_expr e = true -> value_expr e = Some v ->
                    Engine.calculate (show_expr e) = Ok v).
Proof.
  split.
  - intros H.
    destruct (H (ETerm (TBin (TFactor (FLit (lit "5"))) ODiv (FLit (lit "0"))))
                eq_refl) as [v Hv].
    vm_compute in Hv. discriminate.
  - intros H.
    specialize (H (ETerm (TBin (TFactor (FLit (lit "1"))) ODiv (FLit (lit "3"))))
                  _ eq_refl eq_refl).
    vm_compute in H. discriminate.
Qed.

(* ================================================================== *)
(** ** Counting numbers and operators *)

Section Counting.

Lemma count_numbers_app a b :
  count_numbers (a ++ b) = count_numbers a + count_numbers b.
Proof. unfold count_numbers. now rewrite filter_app, length_app. Qed.

Lemma count_symbols_app a b :
  count_symbols (a ++ b) = count_symbols a + count_symbols b.
Proof. unfold count_symbols. now rewrite filter_app, length_app. Qed.

Lemma count_numbers_syms p : count_numbers (map ISym p) = 0.
Proof. induction p; simpl; auto. Qed.

Lemma count_symbols_syms p : count_symbols (map ISym p) = length p.
Proof.
  induction p as [|t p IH]; [reflexivity|].
  unfold count_symbols in *. simpl. now rewrite IH.
Qed.

Lemma count_pending_app a b :
  count_pending (a ++ b) = count_pending a + count_pending b.
Proof. unfold count_pending. now rewrite filter_app, length_app. Qed.

Lemma count_pending_no_paren p :
  ~ In (lit "(") p -> count_pending p = length p.
Proof.
  unfold count_pending. induction p as [|t p IH]; [reflexivity|].
  intros H. simpl. destruct (eqb t (lit "(")) eqn:E.
  - apply eqb_eq in E. subst. destruct H. now left.
  - simpl. rewrite IH; [reflexivity|]. intros Hin. apply H. now right.
Qed.

(** Each operator consumes one value more than it produces. *)
Lemma eval_loop_count rpn : forall st st',
  Engine.eval_loop st rpn = Ok st' ->
  length st' + count_symbols rpn = length st + count_numbers rpn.
Proof.
  induction rpn as [|i rpn IH]; intros st st'; simpl.
  - intros [= <-]. unfold count_symbols, count_numbers. simpl. lia.
  - destruct (Engine.eval_step st i) as [st1|e] eqn:E; simpl; [|discriminate].
    intros H. apply IH in H.
    change (i :: rpn) with ([i] ++ rpn).
    rewrite count_symbols_app, count_numbers_app.
    destruct i as [x|s]; simpl in E.
    + injection E as <-. simpl in H. cbn. lia.
    + destruct st as [|b [|a st]]; try discriminate.
      destruct (Engine.operators s) as [d|]; [|discriminate].
      destruct (Engine.operation d a b) as [v|]; [|discriminate].
      simpl in E. injection E as <-. simpl in *. cbn. lia.
Qed.

Lemma evaluateRPN_count rpn v :
  Engine.evaluateRPN rpn = Ok v -> count_numbers rpn = count_symbols rpn + 1.
Proof.
  unfold Engine.evaluateRPN, Engine.stack_result.
  destruct (Engine.eval_loop [] rpn) as [st|e] eqn:E; simpl; [|discriminate].
  destruct st as [|x [|y st]]; simpl; try discriminate. intros _.
  apply eval_loop_count in E. simpl in E. lia.
Qed.

Lemma count_pending_cons t ops :
  count_pending (t :: ops)
  = (if eqb t (lit "(") then 0 else 1) + count_pending ops.
Proof. unfold count_pending. simpl. now destruct (eqb t (lit "(")). Qed.

Lemma count_numbers_sym out t : count_numbers (out ++ [ISym t]) = count_numbers out.
Proof. rewrite count_numbers_app. cbn. lia. Qed.

Lemma count_symbols_sym out t :
  count_symbols (out ++ [ISym t]) = count_symbols out + 1.
Proof. now rewrite count_symbols_app. Qed.

Lemma pop_geq_count d ops : forall out out' ops',
  pop_geq d out ops = (out', ops') ->
  count_numbers out' = count_numbers out
  /\ count_symbols out' + count_pending ops'
     = count_symbols out + count_pending ops.
Proof.
  induction ops as [|t ops IH]; intros out out' ops'; simpl.
  - intros [= <- <-]. auto.
  - rewrite count_pending_cons.
    destruct (eqb t (lit "(")) eqn:E; simpl.
    + intros [= <- <-]. rewrite count_pending_cons, E. auto.
    + destruct (match Engine.operators t with
                | Some d0 => (Engine.precedence d <=? Engine.precedence d0)%Z
                | None => false
                end).
      * intros H. apply IH in H as [H1 H2].
        rewrite count_numbers_sym in H1. rewrite count_symbols_sym in H2.
        split; [exact H1 | lia].
      * intros [= <- <-]. rewrite count_pending_cons, E. auto.
Qed.

Lemma close_paren_ok out ops out' ops' :
  Engine.close_paren out ops = Ok (out', ops') ->
  exists p, ops = p ++ lit "(" :: ops' /\ out' = out ++ map ISym p
            /\ ~ In (lit "(") p.
Proof.
  destruct (split_at_paren ops) as [H|(p & rest & -> & Hp)].
  - rewrite close_paren_missing by exact H. discriminate.
  - rewrite close_paren_found by exact Hp. intros [= <- <-]. eauto.
Qed.

Lemma literal_not_operator l :
  is_literal l = true -> is_operator_token l = false.
Proof.
  intros H. unfold is_operator_token.
  destruct l as [|c [|d l]]; try reflexivity.
  destruct (is_operator c) eqn:E; [|reflexivity].
  assert (O : is_op_or_paren c = true).
  { unfold is_operator in E. unfold is_op_or_paren.
    rewrite !orb_true_iff in *. tauto. }
  apply op_not_literal in O. congruence.
Qed.

Lemma step_count out ops t out' ops' :
  is_literal t = true \/ (exists c, t = [c] /\ is_op_or_paren c = true) ->
  Engine.step (out, ops) t = Ok (out', ops') ->
  count_numbers out' = count_numbers out + count_number_tokens [t]
  /\ count_symbols out' + count_pending ops'
     = count_symbols out + count_pending ops + count_operator_tokens [t].
Proof.
  unfold count_number_tokens, count_operator_tokens, is_number_token.
  cbn [filter]. rewrite test_number.
  intros [H|(c & -> & H)].
  - rewrite step_number by exact H. intros [= <- <-].
    rewrite H, literal_not_operator by exact H.
    rewrite count_numbers_app, count_symbols_app. cbn. lia.
  - rewrite (op_not_literal _ H).
    apply symbol_cases in H as [E|[E|H]].
    + rewrite E, step_open. intros [= <- <-].
      rewrite count_pending_cons, eqb_refl.
      change (is_operator_token (lit "(")) with false.
      cbn [filter length]. lia.
    + rewrite E, step_close. intros C.
      apply close_paren_ok in C as (p & -> & -> & Hp).
      rewrite count_numbers_app, count_symbols_app, count_pending_app.
      rewrite count_numbers_syms, count_symbols_syms.
      rewrite (count_pending_no_paren p Hp).
      rewrite count_pending_cons, eqb_refl.
      change (is_operator_token (lit ")")) with false.
      cbn [filter length]. lia.
    + pose proof H as Hop. apply operators_symbol in H as [d Hd].
      destruct (operator_token_tests c Hop) as (H1 & H2 & H3).
      rewrite (step_operator_char out ops c d Hop Hd).
      destruct (pop_geq d out ops) as [o1 p1] eqn:P.
      intros [= <- <-]. apply pop_geq_count in P as [P1 P2].
      unfold is_operator_token. rewrite Hop.
      rewrite count_pending_cons, H2. cbn [filter length]. lia.
Qed.

Lemma count_number_tokens_app a b :
  count_number_tokens (a ++ b) = count_number_tokens a + count_number_tokens b.
Proof. unfold count_number_tokens. now rewrite filter_app, length_app. Qed.

Lemma count_operator_tokens_app a b :
  count_operator_tokens (a ++ b)
  = count_operator_tokens a + count_operator_tokens b.
Proof. unfold count_operator_tokens. now rewrite filter_app, length_app. Qed.

Lemma steps_count toks : forall out ops out' ops',
  Forall (fun t => is_literal t = true
                   \/ exists c, t = [c] /\ is_op_or_paren c = true) toks ->
  Engine.steps (out, ops) toks = Ok (out', ops') ->
  count_numbers out' = count_numbers out + count_number_tokens toks
  /\ count_symbols out' + count_pending ops'
     = count_symbols out + count_pending ops + count_operator_tokens toks.
Proof.
  induction toks as [|t toks IH]; intros out ops out' ops' Hwf;
    cbn [Engine.steps].
  - intros [= <- <-]. cbn. lia.
  - inversion Hwf as [|t' toks' Ht Htoks]; subst.
    destruct (Engine.step (out, ops) t) as [[o1 p1]|e] eqn:E; cbn [bind];
      [|discriminate].
    intros H. apply IH in H as [H1 H2]; [|exact Htoks].
    apply step_count in E as [E1 E2]; [|exact Ht].
    change (t :: toks) with ([t] ++ toks).
    rewrite count_number_tokens_app, count_operator_tokens_app. lia.
Qed.

(** The postfix sequence has the numbers and the operators of the input. *)
Lemma toRPN_count s rpn :
  Engine.toRPN s = Ok rpn ->
  count_numbers rpn = count_number_tokens (Engine.tokenize s)
  /\ count_symbols rpn = count_operator_tokens (Engine.tokenize s).
Proof.
  unfold Engine.toRPN.
  destruct (Engine.steps ([], []) (Engine.tokenize s)) as [[out ops]|e] eqn:E;
    simpl; [|discriminate].
  rewrite drain_spec.
  destruct (existsb (eqb (lit "(")) ops) eqn:X; [discriminate|].
  intros [= <-].
  apply steps_count in E as [E1 E2]; [|apply tokenize_well_formed].
  rewrite count_numbers_app, count_symbols_app.
  rewrite count_numbers_syms, count_symbols_syms.
  rewrite count_pending_no_paren in E2.
  - cbn in E1, E2. lia.
  - intros Hin. apply existsb_paren in Hin. congruence.
Qed.

(** A successful evaluation has one number more than it has operators. *)
Lemma calculate_count s v :
  Engine.calculate s = Ok v ->
  count_number_tokens (Engine.tokenize (Engine.strip s))
  = count_operator_tokens (Engine.tokenize (Engine.strip s)) + 1.
Proof.
  unfold Engine.calculate.
  destruct (test_whole re_allowed (Engine.strip s)); [|discriminate].
  cbn [negb].
  destruct (Engine.toRPN (Engine.strip s)) as [rpn|e] eqn:E; [|discriminate].
  cbn [bind]. intros H. apply evaluateRPN_count in H.
  apply toRPN_count in E as [E1 E2]. lia.
Qed.

(** A valid expression has one literal more than it has operators. *)
Lemma tokens_count :
  (forall e, valid_expr e = true ->
     count_number_tokens (tokens_expr e)
     = count_operator_tokens (tokens_expr e) + 1)
  /\ (forall t, valid_term t = true ->
        count_number_tokens (tokens_term t)
        = count_operator_tokens (tokens_term t) + 1)
  /\ (forall f, valid_factor f = true ->
        count_number_tokens (tokens_factor f)
        = count_operator_tokens (tokens_factor f) + 1).
Proof.
  apply syntax_mutind; cbn [tokens_expr tokens_term tokens_factor
                            valid_expr valid_term valid_factor].
  - auto.
  - intros e IHe o t IHt H. apply andb_prop in H as [He Ht].
    change (addop_symbol o :: tokens_term t)
      with ([addop_symbol o] ++ tokens_term t).
    rewrite !count_number_tokens_app, !count_operator_tokens_app.
    rewrite (IHe He), (IHt Ht). destruct o; cbn; lia.
  - auto.
  - intros t IHt o f IHf H. apply andb_prop in H as [Ht Hf].
    change (mulop_symbol o :: tokens_factor f)
      with ([mulop_symbol o] ++ tokens_factor f).
    rewrite !count_number_tokens_app, !count_operator_tokens_app.
    rewrite (IHt Ht), (IHf Hf). destruct o; cbn; lia.
  - intros l H. unfold count_number_tokens, count_operator_tokens.
    cbn [filter]. unfold is_number_token.
    now rewrite test_number, H, literal_not_operator.
  - intros e IHe H.
    change (lit "(" :: tokens_expr e ++ [lit ")"])
      with ([lit "("] ++ tokens_expr e ++ [lit ")"]).
    rewrite !count_number_tokens_app, !count_operator_tokens_app.
    rewrite (IHe H). cbn. lia.
Qed.

End Counting.

(* ================================================================== *)
(** ** A leading operator (claim C10) *)

Section LeadingOperator.

Lemma operator_is_symbol c : is_operator c = true -> is_op_or_paren c = true.
Proof.
  unfold is_operator, is_op_or_paren. rewrite !orb_true_iff. tauto.
Qed.

Lemma operator_allowed c : is_operator c = true -> is_allowed c = true.
Proof.
  intros H. unfold is_allowed. rewrite (operator_is_symbol _ H).
  now rewrite orb_true_r.
Qed.

Lemma step_first_operator c :
  is_operator c = true -> Engine.step ([], []) [c] = Ok ([], [[c]]).
Proof.
  intros H. apply operator_cases in H.
  repeat destruct H as [H|H]; subst; reflexivity.
Qed.

Lemma calculate_sign_literal c l :
  is_operator c = true -> is_literal l = true ->
  Engine.calculate (c :: l) = Err InvalidExpression.
Proof.
  intros Hc Hl.
  assert (A : forallb is_allowed (c :: l) = true).
  { simpl. now rewrite operator_allowed, literal_allowed. }
  unfold Engine.calculate. rewrite strip_allowed by exact A.
  replace (test_whole re_allowed (c :: l)) with true
    by (symmetry; apply test_allowed; split; [discriminate | exact A]).
  cbn [negb]. unfold Engine.toRPN.
  rewrite tokenize_symbol by now apply operator_is_symbol.
  rewrite <- (app_nil_r l) at 1.
  rewrite tokenize_literal by (exact Hl || reflexivity).
  change (Engine.tokenize []) with (@nil jsstring).
  cbn [Engine.steps]. rewrite step_first_operator by exact Hc.
  cbn [bind]. rewrite step_number by exact Hl. cbn [bind].
  rewrite drain_spec.
  replace (existsb (eqb (lit "(")) [[c]]) with false.
  - reflexivity.
  - apply operator_cases in Hc.
    repeat destruct Hc as [Hc|Hc]; subst; reflexivity.
Qed.

End LeadingOperator.

(** C10 (as the code has it). An operator in front of a valid expression
    is never accepted: [calculate] does not return [Ok]; in front of a
    number literal alone the failure is [InvalidExpression], the operator
    finding one value on the stack.  In particular ["-5"] fails with
    [InvalidExpression]. *)
Theorem leading_operator_rejected :
  (forall c e s,
      is_operator c = true -> valid_expr e = true ->
      Engine.strip s = c :: show_expr e ->
      forall v, Engine.calculate s <> Ok v)
  /\ (forall c l s,
         is_operator c = true -> is_literal l = true ->
         Engine.strip s = c :: l ->
         Engine.calculate s = Err InvalidExpression)
  /\ Engine.calculate (lit "-5") = Err InvalidExpression.
Proof.
  split; [|split; [|reflexivity]].
  - intros c e s Hc He Hs v H. apply calculate_count in H.
    rewrite Hs in H.
    rewrite tokenize_symbol in H by now apply operator_is_symbol.
    rewrite tokenize_show in H by exact He.
    change ([c] :: tokens_expr e) with ([[c]] ++ tokens_expr e) in H.
    rewrite count_number_tokens_app, count_operator_tokens_app in H.
    rewrite (proj1 tokens_count e He) in H.
    assert (N0 : count_number_tokens [[c]] = 0).
    { unfold count_number_tokens, is_number_token. cbn [filter].
      rewrite test_number, op_not_literal by now apply operator_is_symbol.
      reflexivity. }
    assert (O1 : count_operator_tokens [[c]] = 1).
    { unfold count_operator_tokens, is_operator_token. cbn [filter].
      now rewrite Hc. }
    lia.
  - intros c l s Hc Hl Hs.
    rewrite <- (calculate_sign_literal c l Hc Hl).
    apply calculate_strip. rewrite Hs. symmetry. apply strip_allowed.
    simpl. now rewrite operator_allowed, literal_allowed.
Qed.

Lemma leading_operator_rejected_witness :
  (forall v, Engine.calculate (lit "- 2*3") <> Ok v)
  /\ Engine.calculate (lit " -5") = Err InvalidExpression.
Proof.
  destruct leading_operator_rejected as (H1 & H2 & _).
  split.
  - apply (H1 (ch "-")
              (ETerm (TBin (TFactor (FLit (lit "2"))) OMul (FLit (lit "3")))));
      reflexivity.
  - apply (H2 (ch "-") (lit "5")); reflexivity.
Defined.

(** C10 as stated fails: an input that begins with an operator can be
    accepted when what follows is not an expression; ["-(5)3"] gives 2. *)
Lemma leading_operator_may_be_accepted :
  ~ (forall s c rest,
        Engine.strip s = c :: rest -> is_operator c = true ->
        forall v, Engine.calculate s <> Ok v).
Proof.
  intros H.
  apply (H (lit "-(5)3") (ch "-") (lit "(5)3") eq_refl eq_refl
           (parseFloat (lit "2"))).
  vm_compute. reflexivity.
Qed.

(* ================================================================== *)
(** ** The two copies of the algorithm (claim C8) *)

Section Copies.

Lemma tables_agree k :
  Script.precedence k = option_map Engine.precedence (Engine.operators k).
Proof.
  unfold Script.precedence, Engine.operators.
  destruct (eqb k (lit "+")); [reflexivity|].
  destruct (eqb k (lit "-")); [reflexivity|].
  destruct (eqb k (lit "*")); [reflexivity|].
  destruct (eqb k (lit "/")); reflexivity.
Qed.

Lemma pop_to_paren_same out ops :
  Script.pop_to_paren out ops = Engine.pop_to_paren out ops.
Proof.
  revert out. induction ops as [|t ops IH]; intros out; simpl; [reflexivity|].
  destruct (eqb t (lit "(")); [reflexivity | apply IH].
Qed.

Lemma close_paren_same out ops :
  Script.close_paren out ops = Engine.close_paren out ops.
Proof.
  unfold Script.close_paren, Engine.close_paren.
  now rewrite pop_to_paren_same.
Qed.

Lemma pop_while_geq_same token d out ops :
  Engine.operators token = Some d ->
  Script.pop_while_geq token out ops = pop_geq d out ops.
Proof.
  intros Hd. revert out. induction ops as [|t ops IH]; intros out; simpl;
    [reflexivity|].
  rewrite !tables_agree, Hd.
  destruct (Engine.operators t) as [d'|]; simpl.
  - destruct (negb (eqb t (lit "(")) && (Engine.precedence d <=? Engine.precedence d')%Z);
      [apply IH | reflexivity].
  - now rewrite andb_false_r.
Qed.

Lemma drain_same out ops : Script.drain out ops = Engine.drain out ops.
Proof.
  revert out. induction ops as [|t ops IH]; intros out; simpl; [reflexivity|].
  destruct (eqb t (lit "(")); [reflexivity | apply IH].
Qed.

Lemma step_same st t :
  is_literal t = true \/ (exists c, t = [c] /\ is_op_or_paren c = true) ->
  Script.step st t = Engine.step st t.
Proof.
  destruct st as [out ops]. intros [H|(c & -> & H)].
  - rewrite step_number by exact H. unfold Script.step.
    now rewrite test_number, H.
  - apply symbol_cases in H as [E|[E|H]].
    + now rewrite E.
    + rewrite E, step_close.
      change (Script.step (out, ops) (lit ")"))
        with (Script.close_paren out ops).
      apply close_paren_same.
    + pose proof H as Hop. apply operators_symbol in H as [d Hd].
      destruct (operator_token_tests c Hop) as (H1 & H2 & H3).
      rewrite (step_operator_char out ops c d Hop Hd).
      unfold Script.step. rewrite H1, H2, H3.
      now rewrite (pop_while_geq_same _ d) by exact Hd.
Qed.

Lemma steps_same toks : forall st,
  Forall (fun t => is_literal t = true
                   \/ exists c, t = [c] /\ is_op_or_paren c = true) toks ->
  Script.steps st toks = Engine.steps st toks.
Proof.
  induction toks as [|t toks IH]; intros st Hwf; [reflexivity|].
  inversion Hwf as [|t' toks' Ht Htoks]; subst.
  cbn [Script.steps Engine.steps]. rewrite step_same by exact Ht.
  destruct (Engine.step st t); cbn [bind]; [now apply IH | reflexivity].
Qed.

(** The symbols that reach the output are operators. *)
Lemma pop_geq_split d ops : forall out out' ops',
  pop_geq d out ops = (out', ops') ->
  exists p, ops = p ++ ops' /\ out' = out ++ map ISym p
            /\ ~ In (lit "(") p.
Proof.
  assert (Stop : forall (out : list item) (ops : list jsstring),
             exists p, ops = p ++ ops /\ out = out ++ map ISym p
                       /\ ~ In (lit "(") p).
  { intros out ops0. exists []. simpl. rewrite app_nil_r.
    repeat split. intros []. }
  induction ops as [|t ops IH]; intros out out' ops';
    cbn [pop_geq].
  - intros [= <- <-]. apply Stop.
  - destruct (eqb t (lit "(")) eqn:E; cbn [negb andb].
    + intros [= <- <-]. apply Stop.
    + destruct (match Engine.operators t with
                | Some d0 => (Engine.precedence d <=? Engine.precedence d0)%Z
                | None => false
                end).
      * intros H. apply IH in H as (p & -> & -> & Hp).
        exists (t :: p). repeat split.
        -- simpl. now rewrite <- app_assoc.
        -- apply eqb_neq in E. intros [H|Hin]; [congruence | auto].
      * intros [= <- <-]. apply Stop.
Qed.

Lemma popped_are_operators p :
  Forall stack_entry p -> ~ In (lit "(") p ->
  Forall operator_item (map ISym p).
Proof.
  induction 1 as [|t p [->|Ht] _ IH]; intros Hn; simpl; constructor.
  - destruct Hn. now left.
  - apply IH. intros Hin. apply Hn. now right.
  - exact Ht.
  - apply IH. intros Hin. apply Hn. now right.
Qed.

Lemma step_entries out ops t out' ops' :
  is_literal t = true \/ (exists c, t = [c] /\ is_op_or_paren c = true) ->
  Forall operator_item out -> Forall stack_entry ops ->
  Engine.step (out, ops) t = Ok (out', ops') ->
  Forall operator_item out' /\ Forall stack_entry ops'.
Proof.
  intros Ht Hout Hops.
  destruct Ht as [H|(c & -> & H)].
  - rewrite step_number by exact H. intros [= <- <-]. split; [|exact Hops].
    apply Forall_app. split; [exact Hout|]. repeat constructor.
  - apply symbol_cases in H as [E|[E|H]].
    + rewrite E, step_open. intros [= <- <-]. split; [exact Hout|].
      constructor; [now left | exact Hops].
    + rewrite E, step_close. intros C.
      apply close_paren_ok in C as (p & -> & -> & Hp).
      apply Forall_app in Hops as [Hp' Hr].
      inversion Hr as [|x r _ Hr']; subst. split; [|exact Hr'].
      apply Forall_app. split; [exact Hout|].
      now apply popped_are_operators.
    + pose proof H as Hop. apply operators_symbol in H as [d Hd].
      destruct (operator_token_tests c Hop) as (H1 & H2 & H3).
      rewrite (step_operator_char out ops c d Hop Hd).
      destruct (pop_geq d out ops) as [o1 p1] eqn:P.
      intros [= <- <-].
      apply pop_geq_split in P as (p & -> & -> & Hp).
      apply Forall_app in Hops as [Hp' Hr]. split.
      * apply Forall_app. split; [exact Hout|].
        now apply popped_are_operators.
      * constructor; [|exact Hr]. right. unfold is_operator_token.
        exact Hop.
Qed.

Lemma steps_entries toks : forall out ops out' ops',
  Forall (fun t => is_literal t = true
                   \/ exists c, t = [c] /\ is_op_or_paren c = true) toks ->
  Forall operator_item out -> Forall stack_entry ops ->
  Engine.steps (out, ops) toks = Ok (out', ops') ->
  Forall operator_item out' /\ Forall stack_entry ops'.
Proof.
  induction toks as [|t toks IH]; intros out ops out' ops' Hwf Hout Hops;
    cbn [Engine.steps].
  - intros [= <- <-]. auto.
  - inversion Hwf as [|t' toks' Ht Htoks]; subst.
    destruct (Engine.step (out, ops) t) as [[o1 p1]|e] eqn:E; cbn [bind];
      [|discriminate].
    apply step_entries in E as [E1 E2]; auto.
    now apply IH.
Qed.

Lemma toRPN_operators s rpn :
  Engine.toRPN s = Ok rpn -> Forall operator_item rpn.
Proof.
  unfold Engine.toRPN.
  destruct (Engine.steps ([], []) (Engine.tokenize s)) as [[out ops]|e] eqn:E;
    cbn [bind]; [|discriminate].
  apply steps_entries in E as [E1 E2];
    [|apply tokenize_well_formed|constructor|constructor].
  rewrite drain_spec.
  destruct (existsb (eqb (lit "(")) ops) eqn:X; [discriminate|].
  intros [= <-]. apply Forall_app. split; [exact E1|].
  apply popped_are_operators; [exact E2|].
  intros Hin. apply existsb_paren in Hin. congruence.
Qed.

Lemma eval_step_same st i :
  operator_item i -> Script.eval_step st i = Engine.eval_step st i.
Proof.
  destruct i as [x|s]; [reflexivity|]. simpl.
  unfold is_operator_token. destruct s as [|c [|c' s]]; try discriminate.
  intros H. destruct st as [|b [|a st]]; try reflexivity.
  apply operator_cases in H.
  repeat destruct H as [H|H]; subst; try reflexivity.
  cbn. destruct (strict_eq b zero); reflexivity.
Qed.

Lemma eval_loop_same rpn : forall st,
  Forall operator_item rpn ->
  Script.eval_loop st rpn = Engine.eval_loop st rpn.
Proof.
  induction rpn as [|i rpn IH]; intros st H; [reflexivity|].
  inversion H as [|i' rpn' Hi Hr]; subst.
  cbn [Script.eval_loop Engine.eval_loop]. rewrite eval_step_same by exact Hi.
  destruct (Engine.eval_step st i); cbn [bind]; [now apply IH | reflexivity].
Qed.

End Copies.

(** C8. On every input the engine module and the standalone pipeline of
    [script.js] ([safeCalculate] followed by the formatting applied in
    [calculateResult]) give the same outcome: the same number, or an error
    of the same kind. *)
Theorem copies_agree :
  forall s, Engine.calculate s = Script.formattedResult s.
Proof.
  intros s. unfold Engine.calculate, Script.formattedResult,
    Script.safeCalculate.
  change (replace_all re_spaces [] s) with (Engine.strip s).
  destruct (test_whole re_allowed (Engine.strip s)); [|reflexivity].
  cbn [negb].
  change (match_all re_token (Engine.strip s))
    with (Engine.tokenize (Engine.strip s)).
  rewrite steps_same by apply tokenize_well_formed.
  destruct (Engine.toRPN (Engine.strip s)) as [rpn|e] eqn:T.
  - pose proof (toRPN_operators _ _ T) as Hops. revert T.
    unfold Engine.toRPN.
    destruct (Engine.steps ([], []) (Engine.tokenize (Engine.strip s)))
      as [[out ops]|e]; cbn [bind]; [|discriminate].
    change (Script.drain out ops) with (Engine.drain out ops).
    intros ->. cbn [bind].
    rewrite eval_loop_same by exact Hops.
    unfold Engine.evaluateRPN, Engine.stack_result.
    destruct (Engine.eval_loop [] rpn) as [st|e]; [|reflexivity].
    cbn [bind]. destruct st as [|x [|y st]]; reflexivity.
  - revert T. unfold Engine.toRPN.
    destruct (Engine.steps ([], []) (Engine.tokenize (Engine.strip s)))
      as [[out ops]|e']; cbn [bind].
    + change (Script.drain out ops) with (Engine.drain out ops).
      now intros ->.
    + now intros [= ->].
Qed.

(* ================================================================== *)
(** ** Decimal digits, [toFixed] and [parseFloat] *)

Section Decimal.

Local Open Scope N_scope.

Lemma digit_char_is_digit d : d < 10 -> is_digit (digit_char d) = true.
Proof.
  intros H. unfold is_digit, digit_char.
  apply andb_true_intro. split; apply N.leb_le; lia.
Qed.

Lemma digits_from_acc fuel : forall n acc,
  digits_from fuel n acc = digits_from fuel n [] ++ acc.
Proof.
  induction fuel as [|k IH]; intros n acc; simpl; [reflexivity|].
  destruct (n / 10 =? 0); [reflexivity|].
  rewrite (IH _ (_ :: acc)), (IH _ [_]). now rewrite <- app_assoc.
Qed.

Lemma digits_from_step k n :
  digits_from (S k) n []
  = if n / 10 =? 0 then [digit_char (n mod 10)]
    else digits_from k (n / 10) [] ++ [digit_char (n mod 10)].
Proof.
  simpl. destruct (n / 10 =? 0); [reflexivity|]. apply digits_from_acc.
Qed.

Lemma digits_value_snoc s c :
  digits_value (s ++ [c]) = 10 * digits_value s + (c - 48).
Proof. unfold digits_value. now rewrite fold_left_app. Qed.

Lemma digits_value_digit d : digits_value [digit_char d] = d.
Proof. unfold digits_value, digit_char. cbn [fold_left]. lia. Qed.

Lemma digits_from_value fuel : forall n,
  n < 10 ^ N.of_nat fuel -> digits_value (digits_from fuel n []) = n.
Proof.
  induction fuel as [|k IH]; intros n Hn.
  - simpl in *. assert (n = 0) by lia. now subst.
  - rewrite digits_from_step.
    pose proof (N.div_mod n 10 ltac:(lia)) as D.
    destruct (n / 10 =? 0) eqn:E.
    + apply N.eqb_eq in E. rewrite digits_value_digit. lia.
    + rewrite digits_value_snoc, IH.
      * unfold digit_char. clear Hn E IH.
        set (q := n / 10) in *. set (r := n mod 10) in *.
        clearbody q r. lia.
      * rewrite Nat2N.inj_succ, N.pow_succ_r' in Hn.
        apply N.Div0.div_lt_upper_bound. lia.
Qed.

Lemma digits_from_digits fuel : forall n,
  forallb is_digit (digits_from fuel n []) = true.
Proof.
  induction fuel as [|k IH]; intros n; [reflexivity|].
  rewrite digits_from_step.
  assert (D : is_digit (digit_char (n mod 10)) = true).
  { apply digit_char_is_digit. apply N.mod_lt. lia. }
  destruct (n / 10 =? 0); simpl.
  - now rewrite D.
  - rewrite forallb_app, IH. simpl. now rewrite D.
Qed.

Lemma digits_from_not_nil k n : digits_from (S k) n [] <> [].
Proof.
  rewrite digits_from_step. destruct (n / 10 =? 0); [discriminate|].
  intros H. apply app_eq_nil in H as [_ H]. discriminate.
Qed.

Lemma size_bound n : n < 10 ^ N.of_nat (S (N.to_nat (N.size n))).
Proof.
  rewrite Nat2N.inj_succ, N2Nat.id, N.pow_succ_r'.
  pose proof (N.size_gt n) as H.
  assert (2 ^ N.size n <= 10 ^ N.size n) by (apply N.pow_le_mono_l; lia).
  lia.
Qed.

(** Reading the digits of a number gives the number back. *)
Lemma decimal_digits_value n : digits_value (decimal_digits n) = n.
Proof. apply digits_from_value, size_bound. Qed.

Lemma decimal_digits_digits n : forallb is_digit (decimal_digits n) = true.
Proof. apply digits_from_digits. Qed.

Lemma decimal_digits_not_nil n : decimal_digits n <> [].
Proof. apply digits_from_not_nil. Qed.

Lemma digits_value_zeros k s :
  digits_value (repeat (ch "0") k ++ s) = digits_value s.
Proof.
  unfold digits_value. rewrite fold_left_app. f_equal.
  induction k as [|k IH]; [reflexivity|]. simpl. exact IH.
Qed.

Lemma zeros_digits k : forallb is_digit (repeat (ch "0") k) = true.
Proof. induction k; simpl; auto. Qed.

End Decimal.

(* ================================================================== *)
(** ** The normalisation of results (claim C2) *)

Section Formatting.

Lemma forallb_firstn_skipn {A} (p : A -> bool) n (l : list A) :
  forallb p l = true ->
  forallb p (firstn n l) = true /\ forallb p (skipn n l) = true.
Proof.
  intros H. rewrite <- (firstn_skipn n l), forallb_app in H.
  now apply andb_prop in H.
Qed.

(** The text [toFixed] builds: digits, a point, and [f] digits, which
    read together as the scaled integer. *)
Lemma fixed_point_shape f n :
  exists a b,
    fixed_point (S f) n = a ++ ch "." :: b
    /\ a <> [] /\ forallb is_digit a = true /\ forallb is_digit b = true
    /\ length b = S f /\ digits_value (a ++ b) = n.
Proof.
  unfold fixed_point.
  set (d := decimal_digits n).
  set (m := repeat (ch "0") (S f + 1 - length d) ++ d).
  assert (Lm : S f + 1 <= length m).
  { unfold m. rewrite length_app, repeat_length. lia. }
  assert (Dm : forallb is_digit m = true).
  { unfold m. rewrite forallb_app, zeros_digits. apply decimal_digits_digits. }
  exists (firstn (length m - S f) m), (skipn (length m - S f) m).
  destruct (forallb_firstn_skipn is_digit (length m - S f) m Dm) as [Da Db].
  repeat split; auto.
  - intros E. apply (f_equal (@length char)) in E.
    rewrite length_firstn in E. simpl in E. lia.
  - rewrite length_skipn. lia.
  - rewrite firstn_skipn. unfold m. rewrite digits_value_zeros.
    apply decimal_digits_value.
Qed.

Lemma is_prefix_digit p c s :
  is_digit c = true -> is_prefix (ch "I" :: p) (c :: s) = false.
Proof.
  intros H.
  change (is_prefix (ch "I" :: p) (c :: s))
    with ((ch "I" =? c)%N && is_prefix p s).
  replace (ch "I" =? c)%N with false; [reflexivity|].
  symmetry. apply N.eqb_neq. intros <-. discriminate.
Qed.

Lemma dot_not_digit : is_digit (ch ".") = false.
Proof. reflexivity. Qed.

Lemma parse_unsigned_fixed neg a b :
  a <> [] -> forallb is_digit a = true -> forallb is_digit b = true ->
  parse_unsigned neg (a ++ ch "." :: b)
  = of_decimal neg (digits_value (a ++ b)) (length b).
Proof.
  intros Ha Da Db. unfold parse_unsigned.
  destruct a as [|c a]; [contradiction|].
  change (lit "Infinity") with (ch "I" :: lit "nfinity").
  simpl app at 1. rewrite is_prefix_digit
    by (simpl in Da; now apply andb_prop in Da as [-> _]).
  change (c :: a ++ ch "." :: b) with ((c :: a) ++ ch "." :: b).
  rewrite take_while_app, drop_while_app by exact Da.
  rewrite drop_while_stop by exact dot_not_digit.
  replace (take_while is_digit (ch "." :: b)) with (@nil char) by reflexivity.
  replace (is_dot (ch ".")) with true by reflexivity.
  rewrite app_nil_r, take_while_forall by exact Db.
  reflexivity.
Qed.

Lemma digit_not_sign c :
  is_digit c = true -> (c =? ch "-")%N = false /\ (c =? ch "+")%N = false.
Proof.
  intros H. split; apply N.eqb_neq; intros ->; discriminate.
Qed.

(** Reading back what [toFixed] wrote. *)
Lemma parseFloat_toFixed f s m e :
  parseFloat (toFixed (S f) (S754_finite s m e))
  = of_decimal s (nearest_scaled (S f) m e) (S f).
Proof.
  unfold toFixed.
  destruct (fixed_point_shape f (nearest_scaled (S f) m e))
    as (a & b & -> & Ha & Da & Db & Lb & V).
  destruct s.
  - change (lit "-" ++ a ++ ch "." :: b) with (ch "-" :: a ++ ch "." :: b).
    unfold parseFloat. rewrite N.eqb_refl.
    rewrite parse_unsigned_fixed by assumption. now rewrite V, Lb.
  - destruct a as [|c a']; [contradiction|].
    assert (Dc : is_digit c = true)
      by (simpl in Da; now apply andb_prop in Da as [-> _]).
    destruct (digit_not_sign c Dc) as [H1 H2].
    change ([] ++ (c :: a') ++ ch "." :: b) with (c :: a' ++ ch "." :: b).
    unfold parseFloat. rewrite H1, H2.
    change (c :: a' ++ ch "." :: b) with ((c :: a') ++ ch "." :: b).
    rewrite parse_unsigned_fixed by (assumption || discriminate).
    now rewrite V, Lb.
Qed.

Lemma formatResult_normalise x : formatResult x = normalise x.
Proof.
  unfold formatResult, normalise.
  destruct (isInteger x) eqn:E; [reflexivity|].
  destruct x as [s|s| |s m e].
  - discriminate E.
  - now destruct s.
  - reflexivity.
  - apply parseFloat_toFixed.
Qed.

(** [nearest_scaled] is a nearest integer, the larger of two. *)
Lemma nearest_scaled_fraction f m p :
  let n := nearest_scaled f m (Zneg p) in
  let a := (Npos m * 10 ^ N.of_nat f)%N in
  (2 * n * 2 ^ Npos p <= 2 * a + 2 ^ Npos p
   /\ 2 * a + 2 ^ Npos p < 2 * (n + 1) * 2 ^ Npos p)%N.
Proof.
  intros n a. unfold n, nearest_scaled. fold a.
  replace (2 ^ (N.pos p + 1))%N with (2 * 2 ^ N.pos p)%N
    by (rewrite N.pow_add_r; simpl; lia).
  set (q := (2 ^ N.pos p)%N).
  assert (Hq : (0 < 2 * q)%N).
  { unfold q. pose proof (N.pow_nonzero 2 (N.pos p)). lia. }
  pose proof (N.div_mod (2 * a + q) (2 * q) ltac:(lia)) as D.
  pose proof (N.mod_lt (2 * a + q) (2 * q) ltac:(lia)) as L.
  set (d := ((2 * a + q) / (2 * q))%N) in *.
  set (r := ((2 * a + q) mod (2 * q))%N) in *.
  clearbody d r. nia.
Qed.

Lemma nearest_scaled_whole f m e :
  (0 <= e)%Z ->
  nearest_scaled f m e
  = (Npos m * 10 ^ N.of_nat f * 2 ^ Z.to_N e)%N.
Proof.
  intros H. unfold nearest_scaled. destruct e as [|p|p]; try lia.
  - simpl. lia.
  - reflexivity.
Qed.

(** A binary64 value that is not an integer is below [2^53]: [toFixed]
    is never on the side where the language falls back on [String]. *)
Lemma digits2_bound m : (Zpos m < 2 ^ Zpos (digits2_pos m))%Z.
Proof.
  induction m as [m IH|m IH|]; cbn [digits2_pos].
  - rewrite Pos2Z.inj_succ, Z.pow_succ_r by lia. lia.
  - rewrite Pos2Z.inj_succ, Z.pow_succ_r by lia. lia.
  - reflexivity.
Qed.

Lemma non_integer_small s m e :
  valid_binary prec emax (S754_finite s m e) = true ->
  isInteger (S754_finite s m e) = false ->
  (Zpos m < 2 ^ 53 /\ e < 0)%Z.
Proof.
  unfold valid_binary, bounded, canonical_mantissa, fexp, emin, prec, emax.
  intros V I. apply andb_prop in V as [V _]. apply Z.eqb_eq in V.
  assert (D : (Zpos (digits2_pos m) <= 53)%Z) by lia.
  split.
  - pose proof (digits2_bound m) as B.
    assert ((2 ^ Zpos (digits2_pos m) <= 2 ^ 53)%Z)
      by (apply Z.pow_le_mono_r; lia).
    lia.
  - simpl in I. destruct e; try discriminate. lia.
Qed.

End Formatting.

(** C2. A successful evaluation returns the value left on the stack
    normalised: an integer is returned as it is; another finite value is
    replaced by the binary64 value nearest to the decimal number with 8
    digits after the point that is nearest to it (an infinity or NaN,
    which has no digits, is left); "nearest" is to within half a unit
    of the eighth decimal, the larger neighbour on a tie.  So
    ["0.1+0.2"] gives 0.3 and not 0.30000000000000004. *)
Theorem result_normalisation :
  (forall s v,
      Engine.calculate s = Ok v ->
      exists rpn x,
        Engine.toRPN (Engine.strip s) = Ok rpn
        /\ Engine.stack_result rpn = Ok x
        /\ v = normalise x)
  /\ (forall x, isInteger x = true -> normalise x = x)
  /\ (forall s m e,
         isInteger (S754_finite s m e) = false ->
         normalise (S754_finite s m e)
         = of_decimal s (nearest_scaled 8 m e) 8)
  /\ (forall m p,
         let n := nearest_scaled 8 m (Zneg p) in
         (2 * n * 2 ^ Npos p <= 2 * (Npos m * 10 ^ 8) + 2 ^ Npos p
          /\ 2 * (Npos m * 10 ^ 8) + 2 ^ Npos p < 2 * (n + 1) * 2 ^ Npos p)%N)
  /\ (forall x, formatResult x = normalise x)
  /\ Engine.calculate (lit "0.1+0.2") = Ok (parseFloat (lit "0.3"))
  /\ Engine.calculate (lit "0.1+0.2")
     <> Ok (parseFloat (lit "0.30000000000000004"))
  /\ add (parseFloat (lit "0.1")) (parseFloat (lit "0.2"))
     = parseFloat (lit "0.30000000000000004").
Proof.
  split; [|split; [|split; [|split; [|split; [|split; [|split]]]]]].
  - intros s v. unfold Engine.calculate.
    destruct (test_whole re_allowed (Engine.strip s)); [|discriminate].
    cbn [negb].
    destruct (Engine.toRPN (Engine.strip s)) as [rpn|e] eqn:T;
      [|discriminate].
    cbn [bind]. unfold Engine.evaluateRPN.
    destruct (Engine.stack_result rpn) as [x|e] eqn:R; [|discriminate].
    cbn [bind]. intros [= <-]. exists rpn, x.
    split; [reflexivity|]. split; [exact R|]. apply formatResult_normalise.
  - intros x H. unfold normalise. now rewrite H.
  - intros s m e H. unfold normalise. now rewrite H.
  - intros m p. apply (nearest_scaled_fraction 8 m p).
  - apply formatResult_normalise.
  - vm_compute. reflexivity.
  - vm_compute. discriminate.
  - vm_compute. reflexivity.
Qed.

Lemma result_normalisation_witness :
  (exists rpn x,
      Engine.toRPN (Engine.strip (lit "1/3")) = Ok rpn
      /\ Engine.stack_result rpn = Ok x
      /\ parseFloat (lit "0.33333333") = normalise x)
  /\ normalise (parseFloat (lit "12")) = parseFloat (lit "12")
  /\ normalise (S754_finite false 3 (-1))
     = of_decimal false (nearest_scaled 8 3 (-1)) 8.
Proof.
  destruct result_normalisation as (H1 & H2 & H3 & _).
  split; [|split].
  - apply H1. vm_compute. reflexivity.
  - apply H2. reflexivity.
  - apply H3. reflexivity.
Defined.

(* ================================================================== *)
(** ** Further properties of the engine *)

Section Balance.

Lemma literal_not_paren l :
  is_literal l = true -> eqb l (lit "(") = false /\ eqb l (lit ")") = false.
Proof.
  intros H. split; apply eqb_neq; intros ->; discriminate.
Qed.

Lemma char_depth_no_paren t : forall s d,
  (forall c, In c t -> is_op_or_paren c = false) ->
  char_depth (t ++ s) d = char_depth s d.
Proof.
  induction t as [|c t IH]; intros s d H; [reflexivity|].
  assert (Hc : is_op_or_paren c = false) by (apply H; now left).
  cbn [app char_depth]. unfold is_op_or_paren in Hc.
  rewrite !orb_false_iff in Hc. destruct Hc as [[[[[_ _] _] _] H1] H2].
  rewrite H1, H2. apply IH. intros x Hx. apply H. now right.
Qed.

Lemma literal_no_paren l c :
  is_literal l = true -> In c l -> is_op_or_paren c = false.
Proof.
  intros H Hin. destruct (literal_chars l c H Hin) as [D|D].
  - now apply digit_not_op.
  - destruct (is_op_or_paren c) eqn:E; [|reflexivity].
    apply op_not_dot in E. congruence.
Qed.

(** The parentheses of the tokens are those of the text. *)
Lemma tokens_depth s : forall d,
  paren_depth (Engine.tokenize s) d = char_depth s d.
Proof.
  remember (length s) as n eqn:Hn. revert s Hn.
  induction n as [n IH] using lt_wf_ind. intros s Hn d.
  destruct s as [|c s']; [reflexivity|].
  unfold Engine.tokenize.
  destruct (match_here re_token (c :: s')) as [[tok rest]|] eqn:E.
  - pose proof (match_here_sound _ _ _ _ E) as [Hs M].
    pose proof (matches_token_not_nil _ M) as Hne.
    rewrite (match_all_hit _ _ _ _ E Hne). rewrite Hs.
    assert (L : length rest < n).
    { rewrite Hn, Hs, length_app. destruct tok; [contradiction|simpl; lia]. }
    apply matches_token in M as [Hl|(x & -> & Hx)].
    + cbn [paren_depth]. destruct (literal_not_paren tok Hl) as [-> ->].
      rewrite char_depth_no_paren by (intros y; now apply literal_no_paren).
      apply (IH (length rest) L rest eq_refl).
    + apply op_or_paren_cases in Hx.
      assert (R : forall k, paren_depth (match_all re_token rest) k
                            = char_depth rest k)
        by (intros k; apply (IH (length rest) L rest eq_refl)).
      repeat destruct Hx as [Hx|Hx]; subst x; destruct d; simpl;
        try reflexivity; apply R.
  - rewrite (match_all_miss _ _ _ E).
    apply match_token_none in E.
    change (c :: s') with ([c] ++ s').
    rewrite char_depth_no_paren
      by (intros y [<-|[]]; exact E).
    apply (IH (length s')); [simpl in Hn; lia | reflexivity].
Qed.

Lemma count_open_app a b : count_open (a ++ b) = count_open a + count_open b.
Proof. unfold count_open. now rewrite filter_app, length_app. Qed.

Lemma count_open_no_paren p : ~ In (lit "(") p -> count_open p = 0.
Proof.
  unfold count_open. induction p as [|t p IH]; [reflexivity|].
  intros H. simpl. destruct (eqb t (lit "(")) eqn:E.
  - apply eqb_eq in E. subst. destruct H. now left.
  - apply IH. intros Hin. apply H. now right.
Qed.

Lemma count_open_cons t ops :
  count_open (t :: ops)
  = (if eqb t (lit "(") then 1 else 0) + count_open ops.
Proof. unfold count_open. simpl. now destruct (eqb t (lit "(")). Qed.

Lemma count_open_zero ops : count_open ops = 0 -> ~ In (lit "(") ops.
Proof.
  induction ops as [|t ops IH]; [now intros _ []|].
  rewrite count_open_cons. destruct (eqb t (lit "(")) eqn:E; [discriminate|].
  intros H [Ht|Hin]; [|now apply IH].
  apply eqb_neq in E. congruence.
Qed.

(** The number of ['('] on the stack follows the depth of the tokens. *)
Lemma step_depth out ops t :
  is_literal t = true \/ (exists c, t = [c] /\ is_op_or_paren c = true) ->
  match Engine.step (out, ops) t with
  | Ok (_, ops') => paren_depth [t] (count_open ops) = Some (count_open ops')
  | Err _ => paren_depth [t] (count_open ops) = None
  end.
Proof.
  intros [H|(c & -> & H)].
  - rewrite step_number by exact H. cbn [paren_depth].
    now destruct (literal_not_paren t H) as [-> ->].
  - apply symbol_cases in H as [E|[E|H]].
    + rewrite E, step_open. cbn [paren_depth]. rewrite eqb_refl.
      now rewrite count_open_cons, eqb_refl.
    + rewrite E, step_close. cbn [paren_depth].
      change (eqb (lit ")") (lit "(")) with false. rewrite eqb_refl.
      destruct (split_at_paren ops) as [Hn|(p & rest & -> & Hp)].
      * rewrite close_paren_missing by exact Hn.
        now rewrite count_open_no_paren.
      * rewrite close_paren_found by exact Hp.
        rewrite count_open_app, count_open_cons, eqb_refl.
        now rewrite count_open_no_paren.
    + pose proof H as Hop. apply operators_symbol in H as [d Hd].
      destruct (operator_token_tests c Hop) as (_ & H2 & H3).
      rewrite (step_operator_char out ops c d Hop Hd).
      destruct (pop_geq d out ops) as [o1 p1] eqn:P.
      apply pop_geq_split in P as (p & -> & -> & Hp).
      cbn [paren_depth]. rewrite H2, H3.
      rewrite count_open_app, count_open_cons, H2.
      now rewrite count_open_no_paren.
Qed.

Lemma steps_depth toks : forall out ops,
  Forall (fun t => is_literal t = true
                   \/ exists c, t = [c] /\ is_op_or_paren c = true) toks ->
  match Engine.steps (out, ops) toks with
  | Ok (_, ops') => paren_depth toks (count_open ops) = Some (count_open ops')
  | Err _ => paren_depth toks (count_open ops) = None
  end.
Proof.
  induction toks as [|t toks IH]; intros out ops Hwf; [reflexivity|].
  inversion Hwf as [|t' toks' Ht Htoks]; subst.
  cbn [Engine.steps].
  pose proof (step_depth out ops t Ht) as S.
  change (t :: toks) with ([t] ++ toks).
  assert (A : forall a b k,
             paren_depth (a ++ b) k
             = match paren_depth a k with
               | Some k' => paren_depth b k'
               | None => None
               end).
  { induction a as [|x a IHa]; intros b k; [reflexivity|].
    cbn [app paren_depth].
    destruct (eqb x (lit "(")); [apply IHa|].
    destruct (eqb x (lit ")")); [|apply IHa].
    destruct k; [reflexivity | apply IHa]. }
  rewrite A.
  destruct (Engine.step (out, ops) t) as [[o1 p1]|e]; cbn [bind].
  - rewrite S. apply IH. exact Htoks.
  - now rewrite S.
Qed.

Lemma toRPN_depth s :
  match Engine.toRPN s with
  | Ok _ => char_depth s 0 = Some 0
  | Err e => e = MismatchedParentheses /\ char_depth s 0 <> Some 0
  end.
Proof.
  unfold Engine.toRPN.
  pose proof (steps_depth (Engine.tokenize s) [] []
                (tokenize_well_formed s)) as D.
  rewrite tokens_depth in D. change (count_open []) with 0 in D.
  destruct (Engine.steps ([], []) (Engine.tokenize s)) as [[out ops]|e] eqn:E;
    cbn [bind].
  - rewrite drain_spec.
    destruct (existsb (eqb (lit "(")) ops) eqn:X.
    + split; [reflexivity|]. rewrite D. intros [= H].
      apply existsb_paren in X.
      now apply count_open_zero in H.
    + rewrite D. f_equal. apply count_open_no_paren.
      intros Hin. apply existsb_paren in Hin. congruence.
  - apply steps_error in E as [-> _]; [|apply tokenize_well_formed].
    split; [reflexivity|]. rewrite D. discriminate.
Qed.

End Balance.

(** X1. The conversion to postfix succeeds exactly when the parentheses
    of the text are balanced (every [')'] closes an earlier ['('] and every
    ['('] is closed); when they are not, it fails with
    [MismatchedParentheses], whatever else the text holds. *)
Theorem conversion_succeeds_iff_balanced :
  forall s,
    ((exists rpn, Engine.toRPN s = Ok rpn) <-> balanced s = true)
    /\ (Engine.toRPN s = Err MismatchedParentheses <-> balanced s = false).
Proof.
  intros s. pose proof (toRPN_depth s) as D. unfold balanced.
  destruct (Engine.toRPN s) as [rpn|e].
  - rewrite D. split; split; try discriminate; eauto.
  - destruct D as [-> D]. split; split.
    + intros [rpn H]. discriminate.
    + destruct (char_depth s 0) as [[|k]|]; try discriminate. now destruct D.
    + intros _. destruct (char_depth s 0) as [[|k]|]; try reflexivity.
      now destruct D.
    + reflexivity.
Qed.

Section Outcomes.

Lemma strip_without_spaces s : Engine.strip s = without_spaces s.
Proof. apply strip_filter. Qed.

Lemma acceptable_test s :
  test_whole re_allowed (Engine.strip s) = acceptable s.
Proof.
  rewrite strip_without_spaces. unfold acceptable.
  destruct (test_whole re_allowed (without_spaces s)) eqn:T.
  - apply test_allowed in T as [Hne H].
    destruct (without_spaces s); [contradiction | now rewrite H].
  - destruct (without_spaces s) as [|c r] eqn:E; [reflexivity|].
    destruct (forallb is_allowed (c :: r)) eqn:F; [|reflexivity].
    rewrite <- T. apply test_allowed. split; [discriminate|exact F].
Qed.

Lemma eval_step_error st i e :
  operator_item i -> Engine.eval_step st i = Err e ->
  e = DivisionByZero \/ e = InvalidExpression.
Proof.
  destruct i as [x|t]; [discriminate|]. simpl.
  unfold is_operator_token. destruct t as [|c [|c' t]]; try discriminate.
  intros H. destruct st as [|b [|a st]]; try (intros [= <-]; now right).
  apply operator_cases in H.
  repeat destruct H as [H|H]; subst; cbn; try discriminate.
  destruct (strict_eq b zero); [|discriminate]. intros [= <-]. now left.
Qed.

Lemma eval_loop_error rpn : forall st e,
  Forall operator_item rpn -> Engine.eval_loop st rpn = Err e ->
  e = DivisionByZero \/ e = InvalidExpression.
Proof.
  induction rpn as [|i rpn IH]; intros st e H; [discriminate|].
  inversion H as [|i' rpn' Hi Hr]; subst. cbn [Engine.eval_loop].
  destruct (Engine.eval_step st i) as [st'|e'] eqn:E; cbn [bind].
  - now apply IH.
  - intros [= <-]. now apply (eval_step_error st i).
Qed.

Lemma evaluateRPN_error rpn e :
  Forall operator_item rpn -> Engine.evaluateRPN rpn = Err e ->
  e = DivisionByZero \/ e = InvalidExpression.
Proof.
  intros H. unfold Engine.evaluateRPN, Engine.stack_result.
  destruct (Engine.eval_loop [] rpn) as [st|e'] eqn:E; cbn [bind].
  - destruct st as [|x [|y st]]; cbn [bind]; try discriminate;
      intros [= <-]; now right.
  - intros [= <-]. now apply (eval_loop_error rpn []).
Qed.

Lemma toRPN_balanced s :
  match Engine.toRPN s with
  | Ok _ => balanced s = true
  | Err e => e = MismatchedParentheses /\ balanced s = false
  end.
Proof.
  pose proof (toRPN_depth s) as D. unfold balanced.
  destruct (Engine.toRPN s) as [rpn|e].
  - now rewrite D.
  - destruct D as [-> D]. split; [reflexivity|].
    destruct (char_depth s 0) as [[|k]|]; try reflexivity. now destruct D.
Qed.

End Outcomes.

(** X2. The failures of [calculate] come in a fixed order.  It fails
    with [InvalidCharacter] exactly when the text without its white space
    is empty or has a character outside the allowed set; it fails with
    [MismatchedParentheses] exactly when that text passes and its
    parentheses are not balanced, even if a division by zero or a missing
    operand is also present; every other failure is [DivisionByZero] or
    [InvalidExpression]: 'Invalid operator' and a [TypeError] never
    occur. *)
Theorem calculate_failures :
  forall s,
    (Engine.calculate s = Err InvalidCharacter <-> acceptable s = false)
    /\ (Engine.calculate s = Err MismatchedParentheses
        <-> acceptable s = true /\ balanced (without_spaces s) = false)
    /\ (forall e, Engine.calculate s = Err e ->
                  e = InvalidCharacter \/ e = MismatchedParentheses
                  \/ e = DivisionByZero \/ e = InvalidExpression).
Proof.
  intros s. unfold Engine.calculate. rewrite acceptable_test.
  rewrite strip_without_spaces.
  destruct (acceptable s); cbn [negb].
  - pose proof (toRPN_balanced (without_spaces s)) as B.
    destruct (Engine.toRPN (without_spaces s)) as [rpn|e] eqn:T; cbn [bind].
    + pose proof (toRPN_operators _ _ T) as Hops. rewrite B.
      split; [|split].
      * split; [|discriminate]. intros H.
        apply evaluateRPN_error in H as [H|H]; [discriminate..|exact Hops].
      * split; [|now intros [_ H]]. intros H.
        apply evaluateRPN_error in H as [H|H]; [discriminate..|exact Hops].
      * intros e H. apply evaluateRPN_error in H as [H|H]; auto.
    + destruct B as [-> B]. rewrite B. split; [|split].
      * split; discriminate.
      * split; auto.
      * intros e [= <-]. auto.
  - split; [|split].
    + split; auto.
    + split; [discriminate | now intros [H _]].
    + intros e [= <-]. auto.
Qed.

(** X3. White space is ignored wherever it stands, also inside a
    number: two inputs with the same characters apart from white space
    have the same outcome. *)
Theorem whitespace_ignored :
  forall s s',
    without_spaces s = without_spaces s' ->
    Engine.calculate s = Engine.calculate s'.
Proof.
  intros s s' H. apply calculate_strip.
  now rewrite !strip_without_spaces.
Qed.

Lemma whitespace_ignored_witness :
  Engine.calculate (lit " 1 2 +  3 ") = Engine.calculate (lit "12+3").
Proof. apply whitespace_ignored. reflexivity. Defined.

(** X4. What a successful evaluation requires of the input: its text
    without white space passes the validation, its parentheses are
    balanced, and it has exactly one number more than it has operators. *)
Theorem success_requirements :
  forall s v,
    Engine.calculate s = Ok v ->
    acceptable s = true
    /\ balanced (without_spaces s) = true
    /\ count_number_tokens (Engine.tokenize (without_spaces s))
       = count_operator_tokens (Engine.tokenize (without_spaces s)) + 1.
Proof.
  intros s v H. pose proof (calculate_count s v H) as C.
  rewrite strip_without_spaces in C.
  revert H. unfold Engine.calculate. rewrite acceptable_test.
  rewrite strip_without_spaces.
  destruct (acceptable s); cbn [negb]; [|discriminate].
  pose proof (toRPN_balanced (without_spaces s)) as B.
  destruct (Engine.toRPN (without_spaces s)); cbn [bind]; [|discriminate].
  intros _. auto.
Qed.

Lemma success_requirements_witness :
  acceptable (lit "(1 + 2) * 3") = true
  /\ balanced (without_spaces (lit "(1 + 2) * 3")) = true
  /\ count_number_tokens (Engine.tokenize (without_spaces (lit "(1 + 2) * 3")))
     = count_operator_tokens
         (Engine.tokenize (without_spaces (lit "(1 + 2) * 3"))) + 1.
Proof.
  apply (success_requirements (lit "(1 + 2) * 3") (parseFloat (lit "9"))).
  vm_compute. reflexivity.
Defined.

Section Points.

Lemma tokenize_drops_points s :
  forallb is_allowed s = true -> drops_points s (Engine.tokenize s).
Proof.
  remember (length s) as n eqn:Hn. revert s Hn.
  induction n as [n IH] using lt_wf_ind. intros s Hn Ha.
  destruct s as [|c s']; [constructor|].
  unfold Engine.tokenize.
  destruct (match_here re_token (c :: s')) as [[tok rest]|] eqn:E.
  - pose proof (match_here_sound _ _ _ _ E) as [Hs M].
    pose proof (matches_token_not_nil _ M) as Hne.
    rewrite (match_all_hit _ _ _ _ E Hne). rewrite Hs.
    constructor; [exact Hne|].
    apply (IH (length rest)); [|reflexivity|].
    + rewrite Hn, Hs, length_app. destruct tok; [contradiction|simpl; lia].
    + rewrite Hs, forallb_app in Ha. now apply andb_prop in Ha as [_ Ha].
  - rewrite (match_all_miss _ _ _ E).
    simpl in Ha. apply andb_prop in Ha as [Hc Ha].
    destruct (skipped_is_loose_point c s' Hc E) as [P D].
    constructor; [exact P | exact D |].
    apply (IH (length s')); [simpl in Hn; lia | reflexivity | exact Ha].
Qed.

Lemma drops_points_filter s toks :
  drops_points s toks ->
  filter (fun c => negb (is_dot c)) (concat toks)
  = filter (fun c => negb (is_dot c)) s.
Proof.
  induction 1 as [|c s toks Hc _ _ IH|t s toks _ _ IH]; simpl.
  - reflexivity.
  - now rewrite Hc.
  - now rewrite !filter_app, IH.
Qed.

End Points.

(** X5. On a text of allowed characters the tokeniser loses the
    decimal points that no digit follows, and nothing else: the tokens
    put together are the text without those points; they are the pieces
    of the text in order, with only such points between them, so every
    digit, operator and parenthesis of the text is in a token. *)
Theorem tokenizer_drops_only_points :
  forall s,
    forallb is_allowed s = true ->
    concat (Engine.tokenize s) = without_loose_points s
    /\ drops_points s (Engine.tokenize s)
    /\ filter (fun c => negb (is_dot c)) (concat (Engine.tokenize s))
       = filter (fun c => negb (is_dot c)) s.
Proof.
  intros s H. pose proof (tokenize_drops_points s H) as D.
  split; [now apply tokenize_concat|].
  split; [exact D | now apply drops_points_filter].
Qed.

Lemma tokenizer_drops_only_points_witness :
  concat (Engine.tokenize (lit "1.+.5.2.")) = lit "1+.5.2"
  /\ drops_points (lit "1.+.5.2.") (Engine.tokenize (lit "1.+.5.2."))
  /\ filter (fun c => negb (is_dot c))
            (concat (Engine.tokenize (lit "1.+.5.2.")))
     = filter (fun c => negb (is_dot c)) (lit "1.+.5.2.").
Proof.
  apply (tokenizer_drops_only_points (lit "1.+.5.2.")). reflexivity.
Defined.

(* ================================================================== *)
(** ** Editing the input (script.js) *)

Section Editing.

Import Page.

Lemma included_operator c : included [c] operator_symbols = is_operator c.
Proof.
  unfold included, operator_symbols, is_operator. cbn [existsb].
  rewrite orb_false_r.
  assert (E : forall a : ascii, eqb [c] (lit (String a EmptyString))
                                = (c =? ch a)%N).
  { intros a. change (lit (String a EmptyString)) with [ch a].
    destruct (c =? ch a)%N eqn:X.
    - apply N.eqb_eq in X. subst. apply eqb_refl.
    - apply eqb_neq. intros [= H]. apply N.eqb_neq in X. contradiction. }
  now rewrite !E, !orb_assoc.
Qed.

Lemma eqb_point c : eqb [c] (lit ".") = is_dot c.
Proof.
  unfold is_dot. change (lit ".") with [ch "."].
  destruct (c =? ch ".")%N eqn:X.
  - apply N.eqb_eq in X. subst. apply eqb_refl.
  - apply eqb_neq. intros [= H]. apply N.eqb_neq in X. contradiction.
Qed.

Lemma included_last s :
  included (slice_last s) operator_symbols = ends_with_operator s.
Proof.
  unfold slice_last, ends_with_operator. destruct s as [|c s]; [reflexivity|].
  apply included_operator.
Qed.

Lemma appendValue_input c p :
  currentInput (appendValue [c] p)
  = let s := pending_input [c] p in
    if is_dot c && existsb is_dot s then s
    else (if is_operator c && ends_with_operator s
          then removelast s else s) ++ [c].
Proof.
  unfold appendValue, pending_input.
  rewrite eqb_point, included_operator.
  destruct (lastResult p) as [r|];
    [destruct (included [c] operators_and_parentheses)|];
    cbn [negb currentInput]; rewrite included_last;
    destruct (is_dot c && existsb is_dot _); reflexivity.
Qed.

Lemma count_points_snoc s c :
  count_points (s ++ [c]) = count_points s + (if is_dot c then 1 else 0).
Proof.
  unfold count_points. rewrite filter_app, length_app. simpl.
  now destruct (is_dot c).
Qed.

Lemma snoc_last (s : jsstring) :
  s <> [] -> s = removelast s ++ [last s 0%N].
Proof. apply app_removelast_last. Qed.

Lemma count_points_removelast s :
  count_points (removelast s) <= count_points s.
Proof.
  destruct s as [|c s]; [simpl; lia|].
  rewrite (snoc_last (c :: s)) at 2 by discriminate.
  rewrite count_points_snoc. lia.
Qed.

Lemma count_points_none s : existsb is_dot s = false -> count_points s = 0.
Proof.
  unfold count_points. induction s as [|c s IH]; [reflexivity|].
  simpl. destruct (is_dot c); [discriminate|]. exact IH.
Qed.

Lemma pending_points v p :
  count_points (pending_input v p) <= count_points (currentInput p).
Proof.
  unfold pending_input.
  destruct (lastResult p); [destruct (included v _)|];
    unfold count_points; simpl; lia.
Qed.

Lemma appendValue_points c p :
  count_points (currentInput p) <= 1 ->
  count_points (currentInput (appendValue [c] p)) <= 1.
Proof.
  intros H. rewrite appendValue_input. cbv zeta.
  pose proof (pending_points [c] p) as P.
  set (s := pending_input [c] p) in *. clearbody s.
  destruct (is_dot c) eqn:D; cbn [andb].
  - destruct (existsb is_dot s) eqn:X; [lia|].
    assert (O : is_operator c = false).
    { destruct (is_operator c) eqn:O; [|reflexivity].
      apply operator_is_symbol, op_not_dot in O. congruence. }
    rewrite O. cbn [andb]. rewrite count_points_snoc, D.
    rewrite (count_points_none s X). lia.
  - rewrite count_points_snoc, D. cbv iota. rewrite Nat.add_0_r.
    destruct (is_operator c && ends_with_operator s); [|lia].
    eapply Nat.le_trans; [apply count_points_removelast | lia].
Qed.

Lemma no_operator_pair_snoc s c :
  no_operator_pair (s ++ [c])
  = no_operator_pair s && negb (ends_with_operator s && is_operator c).
Proof.
  induction s as [|a s IH]; [reflexivity|].
  destruct s as [|b s].
  - simpl. now rewrite !andb_true_r.
  - change ((a :: b :: s) ++ [c]) with (a :: (b :: s) ++ [c]).
    change (no_operator_pair (a :: (b :: s) ++ [c]))
      with (negb (is_operator a && is_operator b)
            && no_operator_pair ((b :: s) ++ [c])).
    rewrite IH.
    change (no_operator_pair (a :: b :: s))
      with (negb (is_operator a && is_operator b)
            && no_operator_pair (b :: s)).
    change (ends_with_operator (a :: b :: s))
      with (ends_with_operator (b :: s)).
    now rewrite andb_assoc.
Qed.

Lemma no_operator_pair_removelast s :
  no_operator_pair s = true ->
  no_operator_pair (removelast s) = true
  /\ (ends_with_operator s = true ->
      ends_with_operator (removelast s) = false).
Proof.
  destruct s as [|c s]; [now split|].
  intros H. rewrite (snoc_last (c :: s)) in H by discriminate.
  rewrite no_operator_pair_snoc in H. apply andb_prop in H as [H1 H2].
  split; [exact H1|]. intros E.
  change (ends_with_operator (c :: s)) with (is_operator (last (c :: s) 0%N))
    in E.
  rewrite E, andb_true_r in H2. now destruct (ends_with_operator _).
Qed.

Lemma pending_pair v p :
  no_operator_pair (currentInput p) = true ->
  no_operator_pair (pending_input v p) = true.
Proof.
  unfold pending_input.
  destruct (lastResult p); [destruct (included v _)|]; auto.
Qed.

Lemma appendValue_pair c p :
  no_operator_pair (currentInput p) = true ->
  no_operator_pair (currentInput (appendValue [c] p)) = true.
Proof.
  intros H. rewrite appendValue_input. cbv zeta.
  pose proof (pending_pair [c] p H) as P.
  set (s := pending_input [c] p) in *. clearbody s.
  destruct (is_dot c && existsb is_dot s); [exact P|].
  rewrite no_operator_pair_snoc.
  destruct (no_operator_pair_removelast s P) as [R1 R2].
  destruct (is_operator c) eqn:O; cbn [andb].
  - destruct (ends_with_operator s) eqn:E.
    + now rewrite R1, (R2 eq_refl).
    + now rewrite P, E.
  - now rewrite P, andb_false_r.
Qed.

Lemma removelast_snoc (s : jsstring) c : removelast (s ++ [c]) = s.
Proof. apply removelast_last. Qed.

Lemma ends_with_operator_snoc s c :
  ends_with_operator (s ++ [c]) = is_operator c.
Proof.
  unfold ends_with_operator. rewrite last_last.
  now destruct s.
Qed.

End Editing.

(** X6. The input buffer never gets a second decimal point: from an
    input with at most one, any sequence of character, backspace and
    clear keys leaves at most one (the point of a second number is
    dropped). *)
Theorem at_most_one_decimal_point :
  forall es p,
    count_points (Page.currentInput p) <= 1 ->
    count_points (Page.currentInput (apply_edits es p)) <= 1.
Proof.
  induction es as [|e es IH]; intros p H; [exact H|].
  cbn [apply_edits fold_left]. apply IH.
  destruct e as [c| |]; cbn [apply_edit].
  - now apply appendValue_points.
  - unfold Page.backspace, Page.slice_init. cbn [Page.currentInput].
    eapply Nat.le_trans; [apply count_points_removelast | exact H].
  - unfold Page.clearDisplay, count_points. cbn. lia.
Qed.

Lemma at_most_one_decimal_point_witness :
  count_points
    (Page.currentInput
       (apply_edits
          (map Type_char (lit "1.5+2.5"))
          {| Page.currentInput := []; Page.lastResult := None;
             Page.display_value := []; Page.display_error := false |})) <= 1.
Proof. apply at_most_one_decimal_point. vm_compute. lia. Defined.

(** X7. The editing keys never put two operators side by side: from an
    input without such a pair, any sequence of character, backspace and
    clear keys gives an input without one. *)
Theorem never_two_operators_in_a_row :
  forall es p,
    no_operator_pair (Page.currentInput p) = true ->
    no_operator_pair (Page.currentInput (apply_edits es p)) = true.
Proof.
  induction es as [|e es IH]; intros p H; [exact H|].
  cbn [apply_edits fold_left]. apply IH.
  destruct e as [c| |]; cbn [apply_edit].
  - now apply appendValue_pair.
  - unfold Page.backspace, Page.slice_init. cbn [Page.currentInput].
    now apply no_operator_pair_removelast.
  - reflexivity.
Qed.

Lemma never_two_operators_in_a_row_witness :
  no_operator_pair
    (Page.currentInput
       (apply_edits
          (map Type_char (lit "2+-*3"))
          {| Page.currentInput := []; Page.lastResult := None;
             Page.display_value := []; Page.display_error := false |})) = true.
Proof. apply never_two_operators_in_a_row. reflexivity. Defined.



(** X9. Backspace undoes a key press that appended: when the character
    is not a second decimal point, is not an operator typed after an
    operator, and no result is waiting to be replaced, backspace brings
    the input back. *)
Theorem backspace_undoes_append :
  forall c p,
    Page.lastResult p = None ->
    is_dot c && existsb is_dot (Page.currentInput p) = false ->
    is_operator c && ends_with_operator (Page.currentInput p) = false ->
    Page.currentInput (Page.backspace (Page.appendValue [c] p))
    = Page.currentInput p
    /\ Page.display_value (Page.backspace (Page.appendValue [c] p))
       = Page.currentInput p.
Proof.
  intros c p R D O.
  assert (E : Page.currentInput (Page.appendValue [c] p)
              = Page.currentInput p ++ [c]).
  { rewrite appendValue_input. unfold pending_input. rewrite R.
    cbv zeta. now rewrite D, O. }
  unfold Page.backspace. cbn [Page.currentInput Page.display_value].
  unfold Page.slice_init. rewrite E, removelast_snoc. now split.
Qed.

Lemma backspace_undoes_append_witness :
  Page.currentInput
    (Page.backspace
       (Page.appendValue [ch "7"]
          {| Page.currentInput := lit "1+"; Page.lastResult := None;
             Page.display_value := lit "1+"; Page.display_error := false |}))
  = lit "1+"
  /\ Page.display_value
       (Page.backspace
          (Page.appendValue [ch "7"]
             {| Page.currentInput := lit "1+"; Page.lastResult := None;
                Page.display_value := lit "1+"; Page.display_error := false |}))
     = lit "1+".
Proof.
  apply (backspace_undoes_append (ch "7")); reflexivity.
Defined.

(* ================================================================== *)
(** ** The keyboard and the two controllers *)

Section Keyboard.

Lemma test_search_class p s :
  Page.test_search (Cls p) s = existsb p s.
Proof.
  induction s as [|c s IH]; [reflexivity|].
  cbn [Page.test_search existsb]. unfold match_here. cbn [run].
  destruct (p c); [reflexivity | exact IH].
Qed.

Lemma input_char_is_key_char c :
  Page.is_input_char c = true -> Page.is_key_char c = true.
Proof.
  unfold Page.is_input_char, Page.is_key_char. intros ->. reflexivity.
Qed.

Lemma existsb_input_key s :
  existsb Page.is_key_char s = false -> existsb Page.is_input_char s = false.
Proof.
  induction s as [|c s IH]; [reflexivity|]. simpl.
  intros H. apply orb_false_elim in H as [H1 H2].
  rewrite (IH H2), orb_false_r.
  destruct (Page.is_input_char c) eqn:E; [|reflexivity].
  apply input_char_is_key_char in E. congruence.
Qed.

(** The engine module computes what the script's pipeline computes. *)
Lemma calculate_as_script s :
  Engine.calculate s = Script.formattedResult s.
Proof.
  unfold Engine.calculate, Script.formattedResult, Script.safeCalculate.
  change (replace_all re_spaces [] s) with (Engine.strip s).
  destruct (test_whole re_allowed (Engine.strip s)); [|reflexivity].
  cbn [negb].
  change (match_all re_token (Engine.strip s))
    with (Engine.tokenize (Engine.strip s)).
  rewrite steps_same by apply tokenize_well_formed.
  unfold Engine.toRPN.
  destruct (Engine.steps ([], []) (Engine.tokenize (Engine.strip s)))
    as [[out ops]|e] eqn:S; cbn [bind]; [|reflexivity].
  change (Script.drain out ops) with (Engine.drain out ops).
  destruct (Engine.drain out ops) as [rpn|e] eqn:D; cbn [bind];
    [|reflexivity].
  assert (Hops : Forall operator_item rpn).
  { apply (toRPN_operators (Engine.strip s)). unfold Engine.toRPN.
    rewrite S. cbn [bind]. exact D. }
  rewrite eval_loop_same by exact Hops.
  unfold Engine.evaluateRPN, Engine.stack_result.
  destruct (Engine.eval_loop [] rpn) as [st|e]; [|reflexivity].
  cbn [bind]. destruct st as [|x [|y st]]; reflexivity.
Qed.

End Keyboard.

(** X10. What the [keydown] listener does with a key.  A key that is
    not Enter, =, Escape, Backspace or Delete and whose name has no digit,
    operator or decimal point leaves the page as it is (so the
    parentheses cannot be typed); one whose name has such a character is
    appended whole, whatever its length.  Whenever the page changes, the
    default action of the key was prevented, Delete excepted. *)
Theorem keydown_effects :
  forall numberToString key p,
    (named_key key = false -> existsb Page.is_input_char key = false ->
     snd (Page.keydown numberToString key p) = p)
    /\ (named_key key = false -> existsb Page.is_input_char key = true ->
        snd (Page.keydown numberToString key p) = Page.appendValue key p)
    /\ (snd (Page.keydown numberToString key p) <> p ->
        fst (Page.keydown numberToString key p) = true
        \/ key = lit "Delete").
Proof.
  intros ts key p. unfold Page.keydown, named_key.
  cbn [fst snd]. rewrite !test_search_class.
  split; [|split].
  - intros N E. rewrite !orb_false_iff in N.
    destruct N as [[[[-> ->] ->] ->] ->]. cbn [orb]. now rewrite E.
  - intros N E. rewrite !orb_false_iff in N.
    destruct N as [[[[-> ->] ->] ->] ->]. cbn [orb]. now rewrite E.
  - intros C.
    destruct (existsb Page.is_key_char key) eqn:K; [now left|].
    pose proof (existsb_input_key key K) as I.
    destruct (eqb key (lit "Enter")) eqn:E1; [now left|].
    destruct (eqb key (lit "Backspace")) eqn:E2; [now left|].
    destruct (eqb key (lit "Escape")) eqn:E3; [now left|].
    destruct (eqb key (lit "Delete")) eqn:E4;
      [right; now apply eqb_eq|].
    destruct (eqb key (lit "=")) eqn:E5.
    + apply eqb_eq in E5. subst key. discriminate K.
    + cbn [orb] in C. rewrite I in C. now destruct C.
Qed.

Lemma keydown_effects_witness :
  snd (Page.keydown (fun _ => []) (lit "(")
         {| Page.currentInput := lit "2*"; Page.lastResult := None;
            Page.display_value := lit "2*"; Page.display_error := false |})
  = {| Page.currentInput := lit "2*"; Page.lastResult := None;
       Page.display_value := lit "2*"; Page.display_error := false |}
  /\ snd (Page.keydown (fun _ => []) (lit "F1")
            {| Page.currentInput := lit "2*"; Page.lastResult := None;
               Page.display_value := lit "2*"; Page.display_error := false |})
     = Page.appendValue (lit "F1")
         {| Page.currentInput := lit "2*"; Page.lastResult := None;
            Page.display_value := lit "2*"; Page.display_error := false |}.
Proof.
  split.
  - apply (proj1 (keydown_effects (fun _ => []) (lit "(") _)); reflexivity.
  - apply (proj1 (proj2 (keydown_effects (fun _ => []) (lit "F1") _)));
      reflexivity.
Defined.

(** *** The controller of Calculator.js beside script.js *)

Section Controllers.

Lemma appendValue_same_page value c :
  Controller.page_of (Controller.appendValue value c)
  = Page.appendValue value (Controller.page_of c).
Proof.
  unfold Controller.appendValue, Controller.on_page, Page.appendValue.
  cbn [Controller.page_of].
  destruct (Controller.page_of c) as [input r d e]. cbn [Page.lastResult].
  destruct r as [x|];
    [destruct (Page.included value Page.operators_and_parentheses)|];
    cbn [negb Controller.set_result Controller.set_input Page.currentInput];
    match goal with
    | |- context [eqb value (lit ".") && ?b] =>
        destruct (eqb value (lit ".") && b)
    end; try reflexivity;
    match goal with
    | |- context [Page.included value Page.operator_symbols && ?b] =>
        destruct (Page.included value Page.operator_symbols && b)
    end; reflexivity.
Qed.

Lemma calculate_same_page numberToString c :
  Controller.page_of (Controller.calculate numberToString c)
  = Page.calculateResult numberToString (Controller.page_of c).
Proof.
  unfold Controller.calculate, Page.calculateResult, Script.calculateResult.
  destruct (Page.currentInput (Controller.page_of c)) as [|x s] eqn:E;
    [reflexivity|].
  rewrite <- calculate_as_script.
  destruct (Engine.calculate (x :: s)); reflexivity.
Qed.

Lemma calculate_timeouts numberToString c :
  Controller.error_timeouts (Controller.calculate numberToString c)
  = Controller.error_timeouts c
    + timeouts_added (Page.currentInput (Controller.page_of c)).
Proof.
  unfold Controller.calculate, timeouts_added.
  destruct (Page.currentInput (Controller.page_of c)) as [|x s];
    [now rewrite Nat.add_0_r|].
  destruct (Engine.calculate (x :: s)); cbn; lia.
Qed.

(** The functions of script.js do not look at the error mark. *)
Lemma appendValue_same value q p :
  same_but_error_mark q p ->
  same_but_error_mark (Page.appendValue value q) (Page.appendValue value p).
Proof.
  destruct q as [i r d e], p as [i' r' d' e'].
  unfold same_but_error_mark. cbn [Page.currentInput Page.lastResult
    Page.display_value Page.display_error].
  intros (<- & <- & <- & He). unfold Page.appendValue.
  cbn [Page.lastResult].
  destruct r as [x|];
    [destruct (Page.included value Page.operators_and_parentheses)|];
    cbn [negb Page.currentInput Page.lastResult];
    match goal with
    | |- context [eqb value (lit ".") && ?b] =>
        destruct (eqb value (lit ".") && b)
    end;
    cbn [Page.currentInput Page.lastResult Page.display_value
         Page.display_error];
    repeat split; try exact He; discriminate.
Qed.

Lemma backspace_same q p :
  same_but_error_mark q p ->
  same_but_error_mark (Page.backspace q) (Page.backspace p).
Proof.
  unfold same_but_error_mark, Page.backspace.
  cbn [Page.currentInput Page.lastResult Page.display_value
       Page.display_error].
  intros (-> & -> & _ & _). repeat split. discriminate.
Qed.

Lemma calculateResult_same numberToString q p :
  same_but_error_mark q p ->
  same_but_error_mark (Page.calculateResult numberToString q)
                      (Page.calculateResult numberToString p).
Proof.
  intros H. pose proof H as (Hi & Hr & Hd & He).
  unfold Page.calculateResult. rewrite Hi.
  destruct (Script.calculateResult (Page.currentInput p)) as [[v|e]|];
    [| |exact H];
    unfold same_but_error_mark;
    cbn [Page.currentInput Page.lastResult Page.display_value
         Page.display_error];
    repeat split; try exact Hr; try discriminate.
Qed.

Lemma timeout_same c p :
  same_but_error_mark (Controller.page_of c) p ->
  same_but_error_mark (Controller.page_of (Controller.timeout c)) p.
Proof.
  unfold Controller.timeout. destruct (Controller.error_timeouts c);
    [auto|].
  unfold same_but_error_mark.
  cbn [Controller.page_of Page.currentInput Page.lastResult
       Page.display_value Page.display_error].
  intros (Hi & Hr & Hd & _). repeat split; auto. discriminate.
Qed.

Lemma step_same_but_error_mark numberToString a c p :
  same_but_error_mark (Controller.page_of c) p ->
  same_but_error_mark
    (Controller.page_of (calculator_step numberToString a c))
    (script_step numberToString a p).
Proof.
  intros H. destruct a as [v| | |]; cbn [calculator_step script_step].
  - rewrite appendValue_same_page. now apply appendValue_same.
  - change (Controller.page_of (Controller.backspace c))
      with (Page.backspace (Controller.page_of c)).
    now apply backspace_same.
  - rewrite calculate_same_page. now apply calculateResult_same.
  - now apply timeout_same.
Qed.

End Controllers.



(* ================================================================== *)
(** ** Thousands separators *)

Section Grouping.

Lemma firstn_more {A} (a b : nat) (l : list A) :
  firstn a l ++ firstn b (skipn a l) = firstn (a + b) l.
Proof.
  revert l. induction a as [|a IH]; intros l; [reflexivity|].
  destruct l as [|x l]; [now destruct b|].
  cbn [firstn skipn Nat.add app]. now rewrite IH.
Qed.

(** Once the fuel covers the counter, more fuel changes nothing: the
    loop ends by its own test. *)
Lemma group_loop_fuel digits fuel :
  forall i parts,
    (i <= Z.of_nat fuel)%Z ->
    Format.group_loop (S fuel) digits i parts
    = Format.group_loop fuel digits i parts.
Proof.
  induction fuel as [|k IH]; intros i parts H.
  - cbn [Format.group_loop].
    destruct (0 <? i)%Z eqn:E; [apply Z.ltb_lt in E; lia | reflexivity].
  - change (Format.group_loop (S (S k)) digits i parts)
      with (if (0 <? i)%Z
            then Format.group_loop (S k) digits (i - 3)
                   (Format.slice (Z.to_nat (Z.max 0 (i - 3))) (Z.to_nat i)
                      digits :: parts)
            else parts).
    cbn [Format.group_loop].
    destruct (0 <? i)%Z; [|reflexivity].
    apply IH. lia.
Qed.

Lemma grouped_snoc ps part :
  grouped ps ->
  (ps = [] -> 1 <= length part <= 3) ->
  (ps <> [] -> length part = 3) ->
  grouped (ps ++ [part]).
Proof.
  intros G E N. destruct ps as [|p rest].
  - cbn. split; [now apply E | constructor].
  - cbn [app grouped] in *. destruct G as [L F]. split; [exact L|].
    apply Forall_app. split; [exact F|].
    constructor; [|constructor]. apply N. discriminate.
Qed.

(** What the loop adds in front of [parts]. *)
Lemma group_loop_parts digits fuel :
  forall i parts,
    (i <= Z.of_nat fuel)%Z ->
    (i <= Z.of_nat (length digits))%Z ->
    exists ps,
      Format.group_loop fuel digits i parts = ps ++ parts
      /\ concat ps = firstn (Z.to_nat i) digits
      /\ grouped ps
      /\ ((i <= 0)%Z <-> ps = []).
Proof.
  induction fuel as [|k IH]; intros i parts Hf Hd.
  - exists []. cbn [Format.group_loop app concat].
    replace (Z.to_nat i) with 0 by lia.
    split; [reflexivity|]. split; [reflexivity|]. split; [exact I|].
    split; [reflexivity | intros _; lia].
  - cbn [Format.group_loop].
    destruct (0 <? i)%Z eqn:E.
    + apply Z.ltb_lt in E.
      set (part := Format.slice (Z.to_nat (Z.max 0 (i - 3))) (Z.to_nat i)
                     digits).
      destruct (IH (i - 3)%Z (part :: parts)) as (ps & R & C & G & N);
        [lia | lia |].
      assert (L : length part = Z.to_nat i - Z.to_nat (Z.max 0 (i - 3))).
      { unfold part, Format.slice.
        rewrite length_firstn, length_skipn. lia. }
      exists (ps ++ [part]). split; [|split; [|split]].
      * rewrite R, <- app_assoc. reflexivity.
      * rewrite concat_app, C. cbn [concat]. rewrite app_nil_r.
        unfold part, Format.slice.
        replace (Z.to_nat (Z.max 0 (i - 3))) with (Z.to_nat (i - 3)) by lia.
        rewrite firstn_more. f_equal. lia.
      * apply grouped_snoc; [exact G | |].
        -- intros P. apply N in P. lia.
        -- intros P. assert (~ (i - 3 <= 0)%Z) by (intros Q; now apply N in Q).
           lia.
      * split; [lia|]. intros P. now destruct ps.
    + apply Z.ltb_ge in E. exists []. cbn [app concat].
      replace (Z.to_nat i) with 0 by lia.
      split; [reflexivity|]. split; [reflexivity|]. split; [exact I|].
      split; [reflexivity | intros _; exact E].
Qed.

(** The whole loop of [formatInteger]. *)
Lemma group_all digits :
  concat (Format.group_loop (length digits) digits
            (Z.of_nat (length digits)) []) = digits
  /\ grouped (Format.group_loop (length digits) digits
                (Z.of_nat (length digits)) []).
Proof.
  destruct (group_loop_parts digits (length digits)
              (Z.of_nat (length digits)) [])
    as (ps & R & C & G & _); [lia | lia |].
  rewrite R, app_nil_r. split; [|exact G].
  now rewrite C, Nat2Z.id, firstn_all.
Qed.

Lemma remove_commas_app s t :
  remove_commas (s ++ t) = remove_commas s ++ remove_commas t.
Proof. apply filter_app. Qed.

Lemma remove_commas_join parts :
  remove_commas (Format.join parts) = remove_commas (concat parts).
Proof.
  induction parts as [|p rest IH]; [reflexivity|].
  destruct rest as [|q rest].
  - cbn [Format.join concat]. now rewrite app_nil_r.
  - change (Format.join (p :: q :: rest))
      with (p ++ ch "," :: Format.join (q :: rest)).
    change (concat (p :: q :: rest)) with (p ++ concat (q :: rest)).
    rewrite !remove_commas_app. f_equal.
    change (remove_commas (ch "," :: Format.join (q :: rest)))
      with (remove_commas (Format.join (q :: rest))).
    exact IH.
Qed.

End Grouping.

(** X12. [formatInteger] keeps a leading minus sign, cuts the rest
    into groups, and joins the groups with commas: the groups put
    together are the characters it was given, the first group has one
    to three characters and every other group exactly three. *)
Theorem thousands_groups :
  forall integer,
  exists parts,
    Format.formatInteger integer = minus_sign integer ++ Format.join parts
    /\ minus_sign integer ++ concat parts = integer
    /\ grouped parts.
Proof.
  intros s. unfold Format.formatInteger, minus_sign.
  destruct s as [|c s].
  - exists []. repeat split.
  - destruct (c =? ch "-")%N eqn:E.
    + apply N.eqb_eq in E. subst c. cbn [skipn].
      destruct (group_all s) as [C G].
      eexists. split; [reflexivity|]. split; [|exact G].
      now rewrite C.
    + destruct (group_all (c :: s)) as [C G].
      eexists. split; [reflexivity|]. split; [|exact G].
      now rewrite C.
Qed.

(** X13. Taking the commas out of what [formatInteger] returns gives
    back its argument, when the argument had no comma. *)
Theorem separators_only_added :
  forall integer,
    remove_commas integer = integer ->
    remove_commas (Format.formatInteger integer) = integer.
Proof.
  intros s H. unfold Format.formatInteger.
  rewrite remove_commas_app, remove_commas_join.
  rewrite (proj1 (group_all _)), <- remove_commas_app.
  destruct s as [|c s]; [reflexivity|].
  destruct (c =? ch "-")%N eqn:E; [|exact H].
  apply N.eqb_eq in E. subst c. exact H.
Qed.

Lemma separators_only_added_witness :
  remove_commas (lit "-1234567") = lit "-1234567"
  /\ Format.formatInteger (lit "-1234567") = lit "-1,234,567"
  /\ remove_commas (Format.formatInteger (lit "-1234567")) = lit "-1234567".
Proof.
  split; [reflexivity|]. split; [reflexivity|].
  apply (separators_only_added (lit "-1234567")). reflexivity.
Defined.

(* ================================================================== *)
(** ** The operands of the postfix sequence *)

Section Operands.

Lemma operands_app a b : operands (a ++ b) = operands a ++ operands b.
Proof. apply flat_map_app. Qed.

Lemma operands_syms p : operands (map ISym p) = [].
Proof. induction p as [|t p IH]; [reflexivity | exact IH]. Qed.

Lemma step_operands out ops t out' ops' :
  is_literal t = true \/ (exists c, t = [c] /\ is_op_or_paren c = true) ->
  Engine.step (out, ops) t = Ok (out', ops') ->
  operands out'
  = operands out ++ map parseFloat (filter is_number_token [t]).
Proof.
  intros [H|(c & -> & H)].
  - rewrite step_number by exact H. intros [= <- <-].
    cbn [filter]. unfold is_number_token. rewrite test_number, H.
    now rewrite operands_app.
  - assert (N : is_number_token [c] = false).
    { unfold is_number_token. rewrite test_number. now apply op_not_literal. }
    cbn [filter]. rewrite N. cbn [map]. rewrite app_nil_r.
    apply symbol_cases in H as [E|[E|H]].
    + rewrite E, step_open. now intros [= <- <-].
    + rewrite E, step_close. intros C.
      apply close_paren_ok in C as (p & _ & -> & _).
      now rewrite operands_app, operands_syms, app_nil_r.
    + pose proof H as Hop. apply operators_symbol in H as [d Hd].
      rewrite (step_operator_char out ops c d Hop Hd).
      destruct (pop_geq d out ops) as [o1 p1] eqn:P.
      intros [= <- <-].
      apply pop_geq_split in P as (p & _ & -> & _).
      now rewrite operands_app, operands_syms, app_nil_r.
Qed.

Lemma steps_operands toks : forall out ops out' ops',
  Forall (fun t => is_literal t = true
                   \/ exists c, t = [c] /\ is_op_or_paren c = true) toks ->
  Engine.steps (out, ops) toks = Ok (out', ops') ->
  operands out'
  = operands out ++ map parseFloat (filter is_number_token toks).
Proof.
  induction toks as [|t toks IH]; intros out ops out' ops' Hwf;
    cbn [Engine.steps].
  - intros [= <- <-]. cbn. now rewrite app_nil_r.
  - inversion Hwf as [|t' toks' Ht Htoks]; subst.
    destruct (Engine.step (out, ops) t) as [[o1 p1]|e] eqn:E; cbn [bind];
      [|discriminate].
    intros H. apply IH in H; [|exact Htoks].
    apply step_operands in E; [|exact Ht].
    rewrite H, E, <- app_assoc, <- map_app.
    change (t :: toks) with ([t] ++ toks). now rewrite filter_app.
Qed.

End Operands.

(** X14. When the conversion to postfix succeeds, the numbers of
    its output are the values of the number tokens, in the order of the
    input; the output holds no parenthesis and as many operator symbols
    as the input has operator tokens. *)
Theorem postfix_keeps_operands :
  forall s rpn,
    Engine.toRPN s = Ok rpn ->
    operands rpn
    = map parseFloat (filter is_number_token (Engine.tokenize s))
    /\ Forall operator_item rpn
    /\ count_symbols rpn = count_operator_tokens (Engine.tokenize s).
Proof.
  intros s rpn H. split; [|split].
  - revert H. unfold Engine.toRPN.
    destruct (Engine.steps ([], []) (Engine.tokenize s))
      as [[out ops]|e] eqn:E; cbn [bind]; [|discriminate].
    rewrite drain_spec.
    destruct (existsb (eqb (lit "(")) ops); [discriminate|].
    intros [= <-].
    apply steps_operands in E; [|apply tokenize_well_formed].
    now rewrite operands_app, operands_syms, app_nil_r, E.
  - exact (toRPN_operators s rpn H).
  - exact (proj2 (toRPN_count s rpn H)).
Qed.

Lemma postfix_keeps_operands_witness :
  operands [INum (parseFloat (lit "1")); INum (parseFloat (lit "2"));
            INum (parseFloat (lit "3")); ISym (lit "*"); ISym (lit "+")]
  = map parseFloat
        (filter is_number_token (Engine.tokenize (lit "1+2*3")))
  /\ Forall operator_item
       [INum (parseFloat (lit "1")); INum (parseFloat (lit "2"));
        INum (parseFloat (lit "3")); ISym (lit "*"); ISym (lit "+")]
  /\ count_symbols
       [INum (parseFloat (lit "1")); INum (parseFloat (lit "2"));
        INum (parseFloat (lit "3")); ISym (lit "*"); ISym (lit "+")]
     = count_operator_tokens (Engine.tokenize (lit "1+2*3")).
Proof.
  apply (postfix_keeps_operands (lit "1+2*3")). vm_compute. reflexivity.
Defined.
